(** * Chibi-agent collection: trait generator and image job pipeline

    A shallow embedding of [generate_prompts.py] (rarity schedule, unique
    trait combinations, prompt rendering) and of [generate_images.py]
    (submit / poll / fetch / download with retry and resume), together with
    the properties of the specification that concern them. *)

From Stdlib Require Import Ascii.
From stdpp Require Import base numbers option list gmap strings pretty.

Open Scope string_scope.
Open Scope list_scope.
Open Scope nat_scope.
Set Warnings "-register-all,-abstract-large-number".
Set Default Proof Using "Type*".

(** ** Python exceptions and results *)

(** What a [RuntimeError] of the pipeline reports: the formatted message is
    kept as the case it describes. *)
Inductive cause : Type :=
  | MissingUrls
  | RemoteStatus (status : string)
  | NoImages
  | NoImageUrl.

(** The exception classes the two scripts can meet.  [RequestException]
    stands for whatever [requests] raises (connection errors, HTTP status
    errors from [raise_for_status], undecodable bodies, unusable URLs). *)
Inductive exn : Type :=
  | ValueError
  | IndexError
  | KeyError
  | TypeError
  | AttributeError
  | AssertionError
  | RuntimeError (why : cause)
  | TimeoutError
  | RequestException.

Inductive result (A : Type) : Type :=
  | Ok (a : A)
  | Raise (e : exn).
Arguments Ok {A} a.
Arguments Raise {A} e.

Definition is_ok {A} (r : result A) : bool :=
  match r with Ok _ => true | Raise _ => false end.

(** ** The pseudo-random generator

    [random] is the Mersenne twister of the Python runtime.  Only its
    interface matters here: a state, the seeding function, and
    [_randbelow n], which yields a number below [n] and the next state. *)
Class PRNG : Type := {
  rng : Type;
  seed : Z → rng;
  randbelow : nat → rng → nat * rng;
  randbelow_lt : ∀ n s, 0 < n → (randbelow n s).1 < n
}.

(** A computation that draws random numbers and may raise. *)
Definition Gen `{PRNG} (A : Type) : Type := rng → result (A * rng).

Definition gret `{PRNG} {A} (a : A) : Gen A := λ s, Ok (a, s).
Definition graise `{PRNG} {A} (e : exn) : Gen A := λ _, Raise e.
Definition gbind `{PRNG} {A B} (m : Gen A) (f : A → Gen B) : Gen B :=
  λ s, match m s with
       | Ok (a, s') => f a s'
       | Raise e => Raise e
       end.
Definition glift `{PRNG} {A} (r : result A) : Gen A :=
  λ s, match r with Ok a => Ok (a, s) | Raise e => Raise e end.

#[global] Instance gen_ret `{PRNG} : MRet Gen := @gret _.
#[global] Instance gen_bind `{PRNG} : MBind Gen := λ A B f m, gbind m f.

Section Random.
Context `{G : PRNG}.

Definition draw (n : nat) : Gen nat :=
  λ s, Ok (randbelow n s).

(** [seq[i]] on a list: [IndexError] out of range. *)
Definition getitem {A} (l : list A) (i : nat) : result A :=
  match l !! i with Some x => Ok x | None => Raise IndexError end.

(** [random.choice(seq)]. *)
Definition choice {A} (seq : list A) : Gen A :=
  if Nat.eqb (length seq) 0 then graise IndexError
  else j ← draw (length seq) ; glift (getitem seq j).

(** The selection loop of [random.sample] over a copy of the population:
    [j = randbelow(n - i); result[i] = pool[j]; pool[j] = pool[n - i - 1]]. *)
Fixpoint sample_loop {A} (todo i n : nat) (pool : list A) : Gen (list A) :=
  match todo with
  | 0 => gret []
  | S todo' =>
      j ← draw (n - i) ;
      x ← glift (getitem pool j) ;
      y ← glift (getitem pool (n - i - 1)) ;
      rest ← sample_loop todo' (S i) n (<[j := y]> pool) ;
      gret (x :: rest)
  end.

(** [random.sample(population, k)] for a population of at most 21
    elements, where CPython selects from a copy of the population (larger
    populations may take the set-based branch, which no call of the
    generator reaches: its only population has four elements). *)
Definition sample {A} (population : list A) (k : Z) : Gen (list A) :=
  let n := length population in
  if negb ((0 <=? k)%Z && (k <=? Z.of_nat n)%Z) then graise ValueError
  else sample_loop (Z.to_nat k) 0 n population.

(** [x[i], x[j] = x[j], x[i]]. *)
Definition swap {A} (x : list A) (i j : nat) : result (list A) :=
  match getitem x j, getitem x i with
  | Ok xj, Ok xi => Ok (<[j := xi]> (<[i := xj]> x))
  | Raise e, _ => Raise e
  | _, Raise e => Raise e
  end.

(** The loop of [random.shuffle]: [i] runs from [len(x) - 1] down to 1. *)
Fixpoint shuffle_loop {A} (i : nat) (x : list A) : Gen (list A) :=
  match i with
  | 0 => gret x
  | S i' =>
      j ← draw (S i) ;
      x' ← glift (swap x i j) ;
      shuffle_loop i' x'
  end.

Definition shuffle {A} (x : list A) : Gen (list A) :=
  shuffle_loop (length x - 1) x.
End Random.

(** ** JSON values

    What [json.load] and [resp.json()] return and [json.dump] accepts.  An
    object keeps its keys in order, as a Python [dict] does; a lookup takes
    the first binding of a key.  Numbers are integers: the scripts only
    ever test a number for truth. *)
Inductive json : Type :=
  | JNull
  | JBool (b : bool)
  | JNum (z : Z)
  | JStr (s : string)
  | JList (l : list json)
  | JObj (kvs : list (string * json)).

(** [d.get(k)] on the bindings of a dict. *)
Fixpoint assoc {V} (k : string) (kvs : list (string * V)) : option V :=
  match kvs with
  | [] => None
  | (k', v) :: rest => if String.eqb k k' then Some v else assoc k rest
  end.

(** [f"{n:04d}"] for a non-negative [n]: decimal digits, zero-padded on the
    left to a width of four. *)
Fixpoint zeros (n : nat) : string :=
  match n with 0 => "" | S n' => "0" +:+ zeros n' end.

(** The line feed ["\n"]. *)
Definition LF : string := String "010"%char EmptyString.

Definition fmt04d (n : nat) : string :=
  let d := pretty n in zeros (4 - String.length d) +:+ d.

(** * The trait generator ([generate_prompts.py]) *)
Module Prompts.

(** ** Trait pools *)

Definition SUIT_STYLES : list string :=
  [ "black suit black tie";
    "black suit black turtleneck";
    "black suit open collar black shirt";
    "black suit white shirt loose tie";
    "black suit white shirt skinny black tie";
    "black double-breasted suit";
    "black three-piece suit with vest visible";
    "black suit mandarin collar";
    "black suit buttoned all the way up";
    "black suit rolled sleeves";
    "rumpled black suit no tie";
    "sharp black suit black shirt";
    "crisp black suit white shirt black tie";
    "black suit with pocket square" ].

Definition SUNGLASSES : list string :=
  [ "black aviator sunglasses";
    "black wayfarer sunglasses";
    "round black sunglasses";
    "rectangular black sunglasses";
    "wraparound black sunglasses";
    "black clubmaster sunglasses";
    "cat-eye black sunglasses";
    "oval black sunglasses";
    "angular black sunglasses";
    "thin rectangular black sunglasses" ].

Definition HAIR_STYLES : list string :=
  [ "short spiky hair";
    "long straight hair";
    "messy curly hair";
    "slicked back hair";
    "short buzzcut";
    "long wavy hair with bangs";
    "short textured hair with undercut";
    "medium tousled hair";
    "neat short hair with side part";
    "short choppy hair";
    "tight braids pulled back";
    "short flat-top military haircut";
    "messy medium hair with bangs";
    "long hair in a bun";
    "mohawk";
    "shoulder length straight hair" ].

Definition HAIR_COLORS : list string :=
  [ "black";
    "dark brown";
    "light brown";
    "blonde";
    "dark blonde";
    "platinum blonde";
    "red";
    "dark red";
    "auburn";
    "silver-white";
    "dusty blue";
    "pink";
    "gray";
    "jet black";
    "strawberry blonde";
    "purple";
    "green-tinted black" ].

Definition SKIN_TONES : list string :=
  [ "pale skin";
    "light skin";
    "fair pink skin";
    "light tan skin";
    "olive skin";
    "warm medium skin";
    "tan skin";
    "warm golden-brown skin";
    "brown skin";
    "dark brown skin";
    "deep dark skin";
    "pale porcelain skin" ].

Definition ACCESSORIES : list string :=
  [ "coiled clear earpiece";
    "radio earpiece with coiled cord";
    "single earpiece";
    "american flag lapel pin";
    "silver lapel pin";
    "badge lanyard tucked into jacket";
    "pen clipped to breast pocket";
    "classified folder peeking from jacket";
    "cigarette behind ear";
    "silver tie clip";
    "chain connecting ear cuff to collar";
    "dog tags tucked under shirt";
    "wristwatch peeking from sleeve" ].

Definition TATTOOS : list string :=
  [ "neck tattoo peeking above collar";
    "hand tattoos visible";
    "sleeve tattoo peeking from cuff";
    "teardrop face tattoo";
    "spider web tattoo on neck";
    "barcode tattoo on neck";
    "cross tattoo under eye";
    "snake tattoo crawling up neck";
    "rose tattoo behind ear";
    "skull tattoo behind ear";
    "flame tattoo on neck";
    "knuckle tattoos";
    "star tattoo behind ear";
    "dagger tattoo on hand";
    "forearm tattoos visible" ].

Definition PIERCINGS : list string :=
  [ "gold nose stud";
    "silver nose ring";
    "septum ring";
    "bull nose ring";
    "eyebrow piercing";
    "lip ring";
    "double nose ring";
    "industrial ear piercing";
    "double hoop earring";
    "ear cuff";
    "chain nose ring to ear cuff";
    "tongue piercing" ].

Definition FRECKLES : list string :=
  [ "freckles on nose";
    "scattered freckles across cheeks";
    "light freckles";
    "subtle freckles" ].

Definition BACKGROUNDS : list string :=
  [ "grainy surveillance footage of parking garage";
    "underground bunker with red emergency lights";
    "cork board with red string conspiracy wall";
    "foggy black helicopter tarmac";
    "empty interrogation room single lightbulb";
    "redacted documents scattered desk";
    "shadowy hallway with flickering fluorescent lights";
    "desert highway Area 51 searchlights";
    "secret underground lab with green glowing tubes";
    "rainy night embassy rooftop with satellite dishes";
    "long dark corridor with single red exit sign";
    "foggy bridge at midnight with distant headlights";
    "empty parking structure with flickering lights";
    "dark server room with rows of blinking blue lights";
    "restricted military hangar with draped tarps";
    "desert night sky with distant unmarked warehouse";
    "dimly lit war room with glowing monitors";
    "satellite dish array in desert at night";
    "blacked out SUV motorcade on rainy street";
    "abandoned warehouse with scattered classified files";
    "rooftop at night with distant radio tower blinking red";
    "deep underground tunnel with pipes and dim yellow lights";
    "static-filled TV screens in dark control room";
    "airport tarmac with unmarked black helicopter";
    "night sky with blurry UFO and searchlights";
    "Pentagon hallway with fluorescent lighting";
    "blurry redacted documents and filing cabinets" ].

Definition EXPRESSIONS : list string :=
  [ "tiny neutral mouth";
    "tiny flat mouth";
    "small expressionless mouth";
    "small flat mouth";
    "tiny straight mouth" ].

(** ** Rarity tables *)

Definition RARITY_WEIGHTS : list (Z * nat) :=
  [ (0%Z, 400); (1%Z, 760); (2%Z, 600); (3%Z, 200); (4%Z, 40) ].

Definition RARITY_LABELS : list (Z * string) :=
  [ (0, "Common"); (1, "Uncommon"); (2, "Rare");
    (3, "Legendary"); (4, "Legendary") ]%Z.

Definition OPTIONAL_CATEGORIES : list (string * list string) :=
  [ ("accessory", ACCESSORIES);
    ("tattoo", TATTOOS);
    ("piercing", PIERCINGS);
    ("freckles", FRECKLES) ].

(** [d[k]] on a table keyed by integers: [KeyError] when [k] is missing. *)
Fixpoint zlookup {V} (k : Z) (tbl : list (Z * V)) : result V :=
  match tbl with
  | [] => Raise KeyError
  | (k', v) :: rest => if (k =? k')%Z then Ok v else zlookup k rest
  end.

(** ** Trait assignments *)

(** The [traits] dict of an agent: seven mandatory values, four optional
    ones that are a string or [None]. *)
Record traits : Type := {
  suit_style : string;
  sunglasses : string;
  hair_style : string;
  hair_color : string;
  skin_tone : string;
  background : string;
  expression : string;
  accessory : option string;
  tattoo : option string;
  piercing : option string;
  freckles : option string
}.

Record agent : Type := {
  token_id : nat;
  agent_traits : traits;
  rarity : string;
  num_extras : Z;
  prompt : string
}.

(** The tuple under which a combination is remembered: the seven
    mandatory values, then the four optional ones. *)
Inductive key : Type :=
  | Key (suit glasses hstyle hcolor skin bg expr : string)
        (acc tat pie fre : option string).

Definition combo_key (t : traits) : key :=
  Key (suit_style t) (sunglasses t) (hair_style t) (hair_color t)
      (skin_tone t) (background t) (expression t)
      (accessory t) (tattoo t) (piercing t) (freckles t).

#[global] Instance key_eq_dec : EqDecision key.
Proof. solve_decision. Defined.

Definition key_to_list (k : key) : list (option string) :=
  let 'Key a b c d e f g h i j l := k in
  [Some a; Some b; Some c; Some d; Some e; Some f; Some g; h; i; j; l].

Definition key_of_list (l : list (option string)) : option key :=
  match l with
  | [Some a; Some b; Some c; Some d; Some e; Some f; Some g; h; i; j; l] =>
      Some (Key a b c d e f g h i j l)
  | _ => None
  end.

#[global] Instance key_countable : Countable key.
Proof.
  apply (inj_countable key_to_list key_of_list).
  by intros [].
Defined.

(** Truth value of [traits.get(name)]: a non-empty string. *)
Definition truthy (v : option string) : bool :=
  match v with
  | Some s => negb (String.eqb s "")
  | None => false
  end.

(** The fragment list of the prompt, then [", ".join(parts)]. *)
Definition optional_part (v : option string) : list string :=
  match v with
  | Some s => if truthy v then [s] else []
  | None => []
  end.

Definition prompt_parts (t : traits) : list string :=
  ([ "Chibi agent, oversized head, large glossy black eyes with white highlights";
     hair_color t +:+ " " +:+ hair_style t;
     skin_tone t ]
   ++ optional_part (freckles t)
   ++ [ expression t; suit_style t; sunglasses t ]
   ++ optional_part (accessory t)
   ++ optional_part (tattoo t)
   ++ optional_part (piercing t)
   ++ [ "chest-up portrait";
        background t +:+ " background";
        "kawaii digital art, NFT collectible card style" ])%list.

Definition render_prompt (t : traits) : string :=
  String.concat ", " (prompt_parts t).

Section Generator.
Context `{G : PRNG}.

(** The loop of [pick_extras] over [OPTIONAL_CATEGORIES]. *)
Fixpoint pick_loop (cats todo : list (string * list string))
    : Gen (list (string * option string)) :=
  match todo with
  | [] => mret []
  | (name, pool) :: todo' =>
      v ← (if bool_decide ((name, pool) ∈ cats)
           then (c ← choice pool ; mret (Some c))
           else mret None) ;
      rest ← pick_loop cats todo' ;
      mret ((name, v) :: rest)
  end.

Definition pick_extras (num_extras : Z)
    : Gen (list (string * option string)) :=
  cats ← sample OPTIONAL_CATEGORIES num_extras ;
  pick_loop cats OPTIONAL_CATEGORIES.

(** [extras.get(name)] after [traits.update(extras)]. *)
Definition extra (name : string) (extras : list (string * option string))
    : option string :=
  default None (assoc name extras).

Definition generate_agent (tid : nat) (n_extras : Z) : Gen agent :=
  suit ← choice SUIT_STYLES ;
  glasses ← choice SUNGLASSES ;
  hstyle ← choice HAIR_STYLES ;
  hcolor ← choice HAIR_COLORS ;
  skin ← choice SKIN_TONES ;
  bg ← choice BACKGROUNDS ;
  expr ← choice EXPRESSIONS ;
  extras ← pick_extras n_extras ;
  let t := {| suit_style := suit; sunglasses := glasses;
              hair_style := hstyle; hair_color := hcolor;
              skin_tone := skin; background := bg; expression := expr;
              accessory := extra "accessory" extras;
              tattoo := extra "tattoo" extras;
              piercing := extra "piercing" extras;
              freckles := extra "freckles" extras |} in
  label ← glift (zlookup n_extras RARITY_LABELS) ;
  mret {| token_id := tid; agent_traits := t; rarity := label;
          num_extras := n_extras; prompt := render_prompt t |}.

(** *** The rarity schedule *)

(** [schedule.extend([num_extras] * count)] for every entry of the
    table, in the order of the table. *)
Fixpoint expand (weights : list (Z * nat)) : list Z :=
  match weights with
  | [] => []
  | (n_extras, count) :: rest => replicate count n_extras ++ expand rest
  end.

(** The schedule of [main]: expanded, checked against the collection
    size, shuffled.  [main] runs it with [RARITY_WEIGHTS] and 2000. *)
Definition build_schedule (total : nat) (weights : list (Z * nat))
    : Gen (list Z) :=
  let schedule := expand weights in
  if negb (Nat.eqb (length schedule) total) then graise AssertionError
  else shuffle schedule.

(** *** Unique combinations *)

Definition max_attempts : nat := 50000.

(** [while attempts < max_attempts: ...] for one item.  [left] is
    [max_attempts - attempts]; [None] is the [else] branch of the loop,
    taken when the budget is spent. *)
Fixpoint unique_agent (left : nat) (tid : nat) (n_extras : Z)
    (attempts : nat) (seen : gset key) : Gen (option agent * nat) :=
  match left with
  | 0 => mret (None, attempts)
  | S left' =>
      let attempts := S attempts in
      a ← generate_agent tid n_extras ;
      if bool_decide (combo_key (agent_traits a) ∈ seen)
      then unique_agent left' tid n_extras attempts seen
      else mret (Some a, attempts)
  end.

Record collection : Type := {
  agents : list agent;
  seen_combos : gset key;
  attempts_made : nat
}.

(** [for i, num_extras in enumerate(schedule): ...] from index [i] on.
    [None] when the error branch returned from [main]. *)
Fixpoint generate_all (schedule : list Z) (i : nat) (c : collection)
    : Gen (option collection) :=
  match schedule with
  | [] => mret (Some c)
  | n_extras :: rest =>
      '(found, attempts) ←
        unique_agent (max_attempts - attempts_made c) (i + 1) n_extras
                     (attempts_made c) (seen_combos c) ;
      match found with
      | None => mret None
      | Some a =>
          generate_all rest (S i)
            {| agents := agents c ++ [a];
               seen_combos := {[ combo_key (agent_traits a) ]} ∪ seen_combos c;
               attempts_made := attempts |}
      end
  end.

Definition empty_collection : collection :=
  {| agents := []; seen_combos := ∅; attempts_made := 0 |}.

Definition generate_collection (total : nat) (weights : list (Z * nat))
    : Gen (list Z * option collection) :=
  schedule ← build_schedule total weights ;
  c ← generate_all schedule 0 empty_collection ;
  mret (schedule, c).
End Generator.

(** ** Output documents *)

Definition json_of_option (v : option string) : json :=
  match v with Some s => JStr s | None => JNull end.

Definition traits_to_json (t : traits) : json :=
  JObj [ ("suit_style", JStr (suit_style t));
         ("sunglasses", JStr (sunglasses t));
         ("hair_style", JStr (hair_style t));
         ("hair_color", JStr (hair_color t));
         ("skin_tone", JStr (skin_tone t));
         ("background", JStr (background t));
         ("expression", JStr (expression t));
         ("accessory", json_of_option (accessory t));
         ("tattoo", json_of_option (tattoo t));
         ("piercing", json_of_option (piercing t));
         ("freckles", json_of_option (freckles t)) ].

Definition agent_to_json (a : agent) : json :=
  JObj [ ("token_id", JNum (Z.of_nat (token_id a)));
         ("traits", traits_to_json (agent_traits a));
         ("rarity", JStr (rarity a));
         ("num_extras", JNum (num_extras a));
         ("prompt", JStr (prompt a)) ].

Definition attribute (trait_type value : string) : json :=
  JObj [ ("trait_type", JStr trait_type); ("value", JStr value) ].

Definition optional_attribute (trait_type : string) (v : option string)
    : list json :=
  match v with
  | Some s => if truthy v then [attribute trait_type s] else []
  | None => []
  end.

Definition build_opensea_metadata (a : agent) : json :=
  let t := agent_traits a in
  let attributes : list json :=
    ([ attribute "Suit Style" (suit_style t);
       attribute "Sunglasses" (sunglasses t);
       attribute "Hair Style" (hair_style t);
       attribute "Hair Color" (hair_color t);
       attribute "Skin Tone" (skin_tone t);
       attribute "Background" (background t);
       attribute "Expression" (expression t);
       attribute "Rarity" (rarity a) ]
     ++ optional_attribute "Accessory" (accessory t)
     ++ optional_attribute "Tattoo" (tattoo t)
     ++ optional_attribute "Piercing" (piercing t)
     ++ optional_attribute "Freckles" (freckles t))%list in
  let tid := token_id a in
  JObj [ ("name", JStr ("Chibi Agent #" +:+ fmt04d tid));
         ("description",
          JStr "A cute chibi secret agent from the 2000-piece Chibi Agent collection.");
         ("image", JStr ("ipfs://YOUR_CID_HERE/" +:+ fmt04d tid +:+ ".png"));
         ("attributes", JList attributes) ].

Section Main.
Context `{G : PRNG}.

(** [json.dumps(obj, indent=2)]: the text [json.dump] writes. *)
Variable dumps : json → string.

Definition prompts_text (l : list agent) : string :=
  String.concat "" (map (λ a, prompt a +:+ LF) l).

Definition metadata_path (a : agent) : string :=
  "output/metadata/" +:+ fmt04d (token_id a) +:+ ".json".

(** The files of the output section, written in the order of [main];
    opening with mode ["w"] replaces what a path held. *)
Definition write_outputs (l : list agent) (fs : gmap string string)
    : gmap string string :=
  let fs := <["output/full_collection.json" := dumps (JList (map agent_to_json l))]> fs in
  let fs := <["output/prompts_only.txt" := prompts_text l]> fs in
  foldl (λ fs a, <[metadata_path a := dumps (build_opensea_metadata a)]> fs) fs l.

(** A run of the script from a seeded generator: the schedule, the
    collection ([None] after the error branch), and the files. *)
Definition run (sd : Z) (total : nat) (weights : list (Z * nat))
    (fs : gmap string string)
    : result (list Z * option collection * gmap string string) :=
  match generate_collection total weights (seed sd) with
  | Raise e => Raise e
  | Ok ((schedule, None), _) => Ok (schedule, None, fs)
  | Ok ((schedule, Some c), _) =>
      Ok (schedule, Some c, write_outputs (agents c) fs)
  end.

(** [random.seed(42)] at import, then [main()]. *)
Definition main (fs : gmap string string) :=
  run 42 2000 RARITY_WEIGHTS fs.
End Main.

End Prompts.

(** * The image pipeline ([generate_images.py]) *)
Module Images.

Definition IMAGES_DIR : string := "output/images".
Definition MAX_POLL_ATTEMPTS : nat := 150.
Definition MAX_RETRIES : nat := 3.

(** ** The remote service and the world

    The queue service is a state machine the script talks to through
    [requests]: a POST of a JSON payload, a GET decoded as JSON, a GET read
    as bytes.  Each answer is the decoded body, or the exception that
    [requests], [raise_for_status] or [resp.json()] raised. *)
Class Service : Type := {
  remote : Type;
  http_post : string → json → remote → result json * remote;
  http_get_json : string → remote → result json * remote;
  http_get_bytes : string → remote → result (list Byte.byte) * remote
}.

Inductive delay : Type :=
  | PollInterval
  | Backoff (seconds : nat)
  | BetweenRequests.

Inductive event : Type :=
  | EvSubmit (prompt : string)
  | EvPoll (url : string)
  | EvFetch (url : string)
  | EvDownload (url : string)
  | EvSleep (d : delay).

Definition is_network (e : event) : bool :=
  match e with EvSleep _ => false | _ => true end.

Definition is_submit (e : event) : bool :=
  match e with EvSubmit _ => true | _ => false end.

Definition is_poll (e : event) : bool :=
  match e with EvPoll _ => true | _ => false end.

Record world `{Service} : Type := {
  service : remote;
  files : gmap string (list Byte.byte);
  log : list event
}.

(** A step of the script: it changes the world and returns or raises.
    What happened before an exception stays done. *)
Definition Pipe `{Service} (A : Type) : Type := world → result A * world.

#[global] Instance pipe_ret `{Service} : MRet Pipe := λ A a w, (Ok a, w).
#[global] Instance pipe_bind `{Service} : MBind Pipe := λ A B f m w,
  match m w with
  | (Ok a, w') => f a w'
  | (Raise e, w') => (Raise e, w')
  end.

Section Pipeline.
Context `{Svc : Service}.

Definition praise {A} (e : exn) : Pipe A := λ w, (Raise e, w).

Definition plift {A} (r : result A) : Pipe A := λ w, (r, w).

Definition emit (e : event) : Pipe unit := λ w,
  (Ok (), {| service := service w; files := files w; log := (log w ++ [e])%list |}).

Definition sleep (d : delay) : Pipe unit := emit (EvSleep d).

Definition call {A} (f : remote → result A * remote) : Pipe A := λ w,
  let '(r, s) := f (service w) in
  (r, {| service := s; files := files w; log := log w |}).

(** [try: body  except Exception: handler]. *)
Definition try_except {A} (body : Pipe A) (handler : exn → Pipe A) : Pipe A :=
  λ w, match body w with
       | (Ok a, w') => (Ok a, w')
       | (Raise e, w') => handler e w'
       end.

(** ** Values as Python sees them *)

Definition truth (v : json) : bool :=
  match v with
  | JNull => false
  | JBool b => b
  | JNum z => negb (z =? 0)%Z
  | JStr s => negb (String.eqb s "")
  | JList l => match l with [] => false | _ => true end
  | JObj kvs => match kvs with [] => false | _ => true end
  end.

Definition is_dict (v : json) : bool :=
  match v with JObj _ => true | _ => false end.

(** [v.get(k, dflt)]: only a dict has [get]. *)
Definition py_get (v : json) (k : string) (dflt : json) : result json :=
  match v with
  | JObj kvs => Ok (default dflt (assoc k kvs))
  | _ => Raise AttributeError
  end.

(** [v[0]]. *)
Definition py_first (v : json) : result json :=
  match v with
  | JList (x :: _) => Ok x
  | JList [] => Raise IndexError
  | JStr (String c _) => Ok (JStr (String c EmptyString))
  | JStr EmptyString => Raise IndexError
  | JObj _ => Raise KeyError
  | _ => Raise TypeError
  end.

(** A value handed to [requests] as a URL: anything but a string is
    refused before a request is made. *)
Definition as_url (v : json) : result string :=
  match v with JStr u => Ok u | _ => Raise RequestException end.

(** ** The four requests *)

Definition submit_payload (prompt : string) : json :=
  JObj [ ("prompt", JStr prompt); ("aspect_ratio", JStr "1:1");
         ("output_format", JStr "png"); ("num_images", JNum 1) ].

Definition submit_request (queue_url prompt : string) : Pipe json :=
  emit (EvSubmit prompt) ;;
  call (http_post queue_url (submit_payload prompt)).

Definition status_of (data : json) : result json :=
  py_get data "status" (JStr "UNKNOWN").

(** [status == name] for a string [name]. *)
Definition status_is (status : json) (name : string) : bool :=
  match status with
  | JStr s => String.eqb s name
  | _ => false
  end.

(** One round of the poll loop: [Some] ends the loop with the value
    returned, [None] goes on to the next round after the sleep. *)
Definition poll_once (status_url : json) : Pipe (option string) :=
  u ← plift (as_url status_url) ;
  emit (EvPoll u) ;;
  data ← call (http_get_json u) ;
  status ← plift (status_of data) ;
  if status_is status "COMPLETED" then mret (Some "COMPLETED")
  else if status_is status "FAILED" then
    praise (RuntimeError (RemoteStatus "FAILED"))
  else if status_is status "CANCELLED" then
    praise (RuntimeError (RemoteStatus "CANCELLED"))
  else sleep PollInterval ;; mret None.

(** [for attempt in range(MAX_POLL_ATTEMPTS): ...] with [todo] rounds
    left, then the [TimeoutError] after the loop. *)
Fixpoint poll_loop (todo : nat) (status_url : json) : Pipe string :=
  match todo with
  | 0 => praise TimeoutError
  | S todo' =>
      r ← poll_once status_url ;
      match r with
      | Some s => mret s
      | None => poll_loop todo' status_url
      end
  end.

Definition poll_until_done (status_url : json) : Pipe string :=
  poll_loop MAX_POLL_ATTEMPTS status_url.

Definition fetch_result (response_url : json) : Pipe json :=
  u ← plift (as_url response_url) ;
  emit (EvFetch u) ;;
  call (http_get_json u).

(** ** Locating the image in a result *)

(** Step 4 of an attempt up to the download: the value passed to
    [download_image]. *)
Definition extract_image_url (res : json) : result json :=
  match py_get res "images" (JList []) with
  | Raise e => Raise e
  | Ok images =>
      let images' :=
        if negb (truth images) then
          match py_get res "data" (JObj []) with
          | Raise e => Raise e
          | Ok dflt =>
              match py_get res "output" dflt with
              | Raise e => Raise e
              | Ok output =>
                  if is_dict output then py_get output "images" (JList [])
                  else Ok images
              end
          end
        else Ok images in
      match images' with
      | Raise e => Raise e
      | Ok images =>
          if negb (truth images) then Raise (RuntimeError NoImages)
          else
            match py_first images with
            | Raise e => Raise e
            | Ok first =>
                let image_url :=
                  if is_dict first then py_get first "url" JNull
                  else py_first images in
                match image_url with
                | Raise e => Raise e
                | Ok u =>
                    if negb (truth u) then Raise (RuntimeError NoImageUrl)
                    else Ok u
                end
            end
      end
  end.

(** ** Writing the file *)

(** What [open(dest_path, "wb")] and [f.write(content)] do to the file,
    one step at a time: the open truncates, then the bytes arrive in
    order.  A process killed during the write leaves the file as it is
    after some prefix of these steps.  The write itself is taken to go
    through: an [OSError] of [open] or [write] (a full disk, a missing
    directory) is not part of this model. *)
Inductive fs_op : Type :=
  | OpenTrunc (path : string)
  | Append (path : string) (b : Byte.byte).

Definition apply_op (fs : gmap string (list Byte.byte)) (op : fs_op)
    : gmap string (list Byte.byte) :=
  match op with
  | OpenTrunc path => <[path := []]> fs
  | Append path b => <[path := (default [] (fs !! path) ++ [b])%list]> fs
  end.

Definition write_ops (dest_path : string) (content : list Byte.byte)
    : list fs_op :=
  OpenTrunc dest_path :: map (Append dest_path) content.

Definition write_file (dest_path : string) (content : list Byte.byte)
    : Pipe unit := λ w,
  (Ok (), {| service := service w;
             files := foldl apply_op (files w) (write_ops dest_path content);
             log := log w |}).

(** The file system after the first [k] steps of the write only. *)
Definition interrupted_write (k : nat) (dest_path : string)
    (content : list Byte.byte) (fs : gmap string (list Byte.byte))
    : gmap string (list Byte.byte) :=
  foldl apply_op fs (take k (write_ops dest_path content)).

Definition download_image (image_url : json) (dest_path : string)
    : Pipe unit :=
  u ← plift (as_url image_url) ;
  emit (EvDownload u) ;;
  content ← call (http_get_bytes u) ;
  write_file dest_path content.

(** ** One item *)

Definition dest_path_of (token_id : nat) : string :=
  IMAGES_DIR +:+ "/" +:+ fmt04d token_id +:+ ".png".

(** [os.path.exists(p) and os.path.getsize(p) > 0]. *)
Definition done_on_disk (fs : gmap string (list Byte.byte)) (p : string)
    : bool :=
  match fs !! p with
  | Some content => bool_decide (0 < length content)
  | None => false
  end.

(** The body of the [try] block. *)
Definition attempt (queue_url prompt dest_path : string) : Pipe bool :=
  queue_resp ← submit_request queue_url prompt ;
  _ ← plift (py_get queue_resp "request_id" (JStr "?")) ;
  status_url ← plift (py_get queue_resp "status_url" JNull) ;
  response_url ← plift (py_get queue_resp "response_url" JNull) ;
  (if negb (truth status_url) || negb (truth response_url)
   then praise (RuntimeError MissingUrls) else mret ()) ;;
  poll_until_done status_url ;;
  res ← fetch_result response_url ;
  image_url ← plift (extract_image_url res) ;
  download_image image_url dest_path ;;
  mret true.

(** [for retry in range(MAX_RETRIES): try ... except Exception ...] from
    round [retry] on, with [todo] rounds left, then [return False]. *)
Fixpoint retry_loop (todo retry : nat) (queue_url prompt dest_path : string)
    : Pipe bool :=
  match todo with
  | 0 => mret false
  | S todo' =>
      r ← try_except
             (b ← attempt queue_url prompt dest_path ; mret (Some b))
             (λ _, (if bool_decide (retry < MAX_RETRIES - 1)
                    then sleep (Backoff (2 ^ (retry + 1))) else mret ()) ;;
                   mret None) ;
      match r with
      | Some b => mret b
      | None => retry_loop todo' (S retry) queue_url prompt dest_path
      end
  end.

Definition generate_single (queue_url : string) (token_id : nat)
    (prompt : string) (force : bool) : Pipe bool := λ w,
  let dest_path := dest_path_of token_id in
  if negb force && done_on_disk (files w) dest_path then (Ok true, w)
  else retry_loop MAX_RETRIES 0 queue_url prompt dest_path w.

(** ** The run over the ids *)

Record item : Type := {
  item_prompt : string;
  item_rarity : string
}.

Record report : Type := {
  successes : nat;
  failures : nat;
  failed_ids : list nat;
  already_done : nat
}.

(** The loop that splits the ids into those already done and those to
    generate; ids that the collection lacks are skipped. *)
Fixpoint triage (agents_by_id : gmap nat item) (force : bool)
    (fs : gmap string (list Byte.byte)) (token_ids : list nat)
    : nat * list nat :=
  match token_ids with
  | [] => (0, [])
  | tid :: rest =>
      let '(done, to_generate) := triage agents_by_id force fs rest in
      match agents_by_id !! tid with
      | None => (done, to_generate)
      | Some _ =>
          if negb force && done_on_disk fs (dest_path_of tid)
          then (S done, to_generate)
          else (done, tid :: to_generate)
      end
  end.

(** [for i, tid in enumerate(to_generate): ...]; [agents_by_id[tid]]
    raises [KeyError] for a missing id. *)
Fixpoint generate_loop (queue_url : string) (agents_by_id : gmap nat item)
    (force : bool) (to_generate : list nat) (r : report) : Pipe report :=
  match to_generate with
  | [] => mret r
  | tid :: rest =>
      a ← plift (match agents_by_id !! tid with
                 | Some a => Ok a
                 | None => Raise KeyError
                 end) ;
      ok ← generate_single queue_url tid (item_prompt a) force ;
      let r' :=
        if (ok : bool)
        then {| successes := S (successes r); failures := failures r;
                failed_ids := failed_ids r; already_done := already_done r |}
        else {| successes := successes r; failures := S (failures r);
                failed_ids := (failed_ids r ++ [tid])%list;
                already_done := already_done r |} in
      (match rest with
       | [] => mret ()
       | _ => sleep BetweenRequests
       end) ;;
      generate_loop queue_url agents_by_id force rest r'
  end.

(** [main] from the choice of the ids on: [redo], when given, lists the
    ids and forces them; otherwise the ids are [start .. end]. *)
Definition main (queue_url : string) (agents_by_id : gmap nat item)
    (start end_ : nat) (redo : option (list nat)) : Pipe report := λ w,
  let force := match redo with Some _ => true | None => false end in
  let token_ids :=
    match redo with
    | Some ids => ids
    | None => seq start (end_ + 1 - start)
    end in
  let '(done, to_generate) := triage agents_by_id force (files w) token_ids in
  generate_loop queue_url agents_by_id force to_generate
    {| successes := 0; failures := 0; failed_ids := [];
       already_done := done |} w.
End Pipeline.

End Images.

(** * Properties *)

(** A linear congruential generator: a runnable instance of the
    interface, used to evaluate the scripts on concrete seeds. *)
Definition lcg_next (s : N) : N := ((s * 1103515245 + 12345) mod 2147483648)%N.

Definition lcg_randbelow (n : nat) (s : N) : nat * N :=
  (N.to_nat ((s / 65536) mod N.of_nat n)%N, lcg_next s).

Lemma lcg_randbelow_lt n s : 0 < n → (lcg_randbelow n s).1 < n.
Proof.
  intros Hn. unfold lcg_randbelow. simpl.
  assert (H : ((s / 65536) mod N.of_nat n < N.of_nat n)%N)
    by (apply N.mod_lt; lia).
  lia.
Qed.

Definition LCG : PRNG :=
  {| rng := N; seed := λ z, lcg_next (Z.to_N z);
     randbelow := lcg_randbelow; randbelow_lt := lcg_randbelow_lt |}.


(** ** Random draws *)

Section RandomFacts.
Context `{G : PRNG}.

Lemma gbind_inv {A B} (m : Gen A) (f : A → Gen B) s b s' :
  (m ≫= f) s = Ok (b, s') →
  ∃ a s1, m s = Ok (a, s1) ∧ f a s1 = Ok (b, s').
Proof.
  unfold mbind, gen_bind, gbind. destruct (m s) as [[a s1]|e]; [|done].
  intros Hf. by exists a, s1.
Qed.

Lemma gbind_ok {A B} (m : Gen A) (f : A → Gen B) s a s1 :
  m s = Ok (a, s1) → (m ≫= f) s = f a s1.
Proof. unfold mbind, gen_bind, gbind. by intros ->. Qed.

Lemma gbind_raise {A B} (m : Gen A) (f : A → Gen B) s e :
  m s = Raise e → (m ≫= f) s = Raise e.
Proof. unfold mbind, gen_bind, gbind. by intros ->. Qed.

Lemma draw_lt n s : 0 < n → ∃ j s', draw n s = Ok (j, s') ∧ j < n.
Proof.
  intros Hn. unfold draw. pose proof (randbelow_lt n s Hn) as Hlt.
  destruct (randbelow n s) as [j s']. by exists j, s'.
Qed.

Lemma getitem_lt {A} (l : list A) i :
  i < length l → ∃ x, getitem l i = Ok x ∧ l !! i = Some x.
Proof.
  intros Hi. unfold getitem.
  destruct (lookup_lt_is_Some_2 l i Hi) as [x Hx]. rewrite Hx. by exists x.
Qed.

(** A choice from a non-empty pool returns a member of the pool. *)
Lemma choice_ok {A} (pool : list A) s :
  pool ≠ [] → ∃ x s', choice pool s = Ok (x, s') ∧ x ∈ pool.
Proof.
  intros Hne. unfold choice.
  destruct (length pool) as [|n] eqn:Hlen.
  { by destruct pool. }
  simpl. destruct (draw_lt (S n) s) as (j & s' & Hd & Hj); [lia|].
  rewrite (gbind_ok _ _ _ _ _ Hd).
  destruct (getitem_lt pool j) as (x & Hx & Hl); [lia|].
  unfold glift. rewrite Hx. exists x, s'. split; [done|].
  by eapply list_elem_of_lookup_2.
Qed.

Lemma insert_swap_perm {A} (l : list A) j y a :
  l !! j = Some y → y :: <[j:=a]> l ≡ₚ a :: l.
Proof.
  revert j. induction l as [|b l IH]; intros [|j] Hj; simplify_eq/=.
  - apply perm_swap.
  - rewrite perm_swap. rewrite (IH j Hj). apply perm_swap.
Qed.

Lemma swap_perm {A} (x : list A) i j x' :
  swap x i j = Ok x' → x' ≡ₚ x.
Proof.
  unfold swap, getitem.
  destruct (x !! j) as [xj|] eqn:Hj; [|done].
  destruct (x !! i) as [xi|] eqn:Hi; [|done].
  intros [= <-]. destruct (decide (i = j)) as [->|Hne].
  - simplify_eq. rewrite list_insert_insert_eq. by rewrite list_insert_id.
  - apply (Permutation_cons_inv (a:=xj)).
    rewrite insert_swap_perm.
    + by apply insert_swap_perm.
    + by rewrite list_lookup_insert_ne.
Qed.

Lemma swap_ok {A} (x : list A) i j :
  i < length x → j < length x → ∃ x', swap x i j = Ok x'.
Proof.
  intros Hi Hj. unfold swap.
  destruct (getitem_lt x j Hj) as (xj & -> & _).
  destruct (getitem_lt x i Hi) as (xi & -> & _). eauto.
Qed.

Lemma shuffle_loop_perm {A} i (x : list A) s :
  i < length x ∨ i = 0 →
  ∃ x' s', shuffle_loop i x s = Ok (x', s') ∧ x' ≡ₚ x.
Proof.
  revert x s. induction i as [|i IH]; intros x s Hi.
  { by exists x, s. }
  destruct Hi as [Hi|]; [|done]. cbn [shuffle_loop].
  destruct (draw_lt (S (S i)) s) as (j & s1 & Hd & Hj); [lia|].
  rewrite (gbind_ok _ _ _ _ _ Hd).
  destruct (swap_ok x (S i) j) as [x1 Hsw]; [lia..|].
  pose proof (swap_perm _ _ _ _ Hsw) as Hp.
  rewrite (gbind_ok _ _ s1 x1 s1); [|by unfold glift; rewrite Hsw].
  destruct (IH x1 s1) as (x' & s' & Hl & Hp').
  { left. rewrite (Permutation_length Hp). lia. }
  exists x', s'. split; [done|]. by rewrite Hp'.
Qed.

(** A shuffle never raises and permutes its argument. *)
Lemma shuffle_perm {A} (x : list A) s :
  ∃ x' s', shuffle x s = Ok (x', s') ∧ x' ≡ₚ x.
Proof.
  unfold shuffle. apply shuffle_loop_perm.
  destruct x; simpl; [by right|left; lia].
Qed.

Lemma sample_loop_spec {A} todo i n (pool : list A) s :
  length pool = n → i + todo ≤ n →
  ∃ res s', sample_loop todo i n pool s = Ok (res, s')
            ∧ length res = todo ∧ res ⊆+ take (n - i) pool.
Proof.
  revert i pool s. induction todo as [|todo IH]; intros i pool s Hlen Hi.
  { exists [], s. split_and!; [done..|]. apply submseteq_nil_l. }
  cbn [sample_loop].
  destruct (draw_lt (n - i) s) as (j & s1 & Hd & Hj); [lia|].
  rewrite (gbind_ok _ _ _ _ _ Hd).
  destruct (getitem_lt pool j) as (x & Hx & Hlx); [lia|].
  rewrite (gbind_ok _ _ s1 x s1); [|by unfold glift; rewrite Hx].
  destruct (getitem_lt pool (n - i - 1)) as (y & Hy & Hly); [lia|].
  rewrite (gbind_ok _ _ s1 y s1); [|by unfold glift; rewrite Hy].
  destruct (IH (S i) (<[j:=y]> pool) s1) as (rest & s' & Hrest & Hl & Hsub).
  { by rewrite length_insert. }
  { lia. }
  rewrite (gbind_ok _ _ _ _ _ Hrest).
  exists (x :: rest), s'. split_and!; [done|simpl; lia|].
  replace (n - i) with (S (n - i - 1)) by lia.
  replace (n - S i) with (n - i - 1) in Hsub by lia.
  set (m := n - i - 1) in *.
  rewrite (take_S_r _ _ _ Hly).
  transitivity (x :: take m (<[j:=y]> pool)); [by apply submseteq_skip|].
  apply Permutation_submseteq.
  destruct (decide (j = m)) as [->|Hne].
  - rewrite take_insert_ge by lia. simplify_eq.
    apply Permutation_cons_append.
  - rewrite take_insert_lt by lia.
    rewrite insert_swap_perm by (rewrite lookup_take_lt; [done|lia]).
    apply Permutation_cons_append.
Qed.

(** A sample of a valid size has that size and draws without
    replacement from the population. *)
Lemma sample_spec {A} (population : list A) (k : Z) s :
  (0 ≤ k ≤ Z.of_nat (length population))%Z →
  ∃ res s', sample population k s = Ok (res, s')
            ∧ length res = Z.to_nat k ∧ res ⊆+ population.
Proof.
  intros Hk. unfold sample.
  replace (0 <=? k)%Z with true by (symmetry; apply Z.leb_le; lia).
  replace (k <=? Z.of_nat (length population))%Z with true
    by (symmetry; apply Z.leb_le; lia).
  simpl.
  destruct (sample_loop_spec (Z.to_nat k) 0 (length population) population s)
    as (res & s' & Hs & Hl & Hsub); [done|lia|].
  exists res, s'. split_and!; [done..|].
  by rewrite Nat.sub_0_r, firstn_all in Hsub.
Qed.

(** Any other size is refused. *)
Lemma sample_invalid {A} (population : list A) (k : Z) s :
  (k < 0 ∨ Z.of_nat (length population) < k)%Z →
  sample population k s = Raise ValueError.
Proof.
  intros Hk. unfold sample.
  destruct (0 <=? k)%Z eqn:H0; [|done].
  destruct (k <=? Z.of_nat (length population))%Z eqn:H1; [|done].
  apply Z.leb_le in H0, H1. lia.
Qed.
End RandomFacts.

(** ** The rarity schedule *)

(** How often an extras-count occurs in a schedule. *)
Definition occurrences (n : Z) (l : list Z) : nat :=
  length (filter (λ x, x = n) l).

Section ScheduleFacts.
Context `{G : PRNG}.
Import Prompts.

Lemma occurrences_app n l k :
  occurrences n (l ++ k) = occurrences n l + occurrences n k.
Proof. unfold occurrences. by rewrite filter_app, length_app. Qed.

Lemma occurrences_replicate_eq n c : occurrences n (replicate c n) = c.
Proof.
  unfold occurrences. induction c as [|c IH]; [done|]. simpl.
  rewrite filter_cons_True by done. simpl. by rewrite IH.
Qed.

Lemma occurrences_replicate_ne n m c :
  m ≠ n → occurrences n (replicate c m) = 0.
Proof.
  intros Hne. unfold occurrences. induction c as [|c IH]; [done|]. simpl.
  by rewrite filter_cons_False.
Qed.

Lemma length_expand weights : length (expand weights) = sum_list weights.*2.
Proof.
  induction weights as [|[n c] rest IH]; [done|]. simpl.
  by rewrite length_app, length_replicate, IH.
Qed.

Lemma expand_absent n weights :
  n ∉ weights.*1 → occurrences n (expand weights) = 0.
Proof.
  induction weights as [|[m c] rest IH]; [done|]. simpl.
  intros Hn. apply not_elem_of_cons in Hn as [Hne Hn].
  rewrite occurrences_app, occurrences_replicate_ne by done. by apply IH.
Qed.

Lemma expand_present n c weights :
  NoDup weights.*1 → (n, c) ∈ weights → occurrences n (expand weights) = c.
Proof.
  induction weights as [|[m c'] rest IH]; simpl; intros Hnd Hin.
  { by apply elem_of_nil in Hin. }
  apply NoDup_cons in Hnd as [Hm Hnd]. rewrite occurrences_app.
  apply elem_of_cons in Hin as [[= <- <-]|Hin].
  - rewrite occurrences_replicate_eq, expand_absent by done. lia.
  - assert (m ≠ n) as Hne.
    { intros ->. apply Hm. by apply (list_elem_of_fmap_2 fst _ (n, c)). }
    rewrite occurrences_replicate_ne by done. by apply IH.
Qed.

Lemma occurrences_perm n l k : l ≡ₚ k → occurrences n l = occurrences n k.
Proof. unfold occurrences. by intros ->. Qed.

(** A table whose counts do not add up to the collection size is refused
    before anything is generated. *)
Lemma build_schedule_refused total weights s :
  sum_list weights.*2 ≠ total →
  build_schedule total weights s = Raise AssertionError.
Proof.
  intros Hne. unfold build_schedule. rewrite length_expand.
  by destruct (Nat.eqb_spec (sum_list weights.*2) total).
Qed.

(** C4.  For every weight table (a dict: its keys are distinct) whose
    counts add up to the collection size, the schedule is produced and is
    a permutation of the table's multiset: every extras-count of the
    table occurs exactly as often as the table says, and no other value
    occurs at all. *)
Theorem schedule_matches_table total weights s :
  NoDup weights.*1 → sum_list weights.*2 = total →
  ∃ schedule s',
    build_schedule total weights s = Ok (schedule, s')
    ∧ schedule ≡ₚ expand weights
    ∧ length schedule = total
    ∧ (∀ n c, (n, c) ∈ weights → occurrences n schedule = c)
    ∧ (∀ n, n ∉ weights.*1 → occurrences n schedule = 0).
Proof.
  intros Hnd Hsum. unfold build_schedule.
  rewrite length_expand, Hsum, Nat.eqb_refl. simpl.
  destruct (shuffle_perm (expand weights) s) as (schedule & s' & Hs & Hp).
  exists schedule, s'. split_and!; [done..| | |].
  - by rewrite Hp, length_expand.
  - intros n c Hin. rewrite (occurrences_perm _ _ _ Hp).
    by apply expand_present.
  - intros n Hn. rewrite (occurrences_perm _ _ _ Hp).
    by apply expand_absent.
Qed.
End ScheduleFacts.

Lemma schedule_matches_table_witness :
  ∃ schedule s',
    @Prompts.build_schedule LCG 2000 Prompts.RARITY_WEIGHTS (@seed LCG 42)
      = Ok (schedule, s')
    ∧ schedule ≡ₚ Prompts.expand Prompts.RARITY_WEIGHTS
    ∧ length schedule = 2000
    ∧ (∀ n c, (n, c) ∈ Prompts.RARITY_WEIGHTS → occurrences n schedule = c)
    ∧ (∀ n, n ∉ Prompts.RARITY_WEIGHTS.*1 → occurrences n schedule = 0).
Proof.
  apply (@schedule_matches_table LCG 2000 Prompts.RARITY_WEIGHTS).
  - refine (bool_decide_unpack _ _). vm_compute. exact I.
  - vm_compute. reflexivity.
Defined.

(** ** Optional traits of one agent *)

(** How many optional categories an [extras] dict marks present. *)
Definition present_count (extras : list (string * option string)) : nat :=
  length (filter (λ e, is_Some e.2) extras).

Definition absent_count (extras : list (string * option string)) : nat :=
  length (filter (λ e, e.2 = None) extras).

Section ExtrasFacts.
Context `{G : PRNG}.
Import Prompts.

Lemma filter_all {A} (P : A → Prop) `{∀ x, Decision (P x)} (l : list A) :
  Forall P l → filter P l = l.
Proof.
  induction 1 as [|x l Hx _ IH]; [done|].
  rewrite filter_cons_True by done. by rewrite IH.
Qed.

Lemma filter_none {A} (P : A → Prop) `{∀ x, Decision (P x)} (l : list A) :
  Forall (λ x, ¬ P x) l → filter P l = [].
Proof.
  induction 1 as [|x l Hx _ IH]; [done|].
  by rewrite filter_cons_False.
Qed.

Lemma filter_mem_length {A} `{EqDecision A} (cats pop : list A) :
  NoDup pop → cats ⊆+ pop →
  length (filter (λ c, c ∈ cats) pop) = length cats.
Proof.
  intros Hnd Hsub. destruct (submseteq_Permutation _ _ Hsub) as [k Hk].
  rewrite Hk in Hnd |- *. apply NoDup_app in Hnd as (_ & Hdisj & _).
  rewrite filter_app, length_app.
  rewrite (filter_all _ cats) by (by apply Forall_forall).
  rewrite (filter_none _ k); [simpl; lia|].
  apply Forall_forall. intros x Hk' Hc. by apply (Hdisj x).
Qed.

Lemma pick_loop_spec cats todo s :
  Forall (λ p, p.2 ≠ []) todo →
  ∃ extras s',
    pick_loop cats todo s = Ok (extras, s')
    ∧ extras.*1 = todo.*1
    ∧ present_count extras = length (filter (λ c, c ∈ cats) todo)
    ∧ Forall2 (λ e p, ∀ v, e.2 = Some v → v ∈ p.2) extras todo.
Proof.
  revert s. induction todo as [|[name pool] todo IH]; intros s Hne.
  { exists [], s. by split_and!. }
  apply Forall_cons in Hne as [Hpool Hne]. simpl in Hpool.
  cbn [pick_loop]. unfold present_count in *.
  destruct (decide ((name, pool) ∈ cats)) as [Hin|Hout].
  - rewrite (bool_decide_eq_true_2 _ Hin).
    destruct (choice_ok pool s Hpool) as (c & s1 & Hc & Hcin).
    rewrite (gbind_ok _ _ s (Some c) s1);
      [|by rewrite (gbind_ok _ _ _ _ _ Hc)].
    destruct (IH s1 Hne) as (extras & s' & Hl & Hk & Hp & Hv).
    rewrite (gbind_ok _ _ _ _ _ Hl).
    exists ((name, Some c) :: extras), s'. split_and!; [done| | |].
    + by rewrite !fmap_cons, Hk.
    + rewrite filter_cons_True by (simpl; eauto).
      rewrite filter_cons_True by done. simpl. by rewrite Hp.
    + constructor; [|done]. simpl. by intros v [= <-].
  - rewrite (bool_decide_eq_false_2 _ Hout).
    rewrite (gbind_ok _ _ s None s); [|done].
    destruct (IH s Hne) as (extras & s' & Hl & Hk & Hp & Hv).
    rewrite (gbind_ok _ _ _ _ _ Hl).
    exists ((name, None) :: extras), s'. split_and!; [done| | |].
    + by rewrite !fmap_cons, Hk.
    + rewrite filter_cons_False by (simpl; by intros [? ?]).
      by rewrite filter_cons_False.
    + constructor; [|done]. simpl. by intros v [=].
Qed.

Lemma OPTIONAL_CATEGORIES_NoDup : NoDup OPTIONAL_CATEGORIES.
Proof. refine (bool_decide_unpack _ _). vm_compute. exact I. Qed.

Lemma OPTIONAL_CATEGORIES_nonempty :
  Forall (λ p, p.2 ≠ []) OPTIONAL_CATEGORIES.
Proof. repeat constructor; done. Qed.

Lemma present_absent extras :
  present_count extras + absent_count extras = length extras.
Proof.
  unfold present_count, absent_count.
  induction extras as [|[name [v|]] extras IH]; [done| |].
  - rewrite filter_cons_True by (simpl; eauto).
    rewrite filter_cons_False by done. simpl. lia.
  - rewrite filter_cons_False by (simpl; by intros [? ?]).
    rewrite filter_cons_True by done. simpl. lia.
Qed.

(** Membership of a trait assignment in the pools. *)
Definition opt_in (pool : list string) (v : option string) : Prop :=
  match v with Some x => x ∈ pool | None => True end.

Definition in_pools (t : traits) : Prop :=
  suit_style t ∈ SUIT_STYLES ∧ sunglasses t ∈ SUNGLASSES
  ∧ hair_style t ∈ HAIR_STYLES ∧ hair_color t ∈ HAIR_COLORS
  ∧ skin_tone t ∈ SKIN_TONES ∧ background t ∈ BACKGROUNDS
  ∧ expression t ∈ EXPRESSIONS
  ∧ opt_in ACCESSORIES (accessory t) ∧ opt_in TATTOOS (tattoo t)
  ∧ opt_in PIERCINGS (piercing t) ∧ opt_in FRECKLES (freckles t).

(** The optional values of an assignment, in the order of
    [OPTIONAL_CATEGORIES]. *)
Definition optional_values (t : traits) : list (option string) :=
  [accessory t; tattoo t; piercing t; freckles t].

(** What [generate_agent] does once the seven mandatory values are
    drawn. *)
Definition finish_agent (tid : nat) (k : Z)
    (suit glasses hstyle hcolor skin bg expr : string) : Gen agent :=
  extras ← pick_extras k ;
  let t := {| suit_style := suit; sunglasses := glasses;
              hair_style := hstyle; hair_color := hcolor;
              skin_tone := skin; background := bg; expression := expr;
              accessory := extra "accessory" extras;
              tattoo := extra "tattoo" extras;
              piercing := extra "piercing" extras;
              freckles := extra "freckles" extras |} in
  label ← glift (zlookup k RARITY_LABELS) ;
  mret {| token_id := tid; agent_traits := t; rarity := label;
          num_extras := k; prompt := render_prompt t |}.

Ltac draw_from pool s x s1 Hin :=
  let Hc := fresh "Hc" in
  destruct (choice_ok pool s) as (x & s1 & Hc & Hin); [done|];
  rewrite (gbind_ok _ _ _ _ _ Hc); clear Hc; cbv beta.

Lemma generate_agent_mandatory tid k s :
  ∃ suit glasses hstyle hcolor skin bg expr s7,
    suit ∈ SUIT_STYLES ∧ glasses ∈ SUNGLASSES ∧ hstyle ∈ HAIR_STYLES
    ∧ hcolor ∈ HAIR_COLORS ∧ skin ∈ SKIN_TONES ∧ bg ∈ BACKGROUNDS
    ∧ expr ∈ EXPRESSIONS
    ∧ generate_agent tid k s
      = finish_agent tid k suit glasses hstyle hcolor skin bg expr s7.
Proof.
  unfold generate_agent.
  draw_from SUIT_STYLES s x1 s1 H1. draw_from SUNGLASSES s1 x2 s2 H2.
  draw_from HAIR_STYLES s2 x3 s3 H3. draw_from HAIR_COLORS s3 x4 s4 H4.
  draw_from SKIN_TONES s4 x5 s5 H5. draw_from BACKGROUNDS s5 x6 s6 H6.
  draw_from EXPRESSIONS s6 x7 s7 H7.
  exists x1, x2, x3, x4, x5, x6, x7, s7. by split_and!.
Qed.

Lemma pick_extras_invalid k s :
  (k < 0 ∨ 4 < k)%Z → pick_extras k s = Raise ValueError.
Proof.
  intros Hk. unfold pick_extras. apply gbind_raise.
  apply sample_invalid. simpl. lia.
Qed.

Lemma pick_extras_valid k s :
  (0 ≤ k ≤ 4)%Z →
  ∃ extras s',
    pick_extras k s = Ok (extras, s')
    ∧ extras.*1 = ["accessory"; "tattoo"; "piercing"; "freckles"]
    ∧ present_count extras = Z.to_nat k
    ∧ absent_count extras = 4 - Z.to_nat k
    ∧ Forall2 (λ e p, ∀ v, e.2 = Some v → v ∈ p.2)
              extras OPTIONAL_CATEGORIES.
Proof.
  intros Hk. unfold pick_extras.
  destruct (sample_spec OPTIONAL_CATEGORIES k s) as (cats & s1 & Hs & Hl & Hsub).
  { simpl. lia. }
  rewrite (gbind_ok _ _ _ _ _ Hs).
  destruct (pick_loop_spec cats OPTIONAL_CATEGORIES s1
              OPTIONAL_CATEGORIES_nonempty) as (extras & s' & Hp & Hn & Hc & Hv).
  exists extras, s'.
  assert (present_count extras = Z.to_nat k) as Hpres.
  { rewrite Hc, filter_mem_length; [done| |done].
    apply OPTIONAL_CATEGORIES_NoDup. }
  split_and!; [done..| |done].
  pose proof (present_absent extras) as Hsum.
  assert (length extras = 4) as Hlen.
  { by rewrite <- (length_fmap fst), Hn. }
  lia.
Qed.

Lemma rarity_label_valid k :
  (0 ≤ k ≤ 4)%Z → ∃ label, zlookup k RARITY_LABELS = Ok label.
Proof.
  intros Hk.
  assert (k = 0 ∨ k = 1 ∨ k = 2 ∨ k = 3 ∨ k = 4)%Z as Hc by lia.
  destruct Hc as [->|[->|[->|[->| ->]]]]; simpl; eauto.
Qed.

(** A valid extras-count always yields an agent: drawn from the pools,
    with exactly that many optional traits. *)
Lemma generate_agent_valid tid k s :
  (0 ≤ k ≤ 4)%Z →
  ∃ a s',
    generate_agent tid k s = Ok (a, s')
    ∧ token_id a = tid ∧ num_extras a = k
    ∧ prompt a = render_prompt (agent_traits a)
    ∧ in_pools (agent_traits a)
    ∧ length (filter is_Some (optional_values (agent_traits a)))
      = Z.to_nat k.
Proof.
  intros Hk.
  destruct (generate_agent_mandatory tid k s)
    as (x1 & x2 & x3 & x4 & x5 & x6 & x7 & s7
        & H1 & H2 & H3 & H4 & H5 & H6 & H7 & ->).
  unfold finish_agent.
  destruct (pick_extras_valid k s7 Hk)
    as (extras & s8 & Hp & Hn & Hc & _ & Hv).
  rewrite (gbind_ok _ _ _ _ _ Hp). cbv beta zeta.
  destruct (rarity_label_valid k Hk) as [label Hlab].
  rewrite (gbind_ok _ _ s8 label s8); [|by unfold glift; rewrite Hlab].
  eexists _, s8. split; [reflexivity|]. simpl.
  destruct extras as [|[n1 v1] [|[n2 v2] [|[n3 v3] [|[n4 v4] [|? ?]]]]];
    try discriminate Hn.
  injection Hn as -> -> -> ->.
  apply Forall2_cons in Hv as [Hv1 Hv]. apply Forall2_cons in Hv as [Hv2 Hv].
  apply Forall2_cons in Hv as [Hv3 Hv]. apply Forall2_cons in Hv as [Hv4 _].
  simpl in Hv1, Hv2, Hv3, Hv4.
  split_and!; [done..| |].
  - unfold in_pools, extra. simpl. split_and!; try done.
    + destruct v1; simpl; [by apply Hv1|done].
    + destruct v2; simpl; [by apply Hv2|done].
    + destruct v3; simpl; [by apply Hv3|done].
    + destruct v4; simpl; [by apply Hv4|done].
  - rewrite <- Hc. unfold optional_values, extra, present_count. simpl.
    by destruct v1, v2, v3, v4.
Qed.

(** C10.  An extras-count below 0 or above 4 makes the sampling step
    raise [ValueError], in [pick_extras] and so in [generate_agent],
    which then produces no agent.  An extras-count from 0 to 4 yields a
    dict over the four optional categories that marks exactly that many
    of them present, each with a value of its own pool, and the
    remaining ones [None]. *)
Theorem pick_extras_range (k : Z) (s : rng) :
  ((k < 0 ∨ 4 < k)%Z →
     pick_extras k s = Raise ValueError
     ∧ ∀ tid, generate_agent tid k s = Raise ValueError)
  ∧ ((0 ≤ k ≤ 4)%Z →
     ∃ extras s',
       pick_extras k s = Ok (extras, s')
       ∧ extras.*1 = ["accessory"; "tattoo"; "piercing"; "freckles"]
       ∧ present_count extras = Z.to_nat k
       ∧ absent_count extras = 4 - Z.to_nat k
       ∧ Forall2 (λ e p, ∀ v, e.2 = Some v → v ∈ p.2)
                 extras OPTIONAL_CATEGORIES).
Proof.
  split.
  - intros Hk. split; [by apply pick_extras_invalid|]. intros tid.
    destruct (generate_agent_mandatory tid k s)
      as (x1 & x2 & x3 & x4 & x5 & x6 & x7 & s7 & _ & _ & _ & _ & _ & _ & _ & ->).
    unfold finish_agent. apply gbind_raise. by apply pick_extras_invalid.
  - apply pick_extras_valid.
Qed.
End ExtrasFacts.

(** ** Uniqueness of the combinations *)

Section UniquenessFacts.
Context `{G : PRNG}.
Import Prompts.

Definition keys_of (l : list agent) : list key :=
  map (λ a, combo_key (agent_traits a)) l.

(** What holds of the collection between two items: the remembered keys
    are those of the agents kept so far, and they are distinct. *)
Definition distinct (c : collection) : Prop :=
  NoDup (keys_of (agents c))
  ∧ seen_combos c = list_to_set (keys_of (agents c)).

Lemma combo_key_inj t1 t2 : combo_key t1 = combo_key t2 → t1 = t2.
Proof. destruct t1, t2. unfold combo_key. simpl. by intros [= -> -> -> -> -> -> -> -> -> -> ->]. Qed.

Lemma distinct_empty : distinct empty_collection.
Proof. split; [constructor|done]. Qed.

Lemma unique_agent_fresh left tid k attempts seen s a n s' :
  unique_agent left tid k attempts seen s = Ok ((Some a, n), s') →
  (combo_key (agent_traits a) ∉ seen)
  ∧ token_id a = tid ∧ num_extras a = k
  ∧ attempts < n ∧ n ≤ attempts + left.
Proof.
  revert attempts s. induction left as [|left IH]; intros attempts s; [done|].
  cbn [unique_agent]. intros (a1 & s1 & Hg & Hrest)%gbind_inv.
  case_bool_decide as Hin.
  - apply IH in Hrest as (? & ? & ? & ? & ?). split_and!; [done..|lia|lia].
  - injection Hrest as <- <- <-. split_and!; [done| | |lia|lia].
    + destruct (generate_agent_mandatory tid k s)
        as (x1 & x2 & x3 & x4 & x5 & x6 & x7 & s7 & _ & _ & _ & _ & _ & _ & _ & Hfin).
      rewrite Hfin in Hg. unfold finish_agent in Hg.
      apply gbind_inv in Hg as (? & ? & _ & Hg). cbv beta zeta in Hg.
      apply gbind_inv in Hg as (? & ? & _ & Hg). by injection Hg as <- _.
    + destruct (generate_agent_mandatory tid k s)
        as (x1 & x2 & x3 & x4 & x5 & x6 & x7 & s7 & _ & _ & _ & _ & _ & _ & _ & Hfin).
      rewrite Hfin in Hg. unfold finish_agent in Hg.
      apply gbind_inv in Hg as (? & ? & _ & Hg). cbv beta zeta in Hg.
      apply gbind_inv in Hg as (? & ? & _ & Hg). by injection Hg as <- _.
Qed.

Lemma distinct_add c a n :
  distinct c → combo_key (agent_traits a) ∉ seen_combos c →
  distinct {| agents := agents c ++ [a];
              seen_combos := {[ combo_key (agent_traits a) ]} ∪ seen_combos c;
              attempts_made := n |}.
Proof.
  intros [Hnd Hseen] Hfresh. unfold distinct, keys_of in *. simpl.
  rewrite map_app. simpl. split.
  - apply NoDup_app. split_and!; [done| |apply NoDup_singleton].
    intros x Hx ->%list_elem_of_singleton. apply Hfresh.
    rewrite Hseen. by apply elem_of_list_to_set.
  - rewrite list_to_set_snoc_L, Hseen. apply (comm_L (∪)).
Qed.

Lemma generate_all_distinct schedule i c s c' s' :
  generate_all schedule i c s = Ok (Some c', s') →
  distinct c →
  distinct c'
  ∧ length (agents c') = length (agents c) + length schedule
  ∧ map num_extras (agents c') = map num_extras (agents c) ++ schedule
  ∧ map token_id (agents c')
    = map token_id (agents c) ++ seq (i + 1) (length schedule).
Proof.
  revert i c s. induction schedule as [|k rest IH]; intros i c s.
  { intros [= <- <-] Hd. simpl. by rewrite !app_nil_r, Nat.add_0_r. }
  cbn [generate_all]. intros ([found n] & s1 & Hu & Hrest)%gbind_inv Hd.
  destruct found as [a|]; [|done].
  apply unique_agent_fresh in Hu as (Hfresh & Htid & Hk & _).
  apply IH in Hrest as (Hd' & Hlen & Hex & Hids);
    [|by apply distinct_add].
  cbn [agents] in Hlen, Hex, Hids. rewrite length_app in Hlen.
  rewrite map_app in Hex, Hids. cbn [map length] in Hlen, Hex, Hids.
  rewrite Htid, <- (assoc_L (++)) in Hids. rewrite Hk, <- (assoc_L (++)) in Hex.
  split_and!; [done|cbn [length]; lia|done|].
  rewrite Hids. cbn [length seq app]. by replace (S i + 1) with (S (i + 1)) by lia.
Qed.

Lemma distinct_traits c :
  distinct c →
  ∀ i j a b, agents c !! i = Some a → agents c !! j = Some b →
             agent_traits a = agent_traits b → i = j.
Proof.
  intros [Hnd _] i j a b Hi Hj Heq.
  apply (NoDup_lookup _ i j (combo_key (agent_traits a)) Hnd);
    unfold keys_of.
  - change (map ?f ?l) with (f <$> l). by rewrite list_lookup_fmap, Hi.
  - change (map ?f ?l) with (f <$> l). by rewrite list_lookup_fmap, Hj, Heq.
Qed.

Lemma distinct_size c :
  distinct c → size (seen_combos c) = length (agents c).
Proof.
  intros [Hnd ->]. rewrite size_list_to_set by done.
  unfold keys_of. by rewrite length_map.
Qed.

Lemma build_schedule_length total weights s schedule s' :
  build_schedule total weights s = Ok (schedule, s') →
  length schedule = total ∧ schedule ≡ₚ expand weights.
Proof.
  unfold build_schedule.
  destruct (Nat.eqb_spec (length (expand weights)) total) as [Hlen|]; [|done].
  simpl. intros Hs.
  destruct (shuffle_perm (expand weights) s) as (x & s1 & Hx & Hp).
  rewrite Hx in Hs. injection Hs as <- <-.
  split; [|done]. by rewrite Hp.
Qed.

(** C1.  In every run of the generator that completes, for any seed,
    collection size and weight table (the script runs it with 42, 2000
    and [RARITY_WEIGHTS]): the keys of the agents are pairwise distinct,
    no two agents at different positions have the same trait assignment,
    the set of seen combinations holds exactly the keys of the agents and
    has as many elements as there are agents, and there is one agent per
    entry of the schedule, that is, as many as the collection size. *)
Theorem unique_combinations dumps sd total weights fs schedule c fs' :
  run dumps sd total weights fs = Ok (schedule, Some c, fs') →
  NoDup (keys_of (agents c))
  ∧ (∀ i j a b, agents c !! i = Some a → agents c !! j = Some b →
                agent_traits a = agent_traits b → i = j)
  ∧ seen_combos c = list_to_set (keys_of (agents c))
  ∧ size (seen_combos c) = length (agents c)
  ∧ length (agents c) = total
  ∧ map num_extras (agents c) = schedule.
Proof.
  unfold run. intros Hrun.
  destruct (generate_collection total weights (seed sd))
    as [[[sch [c0|]] s']|e] eqn:Hgen; simplify_eq.
  unfold generate_collection in Hgen.
  apply gbind_inv in Hgen as (sch & s1 & Hsch & Hgen).
  apply gbind_inv in Hgen as (oc & s2 & Hall & Hret).
  injection Hret as -> -> <-.
  apply build_schedule_length in Hsch as [Htotal _].
  apply generate_all_distinct in Hall as (Hd & Hlen & Hex & _);
    [|apply distinct_empty].
  split_and!; [apply Hd|by apply distinct_traits|apply Hd
               |by apply distinct_size|by rewrite Hlen, Htotal|done].
Qed.
End UniquenessFacts.


(** Whether a run went through to the end. *)
Definition completed {A B C} (r : result (A * option B * C)) : bool :=
  match r with Ok (_, Some _, _) => true | _ => false end.

Lemma unique_combinations_witness :
  ∃ schedule c fs',
    @Prompts.run LCG (λ _, "") 42 3 [(0%Z, 1); (2%Z, 1); (4%Z, 1)] ∅
      = Ok (schedule, Some c, fs')
    ∧ NoDup (keys_of (Prompts.agents c))
    ∧ size (Prompts.seen_combos c) = length (Prompts.agents c)
    ∧ length (Prompts.agents c) = 3.
Proof.
  assert (completed
            (@Prompts.run LCG (λ _, "") 42 3 [(0%Z, 1); (2%Z, 1); (4%Z, 1)] ∅)
          = true) as Hc by (vm_compute; reflexivity).
  destruct (@Prompts.run LCG (λ _, "") 42 3 [(0%Z, 1); (2%Z, 1); (4%Z, 1)] ∅)
    as [[[schedule [c|]] fs']|e] eqn:Hrun; try discriminate Hc.
  exists schedule, c, fs'. split; [reflexivity|].
  destruct (@unique_combinations LCG _ _ _ _ _ _ _ _ Hrun)
    as (Hnd & _ & _ & Hsize & Hlen & _).
  split_and!; assumption.
Defined.

(** ** Reproducibility *)

(** The paths [main] writes for a list of agents. *)
Definition written_paths (l : list Prompts.agent) : list string :=
  "output/full_collection.json" :: "output/prompts_only.txt"
  :: map Prompts.metadata_path l.

Section DeterminismFacts.
Import Prompts.
Variable dumps : json → string.

(** Two file systems hold the same content at every path of [S]. *)
Definition agree_on (S : string → Prop) (m1 m2 : gmap string string) : Prop :=
  ∀ p, S p → m1 !! p = m2 !! p ∧ is_Some (m1 !! p).

Lemma agree_on_insert S m1 m2 q v :
  agree_on S m1 m2 →
  agree_on (λ p, S p ∨ p = q) (<[q:=v]> m1) (<[q:=v]> m2).
Proof.
  intros Ha p Hp. rewrite !lookup_insert. case_decide as Hq; [by eauto|].
  destruct Hp as [Hp|Hp]; [by apply Ha|by subst].
Qed.

Lemma metadata_agree l S m1 m2 :
  agree_on S m1 m2 →
  agree_on (λ p, S p ∨ p ∈ map metadata_path l)
    (foldl (λ fs a, <[metadata_path a := dumps (build_opensea_metadata a)]> fs) m1 l)
    (foldl (λ fs a, <[metadata_path a := dumps (build_opensea_metadata a)]> fs) m2 l).
Proof.
  revert S m1 m2. induction l as [|a l IH]; intros S m1 m2 Ha; simpl.
  { intros p [Hp|Hp]; [by apply Ha|by apply elem_of_nil in Hp]. }
  intros p Hp. eapply IH; [by apply agree_on_insert|].
  destruct Hp as [Hp|Hp]; [by left; left|].
  apply elem_of_cons in Hp as [->|Hp]; [left; by right|by right].
Qed.

Lemma write_outputs_agree l fs1 fs2 :
  agree_on (λ p, p ∈ written_paths l)
    (write_outputs dumps l fs1) (write_outputs dumps l fs2).
Proof.
  unfold write_outputs. intros p Hp.
  eapply (metadata_agree l
            (λ p, (False ∨ p = "output/full_collection.json")
                  ∨ p = "output/prompts_only.txt")).
  - apply agree_on_insert, (agree_on_insert (λ _, False)). by intros q [].
  - unfold written_paths in Hp.
    apply elem_of_cons in Hp as [->|Hp]; [left; left; by right|].
    apply elem_of_cons in Hp as [->|Hp]; [left; by right|by right].
Qed.

(** Two runs, each with a generator of its own.  [R] relates the states
    the two generators go through. *)
Context (G1 G2 : PRNG).
Variable R : @rng G1 → @rng G2 → Prop.

(** Related states yield the same number and related states again: the
    two generators deliver the same stream. *)
Definition same_stream : Prop :=
  ∀ n s1 s2, R s1 s2 →
    (@randbelow G1 n s1).1 = (@randbelow G2 n s2).1
    ∧ R (@randbelow G1 n s1).2 (@randbelow G2 n s2).2.

(** Two computations that, from related states, end alike: with the same
    value and related states, or with the same exception. *)
Definition alike {A} (m1 : @Gen G1 A) (m2 : @Gen G2 A) : Prop :=
  ∀ s1 s2, R s1 s2 →
    match m1 s1, m2 s2 with
    | Ok (a1, s1'), Ok (a2, s2') => a1 = a2 ∧ R s1' s2'
    | Raise e1, Raise e2 => e1 = e2
    | _, _ => False
    end.

Context (Hstream : same_stream).

Lemma alike_ret {A} (a : A) : alike (mret a) (mret a).
Proof. by intros s1 s2 HR. Qed.

Lemma alike_raise {A} e : alike (@graise G1 A e) (@graise G2 A e).
Proof. by intros s1 s2 HR. Qed.

Lemma alike_lift {A} (r : result A) : alike (@glift G1 A r) (@glift G2 A r).
Proof. intros s1 s2 HR. unfold glift. by destruct r. Qed.

Lemma alike_bind {A B} (m1 : @Gen G1 A) (m2 : @Gen G2 A)
    (f1 : A → @Gen G1 B) (f2 : A → @Gen G2 B) :
  alike m1 m2 → (∀ a, alike (f1 a) (f2 a)) → alike (m1 ≫= f1) (m2 ≫= f2).
Proof.
  intros Hm Hf s1 s2 HR. unfold mbind, gen_bind, gbind.
  specialize (Hm s1 s2 HR).
  destruct (m1 s1) as [[a1 s1']|e1], (m2 s2) as [[a2 s2']|e2]; try done.
  destruct Hm as [<- HR']. by apply Hf.
Qed.

Lemma alike_draw n : alike (@draw G1 n) (@draw G2 n).
Proof.
  intros s1 s2 HR. unfold draw. destruct (Hstream n s1 s2 HR) as [Hn HR'].
  destruct (@randbelow G1 n s1) as [a1 s1'], (@randbelow G2 n s2) as [a2 s2'].
  by simpl in *.
Qed.

Lemma alike_choice {A} (pool : list A) :
  alike (@choice G1 A pool) (@choice G2 A pool).
Proof.
  unfold choice. destruct (Nat.eqb (length pool) 0); [apply alike_raise|].
  apply alike_bind; [apply alike_draw|intros j; apply alike_lift].
Qed.

Lemma alike_sample_loop {A} todo i n (pool : list A) :
  alike (@sample_loop G1 A todo i n pool) (@sample_loop G2 A todo i n pool).
Proof.
  revert i pool. induction todo as [|todo IH]; intros i pool;
    [apply alike_ret|].
  cbn [sample_loop].
  apply alike_bind; [apply alike_draw|intros j].
  apply alike_bind; [apply alike_lift|intros x].
  apply alike_bind; [apply alike_lift|intros y].
  apply alike_bind; [apply IH|intros rest]. apply alike_ret.
Qed.

Lemma alike_sample {A} (population : list A) k :
  alike (@sample G1 A population k) (@sample G2 A population k).
Proof.
  unfold sample. cbv zeta. destruct (negb _); [apply alike_raise|].
  apply alike_sample_loop.
Qed.

Lemma alike_shuffle {A} (x : list A) :
  alike (@shuffle G1 A x) (@shuffle G2 A x).
Proof.
  unfold shuffle. generalize (length x - 1). intros i. revert x.
  induction i as [|i IH]; intros x; [apply alike_ret|].
  cbn [shuffle_loop].
  apply alike_bind; [apply alike_draw|intros j].
  apply alike_bind; [apply alike_lift|intros x']. apply IH.
Qed.

Lemma alike_pick_loop cats todo :
  alike (@pick_loop G1 cats todo) (@pick_loop G2 cats todo).
Proof.
  induction todo as [|[name pool] todo IH]; [apply alike_ret|].
  cbn [pick_loop]. apply alike_bind.
  - destruct (bool_decide _); [|apply alike_ret].
    apply alike_bind; [apply alike_choice|intros c; apply alike_ret].
  - intros v. apply alike_bind; [apply IH|intros rest; apply alike_ret].
Qed.

Lemma alike_pick_extras k : alike (@pick_extras G1 k) (@pick_extras G2 k).
Proof.
  unfold pick_extras.
  apply alike_bind; [apply alike_sample|intros cats; apply alike_pick_loop].
Qed.

Lemma alike_generate_agent tid k :
  alike (@generate_agent G1 tid k) (@generate_agent G2 tid k).
Proof.
  unfold generate_agent.
  do 7 (apply alike_bind; [apply alike_choice|intros ?]).
  apply alike_bind; [apply alike_pick_extras|intros extras]. cbv zeta.
  apply alike_bind; [apply alike_lift|intros label]. apply alike_ret.
Qed.

Lemma alike_build_schedule total weights :
  alike (@build_schedule G1 total weights) (@build_schedule G2 total weights).
Proof.
  unfold build_schedule. cbv zeta.
  destruct (negb _); [apply alike_raise|apply alike_shuffle].
Qed.

Lemma alike_unique_agent left tid k attempts seen :
  alike (@unique_agent G1 left tid k attempts seen)
        (@unique_agent G2 left tid k attempts seen).
Proof.
  revert attempts. induction left as [|left IH]; intros attempts;
    [apply alike_ret|].
  cbn [unique_agent]. cbv zeta.
  apply alike_bind; [apply alike_generate_agent|intros a].
  destruct (bool_decide _); [apply IH|apply alike_ret].
Qed.

Lemma alike_generate_all schedule i c :
  alike (@generate_all G1 schedule i c) (@generate_all G2 schedule i c).
Proof.
  revert i c. induction schedule as [|k rest IH]; intros i c;
    [apply alike_ret|].
  cbn [generate_all].
  apply alike_bind; [apply alike_unique_agent|intros [[a|] n]];
    [apply IH|apply alike_ret].
Qed.

Lemma alike_generate_collection total weights :
  alike (@generate_collection G1 total weights)
        (@generate_collection G2 total weights).
Proof.
  unfold generate_collection.
  apply alike_bind; [apply alike_build_schedule|intros schedule].
  apply alike_bind; [apply alike_generate_all|intros c]. apply alike_ret.
Qed.

End DeterminismFacts.

(** A generator that also counts its draws: the stream of [LCG], from
    states of another shape. *)
Definition counting_randbelow (n : nat) (s : N * nat) : nat * (N * nat) :=
  ((lcg_randbelow n s.1).1, ((lcg_randbelow n s.1).2, S s.2)).

Lemma counting_randbelow_lt n s : 0 < n → (counting_randbelow n s).1 < n.
Proof. intros Hn. apply (lcg_randbelow_lt n s.1 Hn). Qed.

Definition CountingLCG : PRNG :=
  {| rng := N * nat; seed := λ z, (lcg_next (Z.to_N z), 0);
     randbelow := counting_randbelow;
     randbelow_lt := counting_randbelow_lt |}.

Lemma counting_same_stream :
  same_stream LCG CountingLCG (λ s1 s2, s1 = s2.1).
Proof. intros n s1 [s2 k] ->. by split. Defined.


(** ** Text of the prompt *)

(** [v] occurs in [s] as a contiguous piece. *)
Definition infix (v s : string) : Prop :=
  ∃ pre post, s = pre +:+ v +:+ post.

Fixpoint is_prefix (v s : string) : bool :=
  match v, s with
  | EmptyString, _ => true
  | String a v', String b s' => Ascii.eqb a b && is_prefix v' s'
  | String _ _, EmptyString => false
  end.

Fixpoint has_infix (v s : string) : bool :=
  is_prefix v s
  || match s with
     | EmptyString => false
     | String _ s' => has_infix v s'
     end.

Fixpoint mem_char (c : Ascii.ascii) (s : string) : bool :=
  match s with
  | EmptyString => false
  | String a s' => Ascii.eqb c a || mem_char c s'
  end.

(** The text after the first fragment of a joined list. *)
Fixpoint tail_text (l : list string) : string :=
  match l with
  | [] => ""
  | y :: l' => ", " +:+ y +:+ tail_text l'
  end.

Section TextFacts.
Local Arguments String.append !_ _ /.

Lemma append_nil_r s : s +:+ "" = s.
Proof. induction s as [|a s IH]; simpl; congruence. Qed.

Lemma append_assoc s1 s2 s3 : (s1 +:+ s2) +:+ s3 = s1 +:+ s2 +:+ s3.
Proof. induction s1 as [|a s1 IH]; simpl; congruence. Qed.

Lemma is_prefix_spec v s : is_prefix v s = true ↔ ∃ post, s = v +:+ post.
Proof.
  revert s. induction v as [|a v IH]; intros s; simpl.
  { split; [by exists s|done]. }
  destruct s as [|b s].
  { split; [done|by intros [post [=]]]. }
  rewrite andb_true_iff, Ascii.eqb_eq, IH. split.
  - intros [-> [post ->]]. by exists post.
  - intros [post [= -> ->]]. eauto.
Qed.

Lemma has_infix_spec v s : has_infix v s = true ↔ infix v s.
Proof.
  split.
  - induction s as [|b s IH]; simpl; rewrite orb_true_iff.
    + intros [Hp|[=]]. apply is_prefix_spec in Hp as [post ->].
      by exists "", post.
    + intros [Hp|Hi].
      * apply is_prefix_spec in Hp as [post ->]. by exists "", post.
      * destruct (IH Hi) as (pre & post & ->). by exists (String b pre), post.
  - intros (pre & post & ->). induction pre as [|a pre IH]; simpl.
    + destruct (v +:+ post) eqn:E; simpl; rewrite orb_true_iff; left;
        apply is_prefix_spec; exists post; by rewrite E.
    + rewrite orb_true_iff. by right.
Qed.

Lemma infix_cons a v s : infix v s → infix v (String a s).
Proof. intros (pre & post & ->). by exists (String a pre), post. Qed.

Lemma infix_empty s : infix "" s.
Proof. by exists "", s. Qed.

Lemma prefix_before_char c v post a b :
  mem_char c v = false → v +:+ post = a +:+ String c b →
  ∃ post', a = v +:+ post'.
Proof.
  revert a. induction v as [|x v IH]; intros a Hc Heq; simpl in *.
  { by exists a. }
  apply orb_false_iff in Hc as [Hx Hc].
  destruct a as [|y a]; simpl in Heq; injection Heq as -> Heq.
  - by rewrite Ascii.eqb_refl in Hx.
  - destruct (IH a Hc Heq) as [post' ->]. by exists post'.
Qed.

(** A piece without a given character lies on one side of any occurrence
    of that character. *)
Lemma infix_split c v a b :
  mem_char c v = false → infix v (a +:+ String c b) →
  infix v a ∨ infix v b.
Proof.
  intros Hc (pre & post & Heq). revert pre Heq.
  induction a as [|x a IH]; intros pre Heq; simpl in Heq.
  - destruct pre as [|y pre]; simpl in Heq.
    + destruct v as [|z v]; [left; apply infix_empty|].
      simpl in Heq, Hc. injection Heq as -> _.
      by rewrite Ascii.eqb_refl in Hc.
    + injection Heq as _ ->. right. by exists pre, post.
  - destruct pre as [|y pre]; simpl in Heq.
    + destruct (prefix_before_char c v post (String x a) b Hc) as [post' ->];
        [done|]. left. by exists "", post'.
    + injection Heq as _ Heq. destruct (IH pre Heq) as [Hl|Hr]; [|by right].
      left. by apply infix_cons.
Qed.

Lemma concat_tail_text x l : String.concat ", " (x :: l) = x +:+ tail_text l.
Proof.
  revert x. induction l as [|y l IH]; intros x.
  { simpl. by rewrite append_nil_r. }
  change (String.concat ", " (x :: y :: l))
    with (x +:+ ", " +:+ String.concat ", " (y :: l)).
  by rewrite IH.
Qed.

(** A piece without a comma that occurs in a joined list occurs in the
    first fragment, or in a later fragment preceded by its blank. *)
Lemma infix_joined v x l :
  mem_char ","%char v = false → infix v (String.concat ", " (x :: l)) →
  infix v x ∨ ∃ y, y ∈ l ∧ infix v (" " +:+ y).
Proof.
  intros Hc. rewrite concat_tail_text. revert x.
  induction l as [|y l IH]; intros x; cbn [tail_text].
  { rewrite append_nil_r. by left. }
  change (x +:+ ", " +:+ y +:+ tail_text l)
    with (x +:+ String ","%char ((" " +:+ y) +:+ tail_text l)).
  intros [Hx|Hr]%infix_split; [by left| |done]. right.
  destruct (IH _ Hr) as [Hy|(z & Hz & Hi)].
  - exists y. split; [by left|done].
  - exists z. split; [by right|done].
Qed.
End TextFacts.

(** ** Absent traits in the prompt *)

Definition fixed_fragments : list string :=
  [ "Chibi agent, oversized head, large glossy black eyes with white highlights";
    "chest-up portrait";
    "kawaii digital art, NFT collectible card style" ].

Definition hair_fragments : list string :=
  hc ← Prompts.HAIR_COLORS ; hs ← Prompts.HAIR_STYLES ; [hc +:+ " " +:+ hs].

Definition background_fragments : list string :=
  (λ bg, bg +:+ " background") <$> Prompts.BACKGROUNDS.

(** Every fragment that the mandatory traits and the fixed clauses can put
    into a prompt. *)
Definition mandatory_fragments : list string :=
  fixed_fragments ++ hair_fragments ++ Prompts.SKIN_TONES
  ++ Prompts.EXPRESSIONS ++ Prompts.SUIT_STYLES ++ Prompts.SUNGLASSES
  ++ background_fragments.

Definition optional_vocabulary : list string :=
  Prompts.ACCESSORIES ++ Prompts.TATTOOS ++ Prompts.PIERCINGS
  ++ Prompts.FRECKLES.

(** No optional value occurs in a mandatory fragment, alone or after the
    blank of the separator. *)
Definition fragments_clean : bool :=
  forallb (λ f, forallb (λ v, negb (has_infix v f)
                              && negb (has_infix v (" " +:+ f)))
                        optional_vocabulary)
          mandatory_fragments.

(** No optional value holds a comma or is empty. *)
Definition vocabulary_plain : bool :=
  forallb (λ v, negb (mem_char ","%char v) && negb (String.eqb v ""))
          optional_vocabulary.

Definition fragments_nonempty : bool :=
  forallb (λ f, negb (String.eqb f "")) mandatory_fragments.

Section PromptFacts.
Import Prompts.

Lemma fragments_clean_true : fragments_clean = true.
Proof. vm_compute. reflexivity. Qed.

Lemma vocabulary_plain_true : vocabulary_plain = true.
Proof. vm_compute. reflexivity. Qed.

Lemma fragments_nonempty_true : fragments_nonempty = true.
Proof. vm_compute. reflexivity. Qed.

Lemma vocabulary_NoDup : NoDup optional_vocabulary.
Proof. refine (bool_decide_unpack _ _). vm_compute. exact I. Qed.

Lemma forallb_elem {A} (f : A → bool) (l : list A) x :
  forallb f l = true → x ∈ l → f x = true.
Proof.
  intros Hf Hx. apply list_elem_of_In in Hx.
  by apply (proj1 (forallb_forall f l) Hf).
Qed.

Lemma vocabulary_not_in_fragment f v :
  f ∈ mandatory_fragments → v ∈ optional_vocabulary →
  ¬ infix v f ∧ ¬ infix v (" " +:+ f).
Proof.
  intros Hf Hv.
  pose proof (forallb_elem _ _ _
                (forallb_elem _ _ _ fragments_clean_true Hf) Hv) as Hfv.
  cbv beta in Hfv. apply andb_prop in Hfv as [H1 H2].
  apply negb_true_iff in H1, H2.
  split; intros Hi%has_infix_spec; congruence.
Qed.

Lemma vocabulary_no_comma v :
  v ∈ optional_vocabulary → mem_char ","%char v = false ∧ v ≠ "".
Proof.
  intros Hv.
  pose proof (forallb_elem _ _ _ vocabulary_plain_true Hv) as Hc.
  cbv beta in Hc. apply andb_prop in Hc as [H1 H2].
  apply negb_true_iff in H1, H2.
  split; [exact H1|]. intros ->. by rewrite String.eqb_refl in H2.
Qed.

Lemma mandatory_fragment_nonempty f : f ∈ mandatory_fragments → f ≠ "".
Proof.
  intros Hin ->.
  pose proof (forallb_elem _ _ _ fragments_nonempty_true Hin) as Hc.
  cbv beta in Hc. by rewrite String.eqb_refl in Hc.
Qed.

Lemma optional_part_elem v p : p ∈ optional_part v → v = Some p ∧ p ≠ "".
Proof.
  destruct v as [s|]; simpl; [|by intros ?%elem_of_nil].
  destruct (String.eqb_spec s ""); simpl; [by intros ?%elem_of_nil|].
  by intros ->%list_elem_of_singleton.
Qed.

Lemma length_optional_part v :
  length (optional_part v) = if truthy v then 1 else 0.
Proof. destruct v as [s|]; simpl; [|done]. by destruct (String.eqb s ""). Qed.

Lemma hair_fragment_elem hc hs :
  hc ∈ HAIR_COLORS → hs ∈ HAIR_STYLES → hc +:+ " " +:+ hs ∈ hair_fragments.
Proof.
  intros Hc Hs. unfold hair_fragments. apply list_elem_of_bind.
  exists hc. split; [|done]. apply list_elem_of_bind.
  exists hs. split; [|done]. by apply list_elem_of_singleton.
Qed.

Ltac in_fragments :=
  match goal with
  | H : ?p ∈ ?l |- ?p ∈ ?l => exact H
  | |- _ ∈ _ ++ _ =>
      apply elem_of_app; first [left; in_fragments | right; in_fragments]
  end.

(** The mandatory part of the fragments of a prompt. *)
Lemma mandatory_parts_elem t :
  in_pools t →
  Forall (λ p, p ∈ mandatory_fragments)
    [ "Chibi agent, oversized head, large glossy black eyes with white highlights";
      hair_color t +:+ " " +:+ hair_style t; skin_tone t;
      expression t; suit_style t; sunglasses t;
      "chest-up portrait"; background t +:+ " background";
      "kawaii digital art, NFT collectible card style" ].
Proof.
  intros (Hsuit & Hgl & Hhs & Hhc & Hsk & Hbg & Hex & _).
  pose proof (hair_fragment_elem _ _ Hhc Hhs) as Hhair.
  assert (background t +:+ " background" ∈ background_fragments) as Hbgf.
  { by apply (list_elem_of_fmap_2 (λ bg, bg +:+ " background")). }
  unfold mandatory_fragments.
  repeat (apply Forall_cons; split); try in_fragments;
    try apply Forall_nil_2;
    apply elem_of_app; left; apply list_elem_of_In; simpl;
    repeat first [left; reflexivity | right].
Qed.

Lemma infix_refl v : infix v v.
Proof. exists "", "". simpl. by rewrite append_nil_r. Qed.

Lemma vocabulary_not_fragment v :
  v ∈ optional_vocabulary → v ∉ mandatory_fragments.
Proof.
  intros Hv Hf. destruct (vocabulary_not_in_fragment v v Hf Hv) as [Hn _].
  apply Hn, infix_refl.
Qed.

(** Where a fragment of a prompt comes from. *)
Lemma parts_elem t p :
  in_pools t → p ∈ prompt_parts t →
  p ∈ mandatory_fragments
  ∨ (p ≠ "" ∧ (accessory t = Some p ∨ tattoo t = Some p
               ∨ piercing t = Some p ∨ freckles t = Some p)).
Proof.
  intros Hpools Hin. pose proof (mandatory_parts_elem t Hpools) as HF.
  repeat (apply Forall_cons in HF as [? HF]).
  unfold prompt_parts in Hin.
  repeat match goal with
         | H : _ ∈ _ ++ _ |- _ => apply elem_of_app in H as [H|H]
         | H : _ ∈ _ :: _ |- _ => apply elem_of_cons in H as [->|H]
         | H : _ ∈ [] |- _ => by apply elem_of_nil in H
         | H : _ ∈ optional_part _ |- _ =>
             apply optional_part_elem in H as [H ?]
         end;
    first [by left | right; split; [done|]; tauto].
Qed.

Lemma pools_in_vocabulary v :
  (v ∈ ACCESSORIES → v ∈ optional_vocabulary)
  ∧ (v ∈ TATTOOS → v ∈ optional_vocabulary)
  ∧ (v ∈ PIERCINGS → v ∈ optional_vocabulary)
  ∧ (v ∈ FRECKLES → v ∈ optional_vocabulary).
Proof.
  unfold optional_vocabulary.
  split_and!; intros Hv; in_fragments.
Qed.

Lemma pools_disjoint v :
  ¬ (v ∈ ACCESSORIES ∧ v ∈ TATTOOS) ∧ ¬ (v ∈ ACCESSORIES ∧ v ∈ PIERCINGS)
  ∧ ¬ (v ∈ ACCESSORIES ∧ v ∈ FRECKLES) ∧ ¬ (v ∈ TATTOOS ∧ v ∈ PIERCINGS)
  ∧ ¬ (v ∈ TATTOOS ∧ v ∈ FRECKLES) ∧ ¬ (v ∈ PIERCINGS ∧ v ∈ FRECKLES).
Proof.
  pose proof vocabulary_NoDup as Hnd. unfold optional_vocabulary in Hnd.
  apply NoDup_app in Hnd as (_ & Ha & Hnd).
  apply NoDup_app in Hnd as (_ & Ht & Hnd).
  apply NoDup_app in Hnd as (_ & Hp & _).
  split_and!; intros [H1 H2].
  - apply (Ha v H1). in_fragments.
  - apply (Ha v H1). in_fragments.
  - apply (Ha v H1). in_fragments.
  - apply (Ht v H1). in_fragments.
  - apply (Ht v H1). in_fragments.
  - by apply (Hp v H1).
Qed.

Lemma length_prompt_parts t :
  length (prompt_parts t)
  = 9 + length (filter (λ v, truthy v = true) (optional_values t)).
Proof.
  unfold prompt_parts, optional_values.
  rewrite !length_app, !length_optional_part.
  destruct (truthy (accessory t)) eqn:Ha, (truthy (tattoo t)) eqn:Ht,
    (truthy (piercing t)) eqn:Hp, (truthy (freckles t)) eqn:Hf;
    rewrite ?filter_cons_True, ?filter_cons_False by congruence;
    rewrite ?filter_cons_True, ?filter_cons_False by congruence;
    rewrite ?filter_cons_True, ?filter_cons_False by congruence;
    rewrite ?filter_cons_True, ?filter_cons_False by congruence;
    reflexivity.
Qed.

End PromptFacts.

(** ** Locating the image reference *)

(** The reference an entry of an image list holds: a bare string, or the
    [url] of an object; a reference is a non-empty string. *)
Definition entry_ref (e : json) : option string :=
  match e with
  | JStr u => if String.eqb u "" then None else Some u
  | JObj kvs =>
      match assoc "url" kvs with
      | Some (JStr u) => if String.eqb u "" then None else Some u
      | _ => None
      end
  | _ => None
  end.

(** An image list: a non-empty list whose every entry holds a reference;
    the reference of the list is that of its first entry. *)
Definition list_ref (v : json) : option string :=
  match v with
  | JList (e :: l) =>
      if forallb (λ x, bool_decide (is_Some (entry_ref x))) (e :: l)
      then entry_ref e else None
  | _ => None
  end.

(** The three documented shapes of a result that carries the reference
    [u]. *)
Definition carries_top (res : json) (u : string) : Prop :=
  ∃ kvs imgs, res = JObj kvs ∧ assoc "images" kvs = Some imgs
              ∧ list_ref imgs = Some u.

Definition carries_wrapped (wrapper : string) (res : json) (u : string) : Prop :=
  ∃ kvs inner imgs,
    res = JObj kvs ∧ assoc wrapper kvs = Some (JObj inner)
    ∧ assoc "images" inner = Some imgs ∧ list_ref imgs = Some u.

(** No image list at the top level, or one that is empty. *)
Definition no_top_images (res : json) : Prop :=
  ∃ kvs, res = JObj kvs
         ∧ Images.truth (default (JList []) (assoc "images" kvs)) = false.

Definition no_key (k : string) (res : json) : Prop :=
  ∃ kvs, res = JObj kvs ∧ assoc k kvs = None.

(** A result with an empty [output] object next to a [data] wrapper that
    holds the image. *)
Definition shadowed_data : json :=
  JObj [ ("output", JObj []);
         ("data", JObj [ ("images", JList [ JStr "https://cdn.example/0001.png" ]) ]) ].

Section ExtractionFacts.
Import Images.

Lemma entry_ref_truth e u : entry_ref e = Some u → u ≠ "".
Proof.
  destruct e as [| | |s| |kvs]; simpl; try done.
  - destruct (String.eqb_spec s ""); [done|]. by intros [= <-].
  - destruct (assoc "url" kvs) as [[| | |s| |]|]; try done.
    destruct (String.eqb_spec s ""); [done|]. by intros [= <-].
Qed.

(** What the code finds in a well-formed image list. *)
Lemma list_ref_found imgs u :
  list_ref imgs = Some u →
  truth imgs = true
  ∧ ∃ first, py_first imgs = Ok first
             ∧ (if is_dict first then py_get first "url" JNull
                else Ok first) = Ok (JStr u)
             ∧ truth (JStr u) = true.
Proof.
  destruct imgs as [| | | |[|e l]|]; try done. unfold list_ref.
  destruct (forallb _ _); [|done]. intros He.
  pose proof (entry_ref_truth _ _ He) as Hne.
  split; [done|]. exists e. split; [done|].
  assert (truth (JStr u) = true) as Ht.
  { simpl. by destruct (String.eqb_spec u ""). }
  split; [|done].
  destruct e as [| | |s| |kvs]; simpl in He |- *; try done.
  - destruct (String.eqb s ""); [done|]. by injection He as ->.
  - destruct (assoc "url" kvs) as [[| | |s| |]|]; try done. simpl.
    destruct (String.eqb s ""); [done|]. by injection He as ->.
Qed.

Lemma extract_from_list res imgs u :
  list_ref imgs = Some u →
  match py_get res "images" (JList []) with
  | Ok top =>
      (if negb (truth top) then
         match py_get res "data" (JObj []) with
         | Raise e => Raise e
         | Ok dflt =>
             match py_get res "output" dflt with
             | Raise e => Raise e
             | Ok output =>
                 if is_dict output then py_get output "images" (JList [])
                 else Ok top
             end
         end
       else Ok top) = Ok imgs
  | Raise _ => False
  end →
  extract_image_url res = Ok (JStr u).
Proof.
  intros Hl Hsel. unfold extract_image_url.
  destruct (py_get res "images" (JList [])) as [top|]; [|done].
  rewrite Hsel.
  destruct (list_ref_found imgs u Hl) as (Ht & first & Hf & Hu & Htu).
  rewrite Ht. cbn [negb]. rewrite Hf. cbv zeta. rewrite Hu. by rewrite Htu.
Qed.

(** C7, as the code has it.  The reference is found in a top-level image
    list; in the image list of an [output] object when the top level has
    no (or an empty) image list; in the image list of a [data] object when
    moreover the result has no [output] key at all.  When the top level
    has no image list and the result has neither wrapper, the step raises
    the no-images [RuntimeError]; when the first entry of the top-level
    list is an object without a non-empty [url], it raises the no-URL
    [RuntimeError]. *)
Theorem extraction_by_precedence res u :
  (carries_top res u → extract_image_url res = Ok (JStr u))
  ∧ (no_top_images res → carries_wrapped "output" res u →
     extract_image_url res = Ok (JStr u))
  ∧ (no_top_images res → no_key "output" res →
     carries_wrapped "data" res u →
     extract_image_url res = Ok (JStr u))
  ∧ (no_top_images res → no_key "output" res → no_key "data" res →
     extract_image_url res = Raise (RuntimeError NoImages))
  ∧ (∀ kvs entry rest,
       res = JObj kvs →
       assoc "images" kvs = Some (JList (JObj entry :: rest)) →
       truth (default JNull (assoc "url" entry)) = false →
       extract_image_url res = Raise (RuntimeError NoImageUrl)).
Proof.
  split_and!.
  - intros (kvs & imgs & -> & Himgs & Hl). apply (extract_from_list _ imgs); [done|].
    simpl. rewrite Himgs. simpl.
    by destruct (list_ref_found imgs u Hl) as (-> & _).
  - intros (kvs & [= ->] & Htop) (kvs' & inner & imgs & [= <-] & Hout & Himgs & Hl).
    apply (extract_from_list _ imgs); [done|].
    simpl. rewrite Htop. simpl. rewrite Hout. simpl. by rewrite Himgs.
  - intros (kvs & [= ->] & Htop) (? & [= <-] & Hno)
           (kvs' & inner & imgs & [= <-] & Hdata & Himgs & Hl).
    apply (extract_from_list _ imgs); [done|].
    simpl. rewrite Htop. simpl. rewrite Hno, Hdata. simpl. by rewrite Himgs.
  - intros (kvs & [= ->] & Htop) (? & [= <-] & Hno) (? & [= <-] & Hnd).
    unfold extract_image_url. simpl. rewrite Htop. simpl.
    rewrite Hno, Hnd. simpl. done.
  - intros kvs entry rest -> Himgs Hurl.
    unfold extract_image_url. simpl. rewrite Himgs. simpl. by rewrite Hurl.
Qed.

(** C7, as stated, fails: a result can carry the image in the [data]
    shape and still be refused, because an [output] key is consulted
    first. *)
Lemma extraction_misses_shadowed_data :
  carries_wrapped "data" shadowed_data "https://cdn.example/0001.png"
  ∧ extract_image_url shadowed_data = Raise (RuntimeError NoImages).
Proof.
  split; [|reflexivity].
  exists [ ("output", JObj []);
           ("data", JObj [ ("images", JList [ JStr "https://cdn.example/0001.png" ]) ]) ],
         [ ("images", JList [ JStr "https://cdn.example/0001.png" ]) ],
         (JList [ JStr "https://cdn.example/0001.png" ]).
  by split_and!.
Qed.
End ExtractionFacts.

(** ** Writing the image file *)

Definition op_path (op : Images.fs_op) : string :=
  match op with
  | Images.OpenTrunc p => p
  | Images.Append p _ => p
  end.

Section WriteFacts.
Import Images.

Lemma append_ops fs dest_path old bs :
  fs !! dest_path = Some old →
  foldl apply_op fs (map (Append dest_path) bs) !! dest_path
  = Some (old ++ bs).
Proof.
  revert fs old. induction bs as [|b bs IH]; intros fs old Hold; simpl.
  { by rewrite app_nil_r. }
  rewrite (IH _ (old ++ [b])).
  - by rewrite <- (assoc_L (++)).
  - by rewrite Hold, lookup_insert_eq.
Qed.

Lemma append_ops_other fs dest_path bs p :
  p ≠ dest_path →
  foldl apply_op fs (map (Append dest_path) bs) !! p = fs !! p.
Proof.
  intros Hne. revert fs. induction bs as [|b bs IH]; intros fs; simpl; [done|].
  rewrite IH. by rewrite lookup_insert_ne.
Qed.

(** The file after the first [k] steps of the write: untouched before the
    open, then holding the bytes that have arrived. *)
Lemma interrupted_write_content k dest_path content fs :
  interrupted_write k dest_path content fs !! dest_path
  = match k with
    | 0 => fs !! dest_path
    | S k' => Some (take k' content)
    end.
Proof.
  unfold interrupted_write, write_ops. destruct k as [|k]; [done|].
  simpl. rewrite <- (fmap_take (Append dest_path)).
  change (Append dest_path <$> take k content)
    with (map (Append dest_path) (take k content)).
  by rewrite (append_ops _ _ []) by apply lookup_insert_eq.
Qed.


End WriteFacts.

(** ** Steps of the pipeline *)

Section PipeFacts.
Import Images.
Context `{Svc : Service}.

(** How many events of a kind a world has logged. *)
Definition count (f : event → bool) (w : world) : nat :=
  length (List.filter f (log w)).

Definition polls : world → nat := count is_poll.
Definition submits : world → nat := count is_submit.
Definition network_ops : world → nat := count is_network.

Lemma pbind_ok {A B} (m : Pipe A) (f : A → Pipe B) w a w1 :
  m w = (Ok a, w1) → (m ≫= f) w = f a w1.
Proof. unfold mbind, pipe_bind. by intros ->. Qed.

Lemma pbind_raise {A B} (m : Pipe A) (f : A → Pipe B) w e w1 :
  m w = (Raise e, w1) → (m ≫= f) w = (Raise e, w1).
Proof. unfold mbind, pipe_bind. by intros ->. Qed.

Lemma count_emit f e w :
  count f (emit e w).2 = count f w + (if f e then 1 else 0).
Proof.
  unfold count, emit. simpl. rewrite List.filter_app, length_app. simpl.
  by destruct (f e).
Qed.

(** The answers the service gives to successive polls of one URL. *)
Fixpoint answer_at (u : string) (k : nat) (s : remote) : result json :=
  match k with
  | 0 => (http_get_json u s).1
  | S k' => answer_at u k' (http_get_json u s).2
  end.

(** A poll answer with a status that is not terminal. *)
Definition in_progress (r : result json) : Prop :=
  ∃ data st, r = Ok data ∧ status_of data = Ok st
             ∧ status_is st "COMPLETED" = false
             ∧ status_is st "FAILED" = false
             ∧ status_is st "CANCELLED" = false.

(** A poll answer that reports the status [name]. *)
Definition reports (name : string) (r : result json) : Prop :=
  ∃ data, r = Ok data ∧ status_of data = Ok (JStr name).

(** The world after the request of a poll. *)
Definition polled (u : string) (w : world) : world :=
  {| service := (http_get_json u (service w)).2; files := files w;
     log := log w ++ [EvPoll u] |}.

Lemma polls_polled u w : polls (polled u w) = S (polls w).
Proof.
  unfold polls, count, polled. simpl.
  rewrite List.filter_app, length_app. simpl. lia.
Qed.

Lemma poll_once_request u w :
  poll_once (JStr u) w
  = (data ← plift (http_get_json u (service w)).1 ;
     status ← plift (status_of data) ;
     if status_is status "COMPLETED" then mret (Some "COMPLETED")
     else if status_is status "FAILED" then
       praise (RuntimeError (RemoteStatus "FAILED"))
     else if status_is status "CANCELLED" then
       praise (RuntimeError (RemoteStatus "CANCELLED"))
     else sleep PollInterval ;; mret None) (polled u w).
Proof.
  unfold poll_once, polled. unfold mbind at 1 2 3, pipe_bind. simpl.
  unfold call. simpl. unfold mbind at 3, pipe_bind. unfold plift at 2.
  by destruct (http_get_json u (service w)) as [[data|e] s1].
Qed.

Lemma poll_once_in_progress u w :
  in_progress (http_get_json u (service w)).1 →
  ∃ w1, poll_once (JStr u) w = (Ok None, w1)
        ∧ service w1 = (http_get_json u (service w)).2
        ∧ files w1 = files w ∧ polls w1 = S (polls w).
Proof.
  intros (data & st & Hr & Hst & H1 & H2 & H3).
  rewrite poll_once_request, Hr.
  unfold mbind, pipe_bind, plift. rewrite Hst, H1, H2, H3.
  exists {| service := (http_get_json u (service w)).2; files := files w;
            log := (log w ++ [EvPoll u]) ++ [EvSleep PollInterval] |}.
  split_and!; [done..|].
  unfold polls, count. simpl.
  rewrite !List.filter_app, !length_app. simpl. lia.
Qed.

Lemma status_is_eq name name' :
  status_is (JStr name) name' = bool_decide (name = name').
Proof. simpl. by destruct (String.eqb_spec name name'); case_bool_decide. Qed.

Lemma poll_once_reports name u w :
  reports name (http_get_json u (service w)).1 →
  poll_once (JStr u) w
  = ((if bool_decide (name = "COMPLETED") then Ok (Some "COMPLETED")
      else if bool_decide (name = "FAILED")
           then Raise (RuntimeError (RemoteStatus "FAILED"))
      else if bool_decide (name = "CANCELLED")
           then Raise (RuntimeError (RemoteStatus "CANCELLED"))
      else Ok None),
     if bool_decide (name = "COMPLETED") || bool_decide (name = "FAILED")
        || bool_decide (name = "CANCELLED")
     then polled u w else (sleep PollInterval (polled u w)).2).
Proof.
  intros (data & Hr & Hst). rewrite poll_once_request, Hr.
  unfold mbind, pipe_bind, plift. rewrite Hst, !status_is_eq.
  by repeat case_bool_decide.
Qed.

Ltac count_log :=
  unfold polls, submits, network_ops, count; simpl;
  rewrite ?List.filter_app, ?length_app; simpl; try lia.

Lemma poll_once_polls url w : polls (poll_once url w).2 ≤ S (polls w).
Proof.
  destruct url as [| | |u| |]; try (simpl; lia).
  rewrite poll_once_request. unfold mbind, pipe_bind, plift.
  destruct (http_get_json u (service w)).1 as [data|e]; [|count_log].
  destruct (status_of data) as [st|e]; [|count_log].
  destruct (status_is st "COMPLETED"); [count_log|].
  destruct (status_is st "FAILED"); [count_log|].
  destruct (status_is st "CANCELLED"); count_log.
Qed.

(** The loop makes at most as many polls as it has rounds. *)
Lemma poll_loop_bound todo url w :
  polls (poll_loop todo url w).2 ≤ polls w + todo.
Proof.
  revert w. induction todo as [|todo IH]; intros w; [simpl; lia|].
  cbn [poll_loop]. unfold mbind, pipe_bind.
  pose proof (poll_once_polls url w) as Hp.
  destruct (poll_once url w) as [[[s|]|e] w1]; simpl in *; [lia| |lia].
  specialize (IH w1). lia.
Qed.

Lemma poll_loop_pending todo u w :
  (∀ k, k < todo → in_progress (answer_at u k (service w))) →
  ∃ w', poll_loop todo (JStr u) w = (Raise TimeoutError, w')
        ∧ polls w' = polls w + todo ∧ files w' = files w.
Proof.
  revert w. induction todo as [|todo IH]; intros w Hall.
  { exists w. split_and!; [done|lia|done]. }
  destruct (poll_once_in_progress u w) as (w1 & Hp & Hs & Hf & Hn).
  { apply (Hall 0). lia. }
  cbn [poll_loop]. rewrite (pbind_ok _ _ _ _ _ Hp).
  destruct (IH w1) as (w' & Hl & Hn' & Hf').
  { intros k Hk. rewrite Hs. apply (Hall (S k)). lia. }
  exists w'. split_and!; [done|lia|congruence].
Qed.

Lemma poll_loop_terminal todo u w i name :
  i < todo →
  (∀ k, k < i → in_progress (answer_at u k (service w))) →
  reports name (answer_at u i (service w)) →
  name = "COMPLETED" ∨ name = "FAILED" ∨ name = "CANCELLED" →
  ∃ w', poll_loop todo (JStr u) w
        = (if bool_decide (name = "COMPLETED") then Ok "COMPLETED"
           else Raise (RuntimeError (RemoteStatus name)), w')
        ∧ polls w' = polls w + S i ∧ files w' = files w.
Proof.
  revert todo w. induction i as [|i IH]; intros todo w Hi Hall Hrep Hname;
    (destruct todo as [|todo]; [lia|]); cbn [poll_loop].
  - pose proof (poll_once_reports name u w Hrep) as Hp.
    destruct Hname as [->|[->| ->]]; simpl in Hp.
    + rewrite (pbind_ok _ _ _ _ _ Hp). exists (polled u w).
      split_and!; [done| |done]. rewrite polls_polled. lia.
    + rewrite (pbind_raise _ _ _ _ _ Hp). exists (polled u w).
      split_and!; [done| |done]. rewrite polls_polled. lia.
    + rewrite (pbind_raise _ _ _ _ _ Hp). exists (polled u w).
      split_and!; [done| |done]. rewrite polls_polled. lia.
  - destruct (poll_once_in_progress u w) as (w1 & Hp & Hs & Hf & Hn).
    { apply (Hall 0). lia. }
    rewrite (pbind_ok _ _ _ _ _ Hp).
    destruct (IH todo w1) as (w' & Hl & Hn' & Hf'); [lia| | |done|].
    { intros k Hk. rewrite Hs. apply (Hall (S k)). lia. }
    { by rewrite Hs. }
    exists w'. split_and!; [done|lia|congruence].
Qed.

(** What a poll answer says, read off the answer itself: a JSON object
    whose [status] is the string [name]. *)
Definition says (name : string) (r : result json) : Prop :=
  ∃ kvs, r = Ok (JObj kvs) ∧ assoc "status" kvs = Some (JStr name).

(** An answer that names no terminal status: a JSON object with no
    [status], or with one that is none of the three terminal strings. *)
Definition not_terminal (r : result json) : Prop :=
  ∃ kvs, r = Ok (JObj kvs)
         ∧ ∀ name, assoc "status" kvs = Some (JStr name) →
                   name ≠ "COMPLETED" ∧ name ≠ "FAILED"
                   ∧ name ≠ "CANCELLED".

Lemma says_reports name r : says name r → reports name r.
Proof.
  intros (kvs & -> & Hs). exists (JObj kvs). split; [done|].
  unfold status_of, py_get. by rewrite Hs.
Qed.

Lemma not_terminal_in_progress r : not_terminal r → in_progress r.
Proof.
  intros (kvs & -> & Hs).
  exists (JObj kvs), (default (JStr "UNKNOWN") (assoc "status" kvs)).
  split; [done|]. split; [done|].
  destruct (assoc "status" kvs) as [[| | |name| |]|]; try done.
  destruct (Hs name eq_refl) as (H1 & H2 & H3). simpl.
  by destruct (String.eqb_spec name "COMPLETED"),
       (String.eqb_spec name "FAILED"), (String.eqb_spec name "CANCELLED").
Qed.

(** C6.  [poll_until_done] always returns or raises, after at most
    [MAX_POLL_ATTEMPTS] polls, whatever the service answers.  When the
    answers before some poll within the limit name no terminal status and
    the answer to that poll has the status COMPLETED, it returns
    ["COMPLETED"] right after that poll; when that answer has the status
    FAILED or CANCELLED, it raises the remote-failure [RuntimeError] right
    after it; when none of the [MAX_POLL_ATTEMPTS] answers names a
    terminal status, it raises [TimeoutError] after exactly that many
    polls. *)
Theorem poll_until_done_terminates status_url u w :
  polls (poll_until_done status_url w).2 ≤ polls w + MAX_POLL_ATTEMPTS
  ∧ (∀ i, i < MAX_POLL_ATTEMPTS →
          (∀ k, k < i → not_terminal (answer_at u k (service w))) →
          (says "COMPLETED" (answer_at u i (service w)) →
           ∃ w', poll_until_done (JStr u) w = (Ok "COMPLETED", w')
                 ∧ polls w' = polls w + S i)
          ∧ (says "FAILED" (answer_at u i (service w)) →
             ∃ w', poll_until_done (JStr u) w
                   = (Raise (RuntimeError (RemoteStatus "FAILED")), w')
                   ∧ polls w' = polls w + S i)
          ∧ (says "CANCELLED" (answer_at u i (service w)) →
             ∃ w', poll_until_done (JStr u) w
                   = (Raise (RuntimeError (RemoteStatus "CANCELLED")), w')
                   ∧ polls w' = polls w + S i))
  ∧ ((∀ k, k < MAX_POLL_ATTEMPTS →
           not_terminal (answer_at u k (service w))) →
     ∃ w', poll_until_done (JStr u) w = (Raise TimeoutError, w')
           ∧ polls w' = polls w + MAX_POLL_ATTEMPTS).
Proof.
  unfold poll_until_done. split_and!.
  - apply poll_loop_bound.
  - intros i Hi Hall.
    assert (∀ k, k < i → in_progress (answer_at u k (service w))) as Hall'.
    { intros k Hk. by apply not_terminal_in_progress, Hall. }
    split_and!; intros Hrep%says_reports.
    + destruct (poll_loop_terminal MAX_POLL_ATTEMPTS u w i "COMPLETED")
        as (w' & Hl & Hn & _); [done..|by left|]. by exists w'.
    + destruct (poll_loop_terminal MAX_POLL_ATTEMPTS u w i "FAILED")
        as (w' & Hl & Hn & _); [done..|by right; left|]. by exists w'.
    + destruct (poll_loop_terminal MAX_POLL_ATTEMPTS u w i "CANCELLED")
        as (w' & Hl & Hn & _); [done..|by right; right|]. by exists w'.
  - intros Hall.
    destruct (poll_loop_pending MAX_POLL_ATTEMPTS u w)
      as (w' & Hl & Hn & _); [|by exists w'].
    intros k Hk. by apply not_terminal_in_progress, Hall.
Qed.
End PipeFacts.

(** ** Retries and the run over the items *)

Section RetryFacts.
Import Images.
Context `{Svc : Service}.
Local Arguments submits : simpl never.
Local Arguments MAX_RETRIES : simpl never.
Local Arguments Nat.mul : simpl never.

(** A step that adds [n] events of the kind [f] to the log, whether it
    returns or raises. *)
Definition adds {A} (f : event → bool) (n : nat) (m : Pipe A) : Prop :=
  ∀ w, count f (m w).2 = count f w + n.

(** A step that leaves the files alone, and one that does so at least
    when it raises. *)
Definition files_kept {A} (m : Pipe A) : Prop :=
  ∀ w, files (m w).2 = files w.

Definition files_kept_on_raise {A} (m : Pipe A) : Prop :=
  ∀ w e w', m w = (Raise e, w') → files w' = files w.

Definition never_raises {A} (m : Pipe A) : Prop :=
  ∀ w, is_ok (m w).1 = true.

Lemma adds_bind {A B} f n (m : Pipe A) (g : A → Pipe B) :
  adds f n m → (∀ a, adds f 0 (g a)) → adds f n (m ≫= g).
Proof.
  intros Hm Hg w. unfold mbind, pipe_bind. specialize (Hm w).
  destruct (m w) as [[a|e] w1]; simpl in *; [|done].
  rewrite (Hg a w1). lia.
Qed.

Lemma adds_ret {A} f (a : A) : adds f 0 (mret a).
Proof. intros w. simpl. lia. Qed.

Lemma adds_plift {A} f (r : result A) : adds f 0 (plift r).
Proof. intros w. simpl. lia. Qed.

Lemma adds_praise {A} f e : adds f 0 (@praise _ A e).
Proof. intros w. simpl. lia. Qed.

Lemma adds_call {A} f (c : remote → result A * remote) : adds f 0 (call c).
Proof.
  intros w. unfold call. destruct (c (service w)) as [r s].
  unfold count. simpl. lia.
Qed.

Lemma adds_emit f e : adds f (if f e then 1 else 0) (emit e).
Proof. intros w. apply count_emit. Qed.

Lemma adds_write_file f d c : adds f 0 (write_file d c).
Proof. intros w. unfold count. simpl. lia. Qed.

Lemma kept_bind {A B} (m : Pipe A) (g : A → Pipe B) :
  files_kept m → (∀ a, files_kept (g a)) → files_kept (m ≫= g).
Proof.
  intros Hm Hg w. unfold mbind, pipe_bind. specialize (Hm w).
  destruct (m w) as [[a|e] w1]; simpl in *; [|done].
  by rewrite (Hg a w1).
Qed.

Lemma kept_ret {A} (a : A) : files_kept (mret a).
Proof. by intros w. Qed.

Lemma kept_plift {A} (r : result A) : files_kept (plift r).
Proof. by intros w. Qed.

Lemma kept_praise {A} e : files_kept (@praise _ A e).
Proof. by intros w. Qed.

Lemma kept_call {A} (c : remote → result A * remote) : files_kept (call c).
Proof. intros w. unfold call. by destruct (c (service w)). Qed.

Lemma kept_emit e : files_kept (emit e).
Proof. by intros w. Qed.

Lemma kept_on_raise {A} (m : Pipe A) : files_kept m → files_kept_on_raise m.
Proof. intros Hm w e w' Hw. specialize (Hm w). by rewrite Hw in Hm. Qed.

Lemma on_raise_bind {A B} (m : Pipe A) (g : A → Pipe B) :
  files_kept m → (∀ a, files_kept_on_raise (g a)) →
  files_kept_on_raise (m ≫= g).
Proof.
  intros Hm Hg w e w'. unfold mbind, pipe_bind. specialize (Hm w).
  destruct (m w) as [[a|e1] w1]; simpl in *.
  - intros Hga. rewrite <- Hm. by eapply Hg.
  - by intros [= _ <-].
Qed.

Lemma on_raise_then {A B} (m : Pipe A) (g : A → Pipe B) :
  files_kept_on_raise m → (∀ a, never_raises (g a)) →
  files_kept_on_raise (m ≫= g).
Proof.
  intros Hm Hg w e w'. unfold mbind, pipe_bind.
  destruct (m w) as [[a|e1] w1] eqn:Hw.
  - intros Hga. specialize (Hg a w1). by rewrite Hga in Hg.
  - intros [= _ <-]. by eapply Hm.
Qed.

Lemma on_raise_never {A} (m : Pipe A) : never_raises m → files_kept_on_raise m.
Proof. intros Hm w e w' Hw. specialize (Hm w). by rewrite Hw in Hm. Qed.

Ltac step_adds :=
  repeat first
    [ apply adds_ret | apply adds_plift | apply adds_praise | apply adds_call
    | apply adds_write_file
    | exact (adds_emit is_submit (EvPoll _))
    | exact (adds_emit is_submit (EvFetch _))
    | exact (adds_emit is_submit (EvDownload _))
    | exact (adds_emit is_submit (EvSleep _))
    | match goal with
      | |- adds _ _ (if ?b then _ else _) => destruct b
      | |- adds _ _ (_ ≫= _) => apply adds_bind; [|intros ?]
      end ].

Ltac step_kept :=
  repeat first
    [ apply kept_ret | apply kept_plift | apply kept_praise | apply kept_call
    | apply kept_emit
    | match goal with
      | |- files_kept (if ?b then _ else _) => destruct b
      | |- files_kept (_ ≫= _) => apply kept_bind; [|intros ?]
      end ].

Lemma poll_loop_submits todo url : adds is_submit 0 (poll_loop todo url).
Proof.
  induction todo as [|todo IH]; cbn [poll_loop]; [apply adds_praise|].
  apply adds_bind; [unfold poll_once, sleep; step_adds|].
  intros [s|]; [apply adds_ret|apply IH].
Qed.

Lemma poll_loop_files todo url : files_kept (poll_loop todo url).
Proof.
  induction todo as [|todo IH]; cbn [poll_loop]; [apply kept_praise|].
  apply kept_bind; [unfold poll_once, sleep; step_kept|].
  intros [s|]; [apply kept_ret|apply IH].
Qed.

(** An attempt submits exactly once, however it ends. *)
Lemma attempt_submits q prompt dest : adds is_submit 1 (attempt q prompt dest).
Proof.
  unfold attempt. apply adds_bind.
  - unfold submit_request. apply adds_bind; [|intros ?; apply adds_call].
    exact (adds_emit is_submit (EvSubmit prompt)).
  - intros queue_resp. unfold poll_until_done, fetch_result, download_image.
    repeat first [ apply poll_loop_submits | step_adds ].
Qed.

(** An attempt that raises has written nothing. *)
Lemma attempt_files q prompt dest :
  files_kept_on_raise (attempt q prompt dest).
Proof.
  unfold attempt, submit_request, poll_until_done, fetch_result.
  repeat (apply on_raise_bind;
          [solve [apply poll_loop_files | step_kept]|intros ?]).
  apply on_raise_then; [|by intros ? ?].
  unfold download_image.
  repeat (apply on_raise_bind; [solve [step_kept]|intros ?]).
  apply on_raise_never. by intros ?.
Qed.

Lemma retry_loop_total todo retry q prompt dest w :
  ∃ ok w', retry_loop todo retry q prompt dest w = (Ok ok, w').
Proof.
  revert retry w. induction todo as [|todo IH]; intros retry w.
  { by exists false, w. }
  cbn [retry_loop]. unfold mbind at 1, pipe_bind, try_except.
  unfold mbind at 1, pipe_bind.
  destruct (attempt q prompt dest w) as [[b|e] w1].
  - simpl. by exists b, w1.
  - unfold mbind, pipe_bind.
    case_bool_decide; simpl; apply IH.
Qed.

(** When every attempt raises, the loop makes all its rounds, one
    submission each, and returns [False] with the files as they were. *)
Lemma retry_loop_all_fail todo retry q prompt dest w :
  (∀ w0, is_ok (attempt q prompt dest w0).1 = false) →
  ∃ w', retry_loop todo retry q prompt dest w = (Ok false, w')
        ∧ submits w' = submits w + todo ∧ files w' = files w.
Proof.
  intros Hfail. revert retry w. induction todo as [|todo IH]; intros retry w.
  { exists w. split_and!; [done|lia|done]. }
  cbn [retry_loop]. unfold mbind at 1, pipe_bind, try_except.
  unfold mbind at 1, pipe_bind.
  pose proof (Hfail w) as Hw. pose proof (attempt_submits q prompt dest w) as Hs.
  pose proof (attempt_files q prompt dest w) as Hf.
  destruct (attempt q prompt dest w) as [[b|e] w1]; [done|].
  simpl in Hs. specialize (Hf e w1 eq_refl).
  unfold mbind, pipe_bind.
  case_bool_decide; simpl.
  - destruct (IH (S retry) (emit (EvSleep (Backoff (2 ^ (retry + 1)))) w1).2)
      as (w' & Hl & Hn & Hf'). exists w'.
    split_and!; [exact Hl| |].
    + rewrite Hn. unfold submits in *. rewrite count_emit. simpl. lia.
    + rewrite Hf'. simpl. congruence.
  - destruct (IH (S retry) w1) as (w' & Hl & Hn & Hf'). exists w'.
    split_and!; [done| |congruence].
    unfold submits in *. lia.
Qed.

Lemma generate_single_total q tid prompt force w :
  ∃ ok w', generate_single q tid prompt force w = (Ok ok, w').
Proof.
  unfold generate_single.
  destruct (negb force && done_on_disk (files w) (dest_path_of tid)).
  - by exists true, w.
  - apply retry_loop_total.
Qed.

Lemma generate_single_all_fail q tid prompt force w :
  (∀ w0, is_ok (attempt q prompt (dest_path_of tid) w0).1 = false) →
  force = true ∨ done_on_disk (files w) (dest_path_of tid) = false →
  ∃ w', generate_single q tid prompt force w = (Ok false, w')
        ∧ submits w' = submits w + MAX_RETRIES ∧ files w' = files w.
Proof.
  intros Hfail Hrun. unfold generate_single.
  replace (negb force && done_on_disk (files w) (dest_path_of tid))
    with false by (by destruct Hrun as [-> | ->]; [|rewrite andb_false_r]).
  by apply retry_loop_all_fail.
Qed.

(** The ids kept by the triage are in the collection and are not taken
    for done. *)
Lemma triage_pending agents_by_id force fs ids tid :
  tid ∈ (triage agents_by_id force fs ids).2 →
  is_Some (agents_by_id !! tid)
  ∧ (force = true ∨ done_on_disk fs (dest_path_of tid) = false).
Proof.
  induction ids as [|i ids IH]; simpl; [by intros ?%elem_of_nil|].
  destruct (triage agents_by_id force fs ids) as [done to_generate].
  destruct (agents_by_id !! i) as [a|] eqn:Ha; [|done].
  destruct (negb force && done_on_disk fs (dest_path_of i)) eqn:Hd; [done|].
  simpl. intros [->|Hin]%elem_of_cons; [|by apply IH].
  split; [by rewrite Ha|].
  apply andb_false_iff in Hd as [Hd|Hd]; [left|by right].
  by destruct force.
Qed.

Lemma triage_all_done agents_by_id fs ids :
  (∀ tid, tid ∈ ids → is_Some (agents_by_id !! tid) →
          done_on_disk fs (dest_path_of tid) = true) →
  triage agents_by_id false fs ids
  = (length (filter (λ tid, is_Some (agents_by_id !! tid)) ids), []).
Proof.
  induction ids as [|i ids IH]; intros Hdone; [done|].
  simpl. rewrite IH by (intros tid Hin; apply Hdone; by right).
  destruct (agents_by_id !! i) as [a|] eqn:Ha.
  - rewrite Hdone; [|by left|by rewrite Ha]. simpl.
    by rewrite filter_cons_True by (by rewrite Ha).
  - by rewrite filter_cons_False by (rewrite Ha; by intros [? ?]).
Qed.

Lemma generate_loop_total q agents_by_id force ids r w :
  (∀ tid, tid ∈ ids → is_Some (agents_by_id !! tid)) →
  ∃ r' w', generate_loop q agents_by_id force ids r w = (Ok r', w').
Proof.
  revert r w. induction ids as [|tid ids IH]; intros r w Hin.
  { by exists r, w. }
  cbn [generate_loop].
  destruct (Hin tid) as [a Ha]; [by left|]. rewrite Ha.
  unfold mbind at 1, pipe_bind, plift.
  destruct (generate_single_total q tid (item_prompt a) force w)
    as (ok & w1 & Hg).
  rewrite (pbind_ok _ _ _ _ _ Hg). cbv zeta.
  unfold mbind, pipe_bind.
  destruct ids as [|tid' ids']; simpl.
  - by eexists _, _.
  - apply IH. intros t Ht. apply Hin. by right.
Qed.

(** When every attempt raises, the loop still goes through all the ids
    and records each of them as failed. *)
Lemma generate_loop_all_fail q agents_by_id force ids r w :
  (∀ prompt dest w0, is_ok (attempt q prompt dest w0).1 = false) →
  (∀ tid, tid ∈ ids →
          is_Some (agents_by_id !! tid)
          ∧ (force = true
             ∨ done_on_disk (files w) (dest_path_of tid) = false)) →
  ∃ r' w',
    generate_loop q agents_by_id force ids r w = (Ok r', w')
    ∧ successes r' = successes r
    ∧ failures r' = failures r + length ids
    ∧ failed_ids r' = failed_ids r ++ ids
    ∧ already_done r' = already_done r
    ∧ submits w' = submits w + MAX_RETRIES * length ids
    ∧ files w' = files w.
Proof.
  intros Hfail. revert r w. induction ids as [|tid ids IH]; intros r w Hin.
  { exists r, w. split_and!; [done|done|simpl; lia|by rewrite app_nil_r
                              |done|simpl; lia|done]. }
  cbn [generate_loop].
  destruct (Hin tid) as [[a Ha] Hrun]; [by left|]. rewrite Ha.
  unfold mbind at 1, pipe_bind, plift.
  destruct (generate_single_all_fail q tid (item_prompt a) force w)
    as (w1 & Hg & Hn1 & Hf1); [by intros ?|done|].
  rewrite (pbind_ok _ _ _ _ _ Hg). cbv zeta. cbv iota.
  set (r1 := {| successes := successes r; failures := S (failures r);
                failed_ids := failed_ids r ++ [tid];
                already_done := already_done r |}).
  unfold mbind, pipe_bind.
  destruct ids as [|tid' ids'].
  - simpl. exists r1, w1. subst r1. simpl.
    split_and!; [done|done|lia|done|done|lia|done].
  - assert (submits (sleep BetweenRequests w1).2 = submits w1) as Hs.
    { unfold submits, sleep. rewrite count_emit. simpl. lia. }
    destruct (IH r1 (sleep BetweenRequests w1).2)
      as (r' & w' & Hl & H1 & H2 & H3 & H4 & H5 & H6).
    { intros t Ht. simpl. rewrite Hf1. apply Hin. by right. }
    rewrite Hs in H5. exists r', w'. subst r1. simpl in *.
    split_and!; [exact Hl|done|lia|by rewrite H3, <- (assoc_L (++))
                 |done|lia|congruence].
Qed.

(** The ids of a run and whether they are forced. *)
Definition ids_of (start end_ : nat) (redo : option (list nat)) : list nat :=
  match redo with
  | Some ids => ids
  | None => seq start (end_ + 1 - start)
  end.

Definition forced (redo : option (list nat)) : bool :=
  match redo with Some _ => true | None => false end.

Lemma main_unfold q agents_by_id start end_ redo w :
  main q agents_by_id start end_ redo w
  = generate_loop q agents_by_id (forced redo)
      (triage agents_by_id (forced redo) (files w) (ids_of start end_ redo)).2
      {| successes := 0; failures := 0; failed_ids := [];
         already_done :=
           (triage agents_by_id (forced redo) (files w)
              (ids_of start end_ redo)).1 |} w.
Proof.
  unfold main, ids_of, forced.
  by destruct (triage _ _ _ _) as [done to_generate].
Qed.

(** C2.  With forced redo off, an item whose image file exists and is not
    empty is reported done by [generate_single] with the world exactly as
    it was: nothing is submitted, polled, fetched or downloaded, and the
    test comes before everything else.  A run over a range of ids whose
    images all exist counts them as already done and leaves the world as
    it was, too. *)
Theorem resume_skips_network q w :
  (∀ tid prompt,
     done_on_disk (files w) (dest_path_of tid) = true →
     generate_single q tid prompt false w = (Ok true, w))
  ∧ (∀ agents_by_id start end_,
       (∀ tid, tid ∈ seq start (end_ + 1 - start) →
               is_Some (agents_by_id !! tid) →
               done_on_disk (files w) (dest_path_of tid) = true) →
       main q agents_by_id start end_ None w
       = (Ok {| successes := 0; failures := 0; failed_ids := [];
                already_done :=
                  length (filter (λ tid, is_Some (agents_by_id !! tid))
                                 (seq start (end_ + 1 - start))) |}, w)).
Proof.
  split.
  - intros tid prompt Hdone. unfold generate_single. by rewrite Hdone.
  - intros agents_by_id start end_ Hdone.
    rewrite main_unfold. simpl. by rewrite triage_all_done.
Qed.

End RetryFacts.

(** ** Concrete services and runs *)

Definition queued : json :=
  JObj [ ("request_id", JStr "r-1");
         ("status_url", JStr "https://queue.example/r-1/status");
         ("response_url", JStr "https://queue.example/r-1") ].

(** A service that accepts every request and then reports it FAILED. *)
Definition FailingService : Images.Service :=
  {| Images.remote := unit;
     Images.http_post := λ _ _ s, (Ok queued, s);
     Images.http_get_json := λ _ s,
       (Ok (JObj [ ("status", JStr "FAILED"); ("error", JStr "out of memory") ]), s);
     Images.http_get_bytes := λ _ s, (Raise RequestException, s) |}.

(** A service whose requests stay in the queue for ever. *)
Definition PendingService : Images.Service :=
  {| Images.remote := unit;
     Images.http_post := λ _ _ s, (Ok queued, s);
     Images.http_get_json := λ _ s, (Ok (JObj [ ("status", JStr "IN_QUEUE") ]), s);
     Images.http_get_bytes := λ _ s, (Raise RequestException, s) |}.

(** A service that finds a request in the queue twice, then running once,
    and completes it at the fourth poll. *)
Definition SlowService : Images.Service :=
  {| Images.remote := nat;
     Images.http_post := λ _ _ n, (Ok queued, n);
     Images.http_get_json := λ _ n,
       (Ok (JObj [ ("status",
                    JStr (match n with
                          | 0 | 1 => "IN_QUEUE"
                          | 2 => "IN_PROGRESS"
                          | _ => "COMPLETED"
                          end)) ]), S n);
     Images.http_get_bytes := λ _ n, (Raise RequestException, n) |}.

(** A service that accepts every request and then reports it
    CANCELLED. *)
Definition CancellingService : Images.Service :=
  {| Images.remote := unit;
     Images.http_post := λ _ _ s, (Ok queued, s);
     Images.http_get_json := λ _ s, (Ok (JObj [ ("status", JStr "CANCELLED") ]), s);
     Images.http_get_bytes := λ _ s, (Raise RequestException, s) |}.

Definition fresh_world (S : Images.Service) (s : @Images.remote S)
    : @Images.world S :=
  {| Images.service := s; Images.files := ∅; Images.log := [] |}.

(** A world where the image of item 7 is on disk. *)
Definition resumed_world (S : Images.Service) (s : @Images.remote S)
    : @Images.world S :=
  {| Images.service := s;
     Images.files := {[ Images.dest_path_of 7 := [Byte.x89; Byte.x50] ]};
     Images.log := [] |}.

Definition plain_traits : Prompts.traits :=
  {| Prompts.suit_style := "black suit black tie";
     Prompts.sunglasses := "black aviator sunglasses";
     Prompts.hair_style := "short spiky hair";
     Prompts.hair_color := "black";
     Prompts.skin_tone := "pale skin";
     Prompts.background := "grainy surveillance footage of parking garage";
     Prompts.expression := "tiny neutral mouth";
     Prompts.accessory := None; Prompts.tattoo := None;
     Prompts.piercing := None; Prompts.freckles := None |}.

Definition data_wrapped : json :=
  JObj [ ("data",
          JObj [ ("images",
                  JList [ JObj [ ("url", JStr "https://cdn.example/0001.png") ] ]) ]) ].

Lemma plain_traits_in_pools : in_pools plain_traits.
Proof.
  unfold in_pools. simpl. split_and!; try exact I; apply list_elem_of_here.
Defined.

Lemma pending_answers u k :
  in_progress (@answer_at PendingService u k tt).
Proof.
  induction k as [|k IH]; [|exact IH].
  exists (JObj [ ("status", JStr "IN_QUEUE") ]), (JStr "IN_QUEUE").
  by split_and!.
Defined.

Lemma failing_attempts prompt dest w0 :
  is_ok (@Images.attempt FailingService "https://queue.example" prompt dest w0).1
  = false.
Proof. reflexivity. Defined.

Lemma resume_skips_network_witness :
  @Images.generate_single FailingService "https://queue.example" 7 "prompt"
    false (resumed_world FailingService tt)
  = (Ok true, resumed_world FailingService tt).
Proof.
  destruct (@resume_skips_network FailingService "https://queue.example"
              (resumed_world FailingService tt)) as [Hsingle _].
  apply Hsingle. vm_compute. reflexivity.
Defined.

(** A collection of two items. *)
Definition two_items : gmap nat Images.item :=
  {[ 1 := {| Images.item_prompt := "first prompt"; Images.item_rarity := "Common" |};
     2 := {| Images.item_prompt := "second prompt"; Images.item_rarity := "Rare" |} ]}.


Lemma pending_not_terminal u k :
  not_terminal (@answer_at PendingService u k tt).
Proof.
  induction k as [|k IH]; [|exact IH].
  exists [ ("status", JStr "IN_QUEUE") ]. split; [reflexivity|].
  intros name [= <-]. by split_and!.
Defined.

Lemma slow_not_terminal u k :
  k < 3 → not_terminal (@answer_at SlowService u k 0).
Proof.
  intros Hk. destruct k as [|[|[|k]]]; [| | |lia];
    (eexists; split; [reflexivity|]; intros name [= <-]; by split_and!).
Defined.

Lemma poll_until_done_terminates_witness :
  (∃ w', @Images.poll_until_done SlowService
           (JStr "https://queue.example/r-1/status") (fresh_world SlowService 0)
         = (Ok "COMPLETED", w')
         ∧ polls w' = 4)
  ∧ (∃ w', @Images.poll_until_done FailingService
             (JStr "https://queue.example/r-1/status")
             (fresh_world FailingService tt)
           = (Raise (RuntimeError (RemoteStatus "FAILED")), w')
           ∧ polls w' = 1)
  ∧ (∃ w', @Images.poll_until_done CancellingService
             (JStr "https://queue.example/r-1/status")
             (fresh_world CancellingService tt)
           = (Raise (RuntimeError (RemoteStatus "CANCELLED")), w')
           ∧ polls w' = 1)
  ∧ (∃ w', @Images.poll_until_done PendingService
             (JStr "https://queue.example/r-1/status")
             (fresh_world PendingService tt)
           = (Raise TimeoutError, w')
           ∧ polls w' = Images.MAX_POLL_ATTEMPTS).
Proof.
  split_and!.
  - destruct (@poll_until_done_terminates SlowService
                (JStr "https://queue.example/r-1/status")
                "https://queue.example/r-1/status" (fresh_world SlowService 0))
      as (_ & Hterminal & _).
    destruct (Hterminal 3) as (Hdone & _).
    + unfold Images.MAX_POLL_ATTEMPTS. lia.
    + intros k Hk. by apply slow_not_terminal.
    + apply Hdone. eexists. split; reflexivity.
  - destruct (@poll_until_done_terminates FailingService
                (JStr "https://queue.example/r-1/status")
                "https://queue.example/r-1/status"
                (fresh_world FailingService tt)) as (_ & Hterminal & _).
    destruct (Hterminal 0) as (_ & Hfailed & _).
    + unfold Images.MAX_POLL_ATTEMPTS. lia.
    + intros k Hk. lia.
    + apply Hfailed. eexists. split; reflexivity.
  - destruct (@poll_until_done_terminates CancellingService
                (JStr "https://queue.example/r-1/status")
                "https://queue.example/r-1/status"
                (fresh_world CancellingService tt)) as (_ & Hterminal & _).
    destruct (Hterminal 0) as (_ & _ & Hcancelled).
    + unfold Images.MAX_POLL_ATTEMPTS. lia.
    + intros k Hk. lia.
    + apply Hcancelled. eexists. split; reflexivity.
  - destruct (@poll_until_done_terminates PendingService
                (JStr "https://queue.example/r-1/status")
                "https://queue.example/r-1/status"
                (fresh_world PendingService tt)) as (_ & _ & Htimeout).
    apply Htimeout. intros k _. apply pending_not_terminal.
Defined.

Lemma extraction_by_precedence_witness :
  Images.extract_image_url data_wrapped
  = Ok (JStr "https://cdn.example/0001.png").
Proof.
  destruct (extraction_by_precedence data_wrapped
              "https://cdn.example/0001.png") as (_ & _ & Hdata & _ & _).
  apply Hdata.
  - by eexists.
  - by eexists.
  - by eexists _, _, _.
Defined.


Lemma pick_extras_range_witness :
  @Prompts.pick_extras LCG 5 (@seed LCG 42) = Raise ValueError
  ∧ ∃ extras s',
      @Prompts.pick_extras LCG 2 (@seed LCG 42) = Ok (extras, s')
      ∧ present_count extras = 2 ∧ absent_count extras = 2.
Proof.
  split.
  - destruct (@pick_extras_range LCG 5 (@seed LCG 42)) as [Hbad _].
    apply Hbad. right. reflexivity.
  - destruct (@pick_extras_range LCG 2 (@seed LCG 42)) as [_ Hgood].
    destruct Hgood as (extras & s' & Hp & _ & Hpres & Habs & _).
    { split; discriminate. }
    by exists extras, s'.
Defined.

(** * Further properties of the pipeline *)

Definition is_backoff (e : Images.event) : bool :=
  match e with Images.EvSleep (Images.Backoff _) => true | _ => false end.

Definition is_backoff_of (n : nat) (e : Images.event) : bool :=
  match e with
  | Images.EvSleep (Images.Backoff m) => Nat.eqb m n
  | _ => false
  end.

Definition is_download (e : Images.event) : bool :=
  match e with Images.EvDownload _ => true | _ => false end.

Definition is_between (e : Images.event) : bool :=
  match e with Images.EvSleep Images.BetweenRequests => true | _ => false end.

Section StepFacts.
Import Images.
Context `{Svc : Service}.

(** A kind of event that no attempt logs: not a request, not the sleep
    between two polls. *)
Definition outside_attempt (f : event → bool) : Prop :=
  (∀ e, is_network e = true → f e = false)
  ∧ f (EvSleep PollInterval) = false.

(** A step that adds at most [n] events of the kind [f]. *)
Definition adds_le {A} (f : event → bool) (n : nat) (m : Pipe A) : Prop :=
  ∀ w, count f (m w).2 ≤ count f w + n.

(** A step that changes no file but the one at [d]. *)
Definition files_only {A} (d : string) (m : Pipe A) : Prop :=
  ∀ w p, p ≠ d → files (m w).2 !! p = files w !! p.

Lemma pbind_inv {A B} (m : Pipe A) (f : A → Pipe B) w b w' :
  (m ≫= f) w = (Ok b, w') →
  ∃ a w1, m w = (Ok a, w1) ∧ f a w1 = (Ok b, w').
Proof.
  unfold mbind, pipe_bind. destruct (m w) as [[a|e] w1]; [|done].
  intros Hf. by exists a, w1.
Qed.

Lemma emit_quiet f e : f e = false → adds f 0 (emit e).
Proof. intros He w. rewrite count_emit, He. lia. Qed.

Lemma adds_weaken {A} f n (m : Pipe A) : adds f n m → adds_le f n m.
Proof. intros Hm w. rewrite (Hm w). lia. Qed.

Lemma adds_le_mono {A} f n k (m : Pipe A) :
  n ≤ k → adds_le f n m → adds_le f k m.
Proof. intros Hnk Hm w. specialize (Hm w). lia. Qed.

Lemma adds_le_bind {A B} f n k (m : Pipe A) (g : A → Pipe B) :
  adds_le f n m → (∀ a, adds_le f k (g a)) → adds_le f (n + k) (m ≫= g).
Proof.
  intros Hm Hg w. unfold mbind, pipe_bind. specialize (Hm w).
  destruct (m w) as [[a|e] w1]; simpl in *; [|lia].
  specialize (Hg a w1). lia.
Qed.

Lemma only_kept {A} d (m : Pipe A) : files_kept m → files_only d m.
Proof. intros Hm w p _. by rewrite Hm. Qed.

Lemma only_bind {A B} d (m : Pipe A) (g : A → Pipe B) :
  files_only d m → (∀ a, files_only d (g a)) → files_only d (m ≫= g).
Proof.
  intros Hm Hg w p Hp. unfold mbind, pipe_bind. specialize (Hm w p Hp).
  destruct (m w) as [[a|e] w1]; simpl in *; [|done].
  by rewrite (Hg a w1 p Hp).
Qed.

(** The write of a file amounts to storing the bytes at the path. *)
Lemma write_ops_insert d content fs :
  foldl apply_op fs (write_ops d content) = <[d := content]> fs.
Proof.
  apply map_eq. intros p. unfold write_ops. simpl.
  destruct (decide (p = d)) as [->|Hne].
  - rewrite lookup_insert_eq.
    by rewrite (append_ops _ _ []) by apply lookup_insert_eq.
  - rewrite append_ops_other by done. by rewrite !lookup_insert_ne.
Qed.

Lemma only_write_file d content : files_only d (write_file d content).
Proof.
  intros w p Hp. unfold write_file. cbn [snd files].
  rewrite write_ops_insert. by rewrite lookup_insert_ne.
Qed.
End StepFacts.


Section AttemptFacts.
Import Images.
Context `{Svc : Service}.
Local Arguments count : simpl never.
Local Arguments MAX_RETRIES : simpl never.
Local Arguments MAX_POLL_ATTEMPTS : simpl never.
Local Arguments Nat.mul : simpl never.

Ltac quiet :=
  repeat first
    [ apply adds_ret | apply adds_plift | apply adds_praise | apply adds_call
    | apply adds_write_file
    | apply emit_quiet; solve [auto]
    | match goal with
      | |- adds _ _ (if ?b then _ else _) => destruct b
      | |- adds _ _ (_ ≫= _) => apply adds_bind; [|intros ?]
      end ].

Ltac only_own :=
  repeat first
    [ apply only_write_file
    | apply only_kept;
      first [ apply kept_ret | apply kept_plift | apply kept_praise
            | apply kept_call | apply kept_emit ]
    | match goal with
      | |- files_only _ (if ?b then _ else _) => destruct b
      | |- files_only _ (_ ≫= _) => apply only_bind; [|intros ?]
      end ].

Lemma poll_loop_quiet f todo url :
  outside_attempt f → adds f 0 (poll_loop todo url).
Proof.
  intros [Hnet Hpoll].
  induction todo as [|todo IH]; cbn [poll_loop]; [apply adds_praise|].
  apply adds_bind.
  - unfold poll_once, sleep. quiet.
  - intros [s|]; [apply adds_ret|apply IH].
Qed.

(** An attempt logs nothing but its requests and the sleeps between
    polls. *)
Lemma attempt_quiet f q prompt dest :
  outside_attempt f → adds f 0 (attempt q prompt dest).
Proof.
  intros Hf. pose proof Hf as [Hnet Hpoll].
  unfold attempt, submit_request, poll_until_done, fetch_result,
    download_image.
  repeat first [ apply (poll_loop_quiet f _ _ Hf) | quiet ].
Qed.

Lemma adds_le_zero {A} f (m : Pipe A) n : adds f 0 m → adds_le f n m.
Proof. intros Hm. apply (adds_le_mono f 0); [lia|by apply adds_weaken]. Qed.

Lemma poll_loop_polls todo url : adds_le is_poll todo (poll_loop todo url).
Proof. intros w. apply poll_loop_bound. Qed.

Ltac zero_polls :=
  apply (adds_le_zero is_poll); quiet.

(** An attempt polls at most [MAX_POLL_ATTEMPTS] times. *)
Lemma attempt_polls q prompt dest :
  adds_le is_poll MAX_POLL_ATTEMPTS (attempt q prompt dest).
Proof.
  unfold attempt.
  apply (adds_le_bind is_poll 0 MAX_POLL_ATTEMPTS);
    [unfold submit_request; zero_polls|intros queue_resp].
  apply (adds_le_bind is_poll 0 MAX_POLL_ATTEMPTS); [zero_polls|intros ?].
  apply (adds_le_bind is_poll 0 MAX_POLL_ATTEMPTS); [zero_polls|intros ?].
  apply (adds_le_bind is_poll 0 MAX_POLL_ATTEMPTS); [zero_polls|intros ?].
  apply (adds_le_bind is_poll 0 MAX_POLL_ATTEMPTS); [zero_polls|intros ?].
  apply (adds_le_mono is_poll (MAX_POLL_ATTEMPTS + 0)); [lia|].
  apply adds_le_bind; [apply poll_loop_polls|intros ?].
  unfold fetch_result, download_image. zero_polls.
Qed.

Lemma emit_one f e : adds_le f 1 (emit e).
Proof. intros w. rewrite count_emit. destruct (f e); lia. Qed.

Ltac zero_net :=
  apply (adds_le_zero is_network); quiet.

Lemma poll_once_network url : adds_le is_network 1 (poll_once url).
Proof.
  unfold poll_once, sleep.
  apply (adds_le_bind is_network 0 1); [zero_net|intros u].
  apply (adds_le_bind is_network 1 0); [apply emit_one|intros ?].
  zero_net.
Qed.

Lemma poll_loop_network todo url :
  adds_le is_network todo (poll_loop todo url).
Proof.
  induction todo as [|todo IH]; cbn [poll_loop]; [zero_net|].
  apply (adds_le_bind is_network 1 todo); [apply poll_once_network|].
  intros [s|]; [zero_net|exact IH].
Qed.

Lemma fetch_result_network url : adds_le is_network 1 (fetch_result url).
Proof.
  unfold fetch_result.
  apply (adds_le_bind is_network 0 1); [zero_net|intros u].
  apply (adds_le_bind is_network 1 0); [apply emit_one|intros ?].
  zero_net.
Qed.

Lemma download_image_network url dest :
  adds_le is_network 1 (download_image url dest).
Proof.
  unfold download_image.
  apply (adds_le_bind is_network 0 1); [zero_net|intros u].
  apply (adds_le_bind is_network 1 0); [apply emit_one|intros ?].
  zero_net.
Qed.

(** An attempt makes at most one submission, [MAX_POLL_ATTEMPTS] polls,
    one fetch and one download. *)
Lemma attempt_network q prompt dest :
  adds_le is_network (MAX_POLL_ATTEMPTS + 3) (attempt q prompt dest).
Proof.
  unfold attempt.
  apply (adds_le_mono is_network (1 + (MAX_POLL_ATTEMPTS + 2))); [lia|].
  apply adds_le_bind.
  { unfold submit_request.
    apply (adds_le_bind is_network 1 0); [apply emit_one|intros ?].
    zero_net. }
  intros queue_resp.
  do 4 (apply (adds_le_bind is_network 0 (MAX_POLL_ATTEMPTS + 2));
        [zero_net|intros ?]).
  apply adds_le_bind; [apply poll_loop_network|intros ?].
  apply (adds_le_bind is_network 1 1); [apply fetch_result_network|intros ?].
  apply (adds_le_bind is_network 0 1); [zero_net|intros ?].
  apply (adds_le_bind is_network 1 0);
    [apply download_image_network|intros ?].
  zero_net.
Qed.

Lemma poll_loop_only d todo url : files_only d (poll_loop todo url).
Proof. apply only_kept, poll_loop_files. Qed.

(** An attempt changes no file but the one it downloads to. *)
Lemma attempt_only q prompt dest : files_only dest (attempt q prompt dest).
Proof.
  unfold attempt, submit_request, poll_until_done, fetch_result,
    download_image.
  repeat first [ apply poll_loop_only | only_own ].
Qed.

(** An attempt that returns has stored the downloaded bytes. *)
Lemma attempt_stores q prompt dest w b w' :
  attempt q prompt dest w = (Ok b, w') →
  b = true ∧ ∃ content, files w' !! dest = Some content.
Proof.
  unfold attempt. intros H.
  repeat (apply pbind_inv in H as (? & ? & ? & H)).
  injection H as <- <-. split; [done|].
  match goal with
  | Hd : download_image _ _ _ = _ |- _ =>
      unfold download_image in Hd;
      repeat (apply pbind_inv in Hd as (? & ? & _ & Hd));
      apply (f_equal (λ r, files r.2)) in Hd;
      unfold write_file in Hd; cbn [snd files] in Hd;
      rewrite write_ops_insert in Hd; rewrite <- Hd
  end.
  rewrite lookup_insert_eq. eauto.
Qed.
End AttemptFacts.


Section ItemFacts.
Import Images.
Context `{Svc : Service}.
Local Arguments count : simpl never.
Local Arguments MAX_RETRIES : simpl never.
Local Arguments MAX_POLL_ATTEMPTS : simpl never.
Local Arguments Nat.mul : simpl never.
Local Arguments Nat.pow : simpl never.

(** The world after the [except] branch of round [retry]. *)
Definition after_failure (retry : nat) (w : world) : world :=
  if bool_decide (retry < MAX_RETRIES - 1)
  then (sleep (Backoff (2 ^ (retry + 1))) w).2 else w.

Lemma retry_round todo retry q prompt dest w :
  retry_loop (S todo) retry q prompt dest w
  = match attempt q prompt dest w with
    | (Ok b, w1) => (Ok b, w1)
    | (Raise _, w1) =>
        retry_loop todo (S retry) q prompt dest (after_failure retry w1)
    end.
Proof.
  cbn [retry_loop]. unfold mbind at 1, pipe_bind, try_except.
  unfold mbind at 1, pipe_bind.
  destruct (attempt q prompt dest w) as [[b|e] w1]; [done|].
  unfold after_failure, mbind, pipe_bind. by case_bool_decide.
Qed.

Lemma count_after_failure f retry w :
  count f (after_failure retry w)
  = count f w + (if bool_decide (retry < MAX_RETRIES - 1)
                 then if f (EvSleep (Backoff (2 ^ (retry + 1)))) then 1 else 0
                 else 0).
Proof.
  unfold after_failure. case_bool_decide; [|lia].
  unfold sleep. by rewrite count_emit.
Qed.

Lemma files_after_failure retry w : files (after_failure retry w) = files w.
Proof. unfold after_failure. by case_bool_decide. Qed.

Lemma retry_loop_le f n todo retry q prompt dest :
  adds_le f n (attempt q prompt dest) →
  (∀ k, f (EvSleep (Backoff k)) = false) →
  adds_le f (todo * n) (retry_loop todo retry q prompt dest).
Proof.
  intros Ha Hb. revert retry.
  induction todo as [|todo IH]; intros retry w; [simpl; lia|].
  rewrite retry_round. specialize (Ha w).
  destruct (attempt q prompt dest w) as [[b|e] w1]; simpl in Ha |- *; [lia|].
  specialize (IH (S retry) (after_failure retry w1)).
  rewrite count_after_failure, Hb in IH.
  destruct (bool_decide _); lia.
Qed.

Lemma retry_loop_only todo retry q prompt dest w p :
  p ≠ dest →
  files (retry_loop todo retry q prompt dest w).2 !! p = files w !! p.
Proof.
  intros Hp. revert retry w.
  induction todo as [|todo IH]; intros retry w; [done|].
  rewrite retry_round. pose proof (attempt_only q prompt dest w p Hp) as Ha.
  destruct (attempt q prompt dest w) as [[b|e] w1]; simpl in Ha |- *; [done|].
  by rewrite IH, files_after_failure.
Qed.

Lemma retry_loop_stores todo retry q prompt dest w w' :
  retry_loop todo retry q prompt dest w = (Ok true, w') →
  ∃ content, files w' !! dest = Some content.
Proof.
  revert retry w. induction todo as [|todo IH]; intros retry w; [done|].
  rewrite retry_round.
  destruct (attempt q prompt dest w) as [[b|e] w1] eqn:Ha.
  - intros [= -> ->]. by apply attempt_stores in Ha as [_ ?].
  - apply IH.
Qed.

Lemma retry_loop_quiet f todo retry q prompt dest :
  outside_attempt f → (∀ k, f (EvSleep (Backoff k)) = false) →
  adds f 0 (retry_loop todo retry q prompt dest).
Proof.
  intros Hf Hb. revert retry.
  induction todo as [|todo IH]; intros retry w; [simpl; lia|].
  rewrite retry_round. pose proof (attempt_quiet f q prompt dest Hf w) as Ha.
  destruct (attempt q prompt dest w) as [[b|e] w1]; simpl in Ha |- *; [done|].
  rewrite IH, count_after_failure, Hb. destruct (bool_decide _); lia.
Qed.

(** A loop that comes back with [False] has seen every attempt raise. *)
Lemma retry_loop_failed todo retry q prompt dest w w' :
  retry_loop todo retry q prompt dest w = (Ok false, w') →
  files w' = files w ∧ submits w' = submits w + todo.
Proof.
  revert retry w. induction todo as [|todo IH]; intros retry w.
  { intros [= <-]. split; [done|lia]. }
  rewrite retry_round.
  pose proof (attempt_submits q prompt dest w) as Hs.
  destruct (attempt q prompt dest w) as [[b|e] w1] eqn:Ha.
  { intros [= -> ->]. by apply attempt_stores in Ha as [? _]. }
  intros [Hf Hn]%IH. apply attempt_files in Ha.
  rewrite files_after_failure in Hf. unfold submits in *.
  rewrite count_after_failure in Hn. simpl in Hs, Hn.
  split; [congruence|]. destruct (bool_decide _); lia.
Qed.

Lemma retry_loop_starts todo retry q prompt dest w :
  submits w + 1 ≤ submits (retry_loop (S todo) retry q prompt dest w).2.
Proof.
  assert (∀ n r w0, submits w0 ≤ submits (retry_loop n r q prompt dest w0).2)
    as Hmono.
  { induction n as [|n IH]; intros r w0; [done|].
    rewrite retry_round. pose proof (attempt_submits q prompt dest w0) as Hs.
    destruct (attempt q prompt dest w0) as [[b|e] w1]; simpl in Hs |- *;
      unfold submits in *; [lia|].
    specialize (IH (S r) (after_failure r w1)).
    rewrite count_after_failure in IH. simpl in IH.
    destruct (bool_decide _); lia. }
  rewrite retry_round. pose proof (attempt_submits q prompt dest w) as Hs.
  destruct (attempt q prompt dest w) as [[b|e] w1]; simpl in Hs |- *;
    unfold submits in *; [lia|].
  specialize (Hmono todo (S retry) (after_failure retry w1)).
  unfold submits in Hmono. rewrite count_after_failure in Hmono.
  simpl in Hmono. destruct (bool_decide _); lia.
Qed.

Lemma generate_single_le f n q tid prompt force :
  adds_le f n (attempt q prompt (dest_path_of tid)) →
  (∀ k, f (EvSleep (Backoff k)) = false) →
  adds_le f (MAX_RETRIES * n) (generate_single q tid prompt force).
Proof.
  intros Ha Hb w. unfold generate_single.
  destruct (negb force && done_on_disk (files w) (dest_path_of tid));
    [simpl; lia|].
  by apply retry_loop_le.
Qed.

Lemma generate_single_quiet f q tid prompt force :
  outside_attempt f → (∀ k, f (EvSleep (Backoff k)) = false) →
  adds f 0 (generate_single q tid prompt force).
Proof.
  intros Hf Hb w. unfold generate_single.
  destruct (negb force && done_on_disk (files w) (dest_path_of tid));
    [simpl; lia|].
  by apply retry_loop_quiet.
Qed.

Lemma generate_single_only q tid prompt force :
  files_only (dest_path_of tid) (generate_single q tid prompt force).
Proof.
  intros w p Hp. unfold generate_single.
  destruct (negb force && done_on_disk (files w) (dest_path_of tid)); [done|].
  by apply retry_loop_only.
Qed.

Lemma generate_single_starts q tid prompt force w :
  force = true ∨ done_on_disk (files w) (dest_path_of tid) = false →
  submits w + 1 ≤ submits (generate_single q tid prompt force w).2.
Proof.
  intros Hrun. unfold generate_single.
  replace (negb force && done_on_disk (files w) (dest_path_of tid))
    with false by (by destruct Hrun as [-> | ->]; [|rewrite andb_false_r]).
  apply retry_loop_starts.
Qed.

(** X1.  One item costs at most [MAX_RETRIES] submissions,
    [MAX_RETRIES * MAX_POLL_ATTEMPTS] polls and
    [MAX_RETRIES * (MAX_POLL_ATTEMPTS + 3)] requests in all, whatever the
    service does. *)
Theorem item_effort_bounded q tid prompt force w :
  submits (generate_single q tid prompt force w).2 ≤ submits w + MAX_RETRIES
  ∧ polls (generate_single q tid prompt force w).2
    ≤ polls w + MAX_RETRIES * MAX_POLL_ATTEMPTS
  ∧ network_ops (generate_single q tid prompt force w).2
    ≤ network_ops w + MAX_RETRIES * (MAX_POLL_ATTEMPTS + 3).
Proof.
  split_and!.
  - pose proof (generate_single_le is_submit 1 q tid prompt force
                  (adds_weaken _ _ _ (attempt_submits _ _ _))
                  (λ _, eq_refl) w) as H.
    unfold submits. lia.
  - apply (generate_single_le is_poll); [apply attempt_polls|done].
  - apply (generate_single_le is_network); [apply attempt_network|done].
Qed.

(** X2.  An item changes no file but its own image. *)
Theorem item_touches_own_file q tid prompt force w p :
  p ≠ dest_path_of tid →
  files (generate_single q tid prompt force w).2 !! p = files w !! p.
Proof. apply generate_single_only. Qed.

(** X3.  When an item is reported done, its image file exists; and unless
    the downloaded image was empty, asking for the item again without
    force is answered from the disk, with nothing changed. *)
Theorem success_leaves_artifact q tid prompt force w w' :
  generate_single q tid prompt force w = (Ok true, w') →
  ∃ content,
    files w' !! dest_path_of tid = Some content
    ∧ (content ≠ [] →
       generate_single q tid prompt false w' = (Ok true, w')).
Proof.
  intros Hg.
  assert (∃ content, files w' !! dest_path_of tid = Some content)
    as [content Hc].
  { unfold generate_single in Hg.
    destruct (negb force && done_on_disk (files w) (dest_path_of tid)) eqn:Hd.
    - injection Hg as <-. apply andb_true_iff in Hd as [_ Hd].
      unfold done_on_disk in Hd.
      destruct (files w !! dest_path_of tid) as [c|]; [eauto|done].
    - by apply retry_loop_stores in Hg. }
  exists content. split; [done|]. intros Hne.
  unfold generate_single. simpl. unfold done_on_disk. rewrite Hc.
  rewrite bool_decide_eq_true_2; [done|].
  destruct content; [done|simpl; lia].
Qed.

(** X4.  An item comes back as failed only after [MAX_RETRIES] attempts
    that all raised, and only when it was not skipped; and when none of
    these attempts got as far as requesting the download, no file has
    changed. *)
Theorem failed_item_leaves_files q tid prompt force w w' :
  generate_single q tid prompt force w = (Ok false, w') →
  submits w' = submits w + MAX_RETRIES
  ∧ (force = true ∨ done_on_disk (files w) (dest_path_of tid) = false)
  ∧ (count is_download w' = count is_download w → files w' = files w).
Proof.
  unfold generate_single.
  destruct (negb force && done_on_disk (files w) (dest_path_of tid)) eqn:Hd;
    [done|].
  intros [Hf Hn]%retry_loop_failed. split_and!; [done| |done].
  apply andb_false_iff in Hd as [Hd|Hd]; [left|by right].
  by destruct force.
Qed.

End ItemFacts.


Section TraceFacts.
Import Images.
Context `{Svc : Service}.
Local Arguments MAX_POLL_ATTEMPTS : simpl never.

(** The service after [k] polls of [u]. *)
Fixpoint after_polls (u : string) (k : nat) (s : remote) : remote :=
  match k with
  | 0 => s
  | S k' => after_polls u k' (http_get_json u s).2
  end.

(** The events of [k] polls that found the request in progress. *)
Definition waiting (u : string) (k : nat) : list event :=
  mjoin (replicate k [EvPoll u; EvSleep PollInterval]).

Definition is_poll_sleep (e : event) : bool :=
  match e with EvSleep PollInterval => true | _ => false end.

Ltac run_steps :=
  unfold poll_once, fetch_result, download_image, submit_request, write_file,
    plift, as_url, emit, call, sleep, praise, mbind, pipe_bind, mret,
    pipe_ret; cbn [service files log fst snd].

Lemma poll_once_waits u w :
  in_progress (http_get_json u (service w)).1 →
  poll_once (JStr u) w
  = (Ok None, {| service := (http_get_json u (service w)).2;
                 files := files w;
                 log := log w ++ [EvPoll u; EvSleep PollInterval] |}).
Proof.
  intros (data & st & Hr & Hst & H1 & H2 & H3). run_steps.
  destruct (http_get_json u (service w)) as [r s]. simpl in Hr |- *.
  subst r. rewrite Hst, H1, H2, H3. cbn [service files log].
  by rewrite <- app_assoc.
Qed.

Lemma poll_once_completed u w :
  reports "COMPLETED" (http_get_json u (service w)).1 →
  poll_once (JStr u) w
  = (Ok (Some "COMPLETED"),
     {| service := (http_get_json u (service w)).2; files := files w;
        log := log w ++ [EvPoll u] |}).
Proof.
  intros (data & Hr & Hst). run_steps.
  destruct (http_get_json u (service w)) as [r s]. simpl in Hr |- *.
  subst r. by rewrite Hst.
Qed.

Lemma poll_once_raises u w e :
  (http_get_json u (service w)).1 = Raise e →
  poll_once (JStr u) w
  = (Raise e, {| service := (http_get_json u (service w)).2;
                 files := files w; log := log w ++ [EvPoll u] |}).
Proof.
  intros Hr. run_steps.
  destruct (http_get_json u (service w)) as [r s]. simpl in Hr |- *.
  by subst r.
Qed.

Lemma poll_once_not_dict u w data :
  (http_get_json u (service w)).1 = Ok data → is_dict data = false →
  poll_once (JStr u) w
  = (Raise AttributeError,
     {| service := (http_get_json u (service w)).2;
        files := files w; log := log w ++ [EvPoll u] |}).
Proof.
  intros Hr Hd. run_steps.
  destruct (http_get_json u (service w)) as [r s]. simpl in Hr |- *.
  subst r. by destruct data.
Qed.

Lemma answer_at_after u k s :
  answer_at u k s = (http_get_json u (after_polls u k s)).1.
Proof. revert s. induction k as [|k IH]; intros s; [done|apply IH]. Qed.

Lemma after_polls_S u k s :
  after_polls u (S k) s = (http_get_json u (after_polls u k s)).2.
Proof. revert s. induction k as [|k IH]; intros s; [done|apply IH]. Qed.

Lemma waiting_S u k :
  waiting u (S k) = waiting u k ++ [EvPoll u; EvSleep PollInterval].
Proof.
  unfold waiting. induction k as [|k IH]; [done|].
  change (mjoin (replicate (S (S k)) [EvPoll u; EvSleep PollInterval]))
    with ([EvPoll u; EvSleep PollInterval]
          ++ mjoin (replicate (S k) [EvPoll u; EvSleep PollInterval])).
  rewrite IH at 1. by rewrite app_assoc.
Qed.

Lemma poll_loop_waits u i todo w :
  (∀ k, k < i → in_progress (answer_at u k (service w))) →
  poll_loop (i + todo) (JStr u) w
  = poll_loop todo (JStr u)
      {| service := after_polls u i (service w); files := files w;
         log := log w ++ waiting u i |}.
Proof.
  revert w. induction i as [|i IH]; intros w Hall.
  { simpl. rewrite app_nil_r. by destruct w. }
  cbn [Nat.add poll_loop]. unfold mbind at 1, pipe_bind.
  rewrite poll_once_waits by (apply (Hall 0); lia).
  rewrite IH by (intros k Hk; apply (Hall (S k)); lia).
  cbn [service files log after_polls]. do 2 f_equal.
  by rewrite <- app_assoc.
Qed.

Lemma poll_completes_at u w i :
  i < MAX_POLL_ATTEMPTS →
  (∀ k, k < i → in_progress (answer_at u k (service w))) →
  reports "COMPLETED" (answer_at u i (service w)) →
  poll_until_done (JStr u) w
  = (Ok "COMPLETED",
     {| service := after_polls u (S i) (service w); files := files w;
        log := log w ++ waiting u i ++ [EvPoll u] |}).
Proof.
  intros Hi Hall Hrep. unfold poll_until_done.
  replace MAX_POLL_ATTEMPTS with (i + S (MAX_POLL_ATTEMPTS - S i)) by lia.
  rewrite poll_loop_waits by done. cbn [poll_loop].
  unfold mbind at 1, pipe_bind. rewrite answer_at_after in Hrep.
  rewrite poll_once_completed by done.
  cbn [service files log]. by rewrite after_polls_S, <- app_assoc.
Qed.

Lemma poll_gives_up u w :
  (∀ k, k < MAX_POLL_ATTEMPTS → in_progress (answer_at u k (service w))) →
  poll_until_done (JStr u) w
  = (Raise TimeoutError,
     {| service := after_polls u MAX_POLL_ATTEMPTS (service w);
        files := files w;
        log := log w ++ waiting u MAX_POLL_ATTEMPTS |}).
Proof.
  intros Hall. unfold poll_until_done.
  replace MAX_POLL_ATTEMPTS with (MAX_POLL_ATTEMPTS + 0) at 1 by lia.
  by rewrite poll_loop_waits.
Qed.

(** X6.  The polls of one request, event by event.  A request found
    in progress [i] times and then COMPLETED is polled [i + 1] times with a
    sleep after each poll but the last; a request that stays in progress is
    polled [MAX_POLL_ATTEMPTS] times with a sleep after every poll, the
    last one included, before the [TimeoutError].  No file changes. *)
Theorem poll_trace u w :
  (∀ i, i < MAX_POLL_ATTEMPTS →
        (∀ k, k < i → in_progress (answer_at u k (service w))) →
        reports "COMPLETED" (answer_at u i (service w)) →
        poll_until_done (JStr u) w
        = (Ok "COMPLETED",
           {| service := after_polls u (S i) (service w); files := files w;
              log := log w ++ waiting u i ++ [EvPoll u] |}))
  ∧ ((∀ k, k < MAX_POLL_ATTEMPTS →
           in_progress (answer_at u k (service w))) →
     poll_until_done (JStr u) w
     = (Raise TimeoutError,
        {| service := after_polls u MAX_POLL_ATTEMPTS (service w);
           files := files w;
           log := log w ++ waiting u MAX_POLL_ATTEMPTS |})).
Proof. split; [apply poll_completes_at|apply poll_gives_up]. Qed.

(** X7.  An exception of a poll request ends the polling at once with that
    exception, and so does an answer that is not a JSON object, with
    [AttributeError]: the failed poll is the last event, with no sleep and
    no further poll after it. *)
Theorem poll_error_propagates u w i :
  i < MAX_POLL_ATTEMPTS →
  (∀ k, k < i → in_progress (answer_at u k (service w))) →
  (∀ e, answer_at u i (service w) = Raise e →
        poll_until_done (JStr u) w
        = (Raise e,
           {| service := after_polls u (S i) (service w); files := files w;
              log := log w ++ waiting u i ++ [EvPoll u] |}))
  ∧ (∀ data, answer_at u i (service w) = Ok data → is_dict data = false →
        poll_until_done (JStr u) w
        = (Raise AttributeError,
           {| service := after_polls u (S i) (service w); files := files w;
              log := log w ++ waiting u i ++ [EvPoll u] |})).
Proof.
  intros Hi Hall. unfold poll_until_done.
  replace MAX_POLL_ATTEMPTS with (i + S (MAX_POLL_ATTEMPTS - S i)) by lia.
  rewrite poll_loop_waits by done. cbn [poll_loop].
  rewrite !answer_at_after. split.
  - intros e He. unfold mbind at 1, pipe_bind.
    rewrite (poll_once_raises _ _ e) by done.
    cbn [service files log]. by rewrite after_polls_S, <- app_assoc.
  - intros data Hd Hnd. unfold mbind at 1, pipe_bind.
    rewrite (poll_once_not_dict _ _ data) by done.
    cbn [service files log]. by rewrite after_polls_S, <- app_assoc.
Qed.

(** An answer without a [status] key, or with a status the loop does not
    know, counts as in progress. *)
Lemma unknown_status_in_progress kvs :
  match assoc "status" kvs with
  | None => True
  | Some st => status_is st "COMPLETED" = false
               ∧ status_is st "FAILED" = false
               ∧ status_is st "CANCELLED" = false
  end →
  in_progress (Ok (JObj kvs)).
Proof.
  intros H. unfold in_progress, status_of, py_get.
  exists (JObj kvs), (default (JStr "UNKNOWN") (assoc "status" kvs)).
  destruct (assoc "status" kvs) as [st|]; simpl.
  - by destruct H as (? & ? & ?).
  - done.
Qed.

(** X8.  A service whose answers never carry a [status] key is polled
    [MAX_POLL_ATTEMPTS] times and given up with [TimeoutError]: a missing
    status is read as UNKNOWN, which is not an error. *)
Theorem missing_status_times_out u w :
  (∀ k, k < MAX_POLL_ATTEMPTS →
        ∃ kvs, answer_at u k (service w) = Ok (JObj kvs)
               ∧ assoc "status" kvs = None) →
  ∃ w', poll_until_done (JStr u) w = (Raise TimeoutError, w')
        ∧ count is_poll w' = count is_poll w + MAX_POLL_ATTEMPTS
        ∧ count is_poll_sleep w' = count is_poll_sleep w + MAX_POLL_ATTEMPTS.
Proof.
  intros Hall.
  rewrite poll_gives_up.
  - eexists. split; [done|]. unfold count. cbn [log].
    rewrite !List.filter_app, !length_app.
    generalize MAX_POLL_ATTEMPTS. intros n. clear.
    assert (length (List.filter is_poll (waiting u n)) = n
            ∧ length (List.filter is_poll_sleep (waiting u n)) = n) as [-> ->];
      [|done].
    induction n as [|n [IH1 IH2]]; [done|].
    rewrite waiting_S, !List.filter_app, !length_app, IH1, IH2. simpl. lia.
  - intros k Hk. destruct (Hall k Hk) as (kvs & -> & Hs).
    apply unknown_status_in_progress. by rewrite Hs.
Qed.

(** The queue answer names both URLs. *)
Definition names_urls (resp : json) (status_url response_url : string)
    : Prop :=
  ∃ kvs, resp = JObj kvs
         ∧ assoc "status_url" kvs = Some (JStr status_url)
         ∧ assoc "response_url" kvs = Some (JStr response_url)
         ∧ status_url ≠ "" ∧ response_url ≠ "".

Lemma plift_ok {A B} (a : A) (f : A → Pipe B) w :
  (plift (Ok a) ≫= f) w = f a w.
Proof. done. Qed.

Lemma pret_bind {A B} (a : A) (f : A → Pipe B) w : (mret a ≫= f) w = f a w.
Proof. done. Qed.

Lemma truth_JStr s : s ≠ "" → truth (JStr s) = true.
Proof. intros Hs. simpl. by destruct s. Qed.

(** X9.  An attempt that meets no error.  The submission is answered with
    both URLs, the first poll reports COMPLETED, the result holds an image
    URL and the download succeeds: the attempt makes exactly these four
    requests in this order, without a sleep, stores the downloaded bytes at
    the destination and returns [True]. *)
Theorem attempt_succeeds q prompt dest w resp su ru s1 res s3 iu content s4 :
  http_post q (submit_payload prompt) (service w) = (Ok resp, s1) →
  names_urls resp su ru →
  reports "COMPLETED" (http_get_json su s1).1 →
  http_get_json ru (http_get_json su s1).2 = (Ok res, s3) →
  extract_image_url res = Ok (JStr iu) →
  http_get_bytes iu s3 = (Ok content, s4) →
  attempt q prompt dest w
  = (Ok true,
     {| service := s4;
        files := <[dest := content]> (files w);
        log := log w ++ [EvSubmit prompt; EvPoll su; EvFetch ru;
                         EvDownload iu] |}).
Proof.
  intros Hpost (kvs & -> & Hsu & Hru & Hs & Hr) Hrep Hres Hex Hget.
  unfold attempt.
  rewrite (pbind_ok _ _ w (JObj kvs)
             {| service := s1; files := files w;
                log := log w ++ [EvSubmit prompt] |})
    by (run_steps; by rewrite Hpost).
  cbn [py_get]. rewrite Hsu, Hru. cbn [default from_option id].
  do 3 (rewrite plift_ok; cbn beta).
  rewrite !truth_JStr by done. cbn [negb orb].
  rewrite pret_bind.
  rewrite (pbind_ok _ _ _ _ _
             (poll_completes_at su
                {| service := s1; files := files w;
                   log := log w ++ [EvSubmit prompt] |} 0
                ltac:(unfold MAX_POLL_ATTEMPTS; lia)
                ltac:(intros; lia) Hrep)).
  cbn [after_polls waiting replicate mjoin service app].
  rewrite (pbind_ok _ _ _ res
             {| service := s3; files := files w;
                log := log w ++ [EvSubmit prompt; EvPoll su; EvFetch ru] |}).
  2:{ run_steps. rewrite Hres. by rewrite <- !app_assoc. }
  rewrite Hex, plift_ok.
  rewrite (pbind_ok _ _ _ ()
             {| service := s4; files := <[dest := content]> (files w);
                log := log w ++ [EvSubmit prompt; EvPoll su; EvFetch ru;
                                 EvDownload iu] |}); [done|].
  run_steps. rewrite Hget. cbn [service files log].
  by rewrite write_ops_insert, <- !app_assoc.
Qed.

(** X10.  A queue answer that lacks one of the two URLs, or gives an empty
    one, ends the attempt with a [RuntimeError] right after the
    submission, and an answer that is not a JSON object ends it with
    [AttributeError]: nothing is polled, fetched or downloaded and no
    file changes. *)
Theorem attempt_without_urls q prompt dest w resp s1 :
  http_post q (submit_payload prompt) (service w) = (Ok resp, s1) →
  (is_dict resp = false →
   attempt q prompt dest w
   = (Raise AttributeError,
      {| service := s1; files := files w;
         log := log w ++ [EvSubmit prompt] |}))
  ∧ (∀ kvs, resp = JObj kvs →
       truth (default JNull (assoc "status_url" kvs)) = false
       ∨ truth (default JNull (assoc "response_url" kvs)) = false →
       attempt q prompt dest w
       = (Raise (RuntimeError MissingUrls),
          {| service := s1; files := files w;
             log := log w ++ [EvSubmit prompt] |})).
Proof.
  intros Hpost.
  assert (submit_request q prompt w
          = (Ok resp, {| service := s1; files := files w;
                         log := log w ++ [EvSubmit prompt] |})) as Hsub.
  { run_steps. by rewrite Hpost. }
  unfold attempt. rewrite (pbind_ok _ _ _ _ _ Hsub). split.
  - intros Hd. by destruct resp.
  - intros kvs -> Hmiss. cbn [py_get].
    do 3 (rewrite plift_ok; cbn beta).
    by destruct Hmiss as [-> | ->]; rewrite ?orb_true_r.
Qed.

(** An exception of the submission itself ends the attempt with that
    exception after the one request. *)
Lemma attempt_submit_raises q prompt dest w e s1 :
  http_post q (submit_payload prompt) (service w) = (Raise e, s1) →
  attempt q prompt dest w
  = (Raise e, {| service := s1; files := files w;
                 log := log w ++ [EvSubmit prompt] |}).
Proof.
  intros Hpost. unfold attempt. apply pbind_raise.
  run_steps. by rewrite Hpost.
Qed.
End TraceFacts.


Section RunFacts.
Import Images.
Context `{Svc : Service}.
Local Arguments count : simpl never.
Local Arguments MAX_RETRIES : simpl never.
Local Arguments MAX_POLL_ATTEMPTS : simpl never.
Local Arguments Nat.mul : simpl never.

(** The ids of the collection among [ids], in their order. *)
Definition known (agents_by_id : gmap nat item) (ids : list nat) : list nat :=
  filter (λ tid, is_Some (agents_by_id !! tid)) ids.

Lemma triage_counts agents_by_id force fs ids :
  let '(done, to_generate) := triage agents_by_id force fs ids in
  done + length to_generate = length (known agents_by_id ids)
  ∧ to_generate `sublist_of` known agents_by_id ids
  ∧ (force = true → done = 0 ∧ to_generate = known agents_by_id ids).
Proof.
  unfold known. induction ids as [|i ids IH]; [by simpl|].
  simpl. destruct (triage agents_by_id force fs ids) as [done to_generate].
  destruct IH as (IH1 & IH2 & IH3).
  destruct (agents_by_id !! i) as [a|] eqn:Ha.
  - rewrite filter_cons_True by (by rewrite Ha).
    destruct (negb force && done_on_disk fs (dest_path_of i)) eqn:Hd.
    + split_and!; [simpl; lia|by apply sublist_cons|].
      intros ->. done.
    + split_and!; [simpl; lia|by apply sublist_skip|].
      intros Hf. destruct (IH3 Hf) as [-> ->]. done.
  - rewrite filter_cons_False by (rewrite Ha; by intros [? ?]). done.
Qed.

Lemma known_sublist agents_by_id ids : known agents_by_id ids `sublist_of` ids.
Proof. apply sublist_filter. Qed.

Lemma between_sleep_count {A} (rest : list A) w :
  count is_between
    ((match rest with [] => mret () | _ => sleep BetweenRequests end) w).2
  = count is_between w + (if rest is [] then 0 else 1).
Proof.
  destruct rest; [simpl; lia|]. unfold sleep. by rewrite count_emit.
Qed.

(** What the loop over the items does to the report and to the log. *)
Lemma generate_loop_accounts q agents_by_id force ids r w :
  (∀ tid, tid ∈ ids → is_Some (agents_by_id !! tid)) →
  ∃ r' w' failed,
    generate_loop q agents_by_id force ids r w = (Ok r', w')
    ∧ successes r' + length failed = successes r + length ids
    ∧ failures r' = failures r + length failed
    ∧ failed_ids r' = failed_ids r ++ failed
    ∧ failed `sublist_of` ids
    ∧ already_done r' = already_done r
    ∧ count is_between w' = count is_between w + (length ids - 1).
Proof.
  revert r w. induction ids as [|tid ids IH]; intros r w Hin.
  { exists r, w, []. simpl. rewrite app_nil_r. split_and!; done || lia. }
  cbn [generate_loop].
  destruct (Hin tid) as [a Ha]; [by left|]. rewrite Ha.
  rewrite plift_ok.
  destruct (generate_single_total q tid (item_prompt a) force w)
    as (ok & w1 & Hg).
  pose proof (generate_single_quiet is_between q tid (item_prompt a) force)
    as Hq.
  specialize (Hq ltac:(split; [by intros []|done]) ltac:(done) w).
  rewrite (pbind_ok _ _ _ _ _ Hg). rewrite Hg in Hq. simpl in Hq.
  unfold mbind at 1, pipe_bind.
  pose proof (between_sleep_count ids w1) as Hb.
  destruct ((match ids with [] => mret () | _ => sleep BetweenRequests end) w1)
    as [[[]|e] w2] eqn:Hs; [|by destruct ids].
  simpl in Hb.
  match goal with
  | |- context [generate_loop _ _ _ ids ?r1 w2] =>
      destruct (IH r1 w2) as (r' & w' & failed & Hl & H1 & H2 & H3 & H4 & H5
                              & H6); [by intros; apply Hin; right|]
  end.
  destruct ok; cbn [successes failures failed_ids already_done] in *.
  - exists r', w', failed. split_and!; [done|simpl; lia|done..| |done|].
    + by apply sublist_cons.
    + rewrite H6, Hb, Hq. destruct ids; simpl; lia.
  - exists r', w', (tid :: failed).
    split_and!; [done|simpl; lia|simpl; lia| | |done|].
    + by rewrite H3, <- app_assoc.
    + by apply sublist_skip.
    + rewrite H6, Hb, Hq. destruct ids; simpl; lia.
Qed.

Lemma generate_loop_le f n q agents_by_id force ids r :
  (∀ tid prompt, adds_le f n (attempt q prompt (dest_path_of tid))) →
  (∀ d, f (EvSleep d) = false) →
  adds_le f (length ids * (MAX_RETRIES * n))
    (generate_loop q agents_by_id force ids r).
Proof.
  intros Ha Hs. revert r. induction ids as [|tid ids IH]; intros r w.
  { simpl. lia. }
  cbn [generate_loop]. destruct (agents_by_id !! tid) as [a|];
    [|simpl; lia].
  rewrite plift_ok. unfold mbind at 1, pipe_bind.
  pose proof (generate_single_le f n q tid (item_prompt a) force
                (Ha _ _) (λ k, Hs _) w) as Hg.
  destruct (generate_single q tid (item_prompt a) force w) as [[ok|e] w1];
    simpl in Hg |- *; [|lia].
  unfold mbind at 1, pipe_bind.
  assert (count f ((match ids with [] => mret ()
                    | _ => sleep BetweenRequests end) w1).2 = count f w1)
    as Hb.
  { destruct ids; [done|]. unfold sleep. rewrite count_emit, Hs. lia. }
  destruct ((match ids with [] => mret () | _ => sleep BetweenRequests end) w1)
    as [[[]|e] w2]; simpl in Hb |- *; [|lia].
  match goal with
  | |- context [generate_loop _ _ _ ids ?r1 w2] => specialize (IH r1 w2)
  end.
  lia.
Qed.

Lemma generate_loop_only q agents_by_id force ids r w p :
  (∀ tid, tid ∈ ids → p ≠ dest_path_of tid) →
  files (generate_loop q agents_by_id force ids r w).2 !! p = files w !! p.
Proof.
  revert r w. induction ids as [|tid ids IH]; intros r w Hp; [done|].
  cbn [generate_loop]. destruct (agents_by_id !! tid) as [a|]; [|done].
  rewrite plift_ok. unfold mbind at 1, pipe_bind.
  pose proof (generate_single_only q tid (item_prompt a) force w p
                (Hp tid ltac:(by left))) as Hg.
  destruct (generate_single q tid (item_prompt a) force w) as [[ok|e] w1];
    simpl in Hg |- *; [|done].
  unfold mbind at 1, pipe_bind.
  assert (files ((match ids with [] => mret ()
                  | _ => sleep BetweenRequests end) w1).2 = files w1) as Hb.
  { by destruct ids. }
  destruct ((match ids with [] => mret () | _ => sleep BetweenRequests end) w1)
    as [[[]|e] w2]; simpl in Hb |- *; [|congruence].
  rewrite IH by (intros; apply Hp; by right). congruence.
Qed.

(** With force on, every item is started. *)
Lemma generate_loop_starts q agents_by_id ids r w :
  (∀ tid, tid ∈ ids → is_Some (agents_by_id !! tid)) →
  submits w + length ids
  ≤ submits (generate_loop q agents_by_id true ids r w).2.
Proof.
  revert r w. induction ids as [|tid ids IH]; intros r w Hin.
  { simpl. lia. }
  cbn [generate_loop].
  destruct (Hin tid) as [a Ha]; [by left|]. rewrite Ha.
  rewrite plift_ok.
  destruct (generate_single_total q tid (item_prompt a) true w)
    as (ok & w1 & Hg).
  pose proof (generate_single_starts q tid (item_prompt a) true w
                ltac:(by left)) as Hs.
  rewrite (pbind_ok _ _ _ _ _ Hg). rewrite Hg in Hs. simpl in Hs.
  unfold mbind at 1, pipe_bind.
  assert (submits ((match ids with [] => mret ()
                    | _ => sleep BetweenRequests end) w1).2 = submits w1)
    as Hb.
  { destruct ids; [done|]. unfold sleep, submits. rewrite count_emit.
    simpl. lia. }
  destruct ((match ids with [] => mret () | _ => sleep BetweenRequests end) w1)
    as [[[]|e] w2] eqn:Hsl; [|by destruct ids].
  simpl in Hb.
  match goal with
  | |- context [generate_loop _ _ _ ids ?r1 w2] =>
      specialize (IH r1 w2 ltac:(by intros; apply Hin; right))
  end.
  simpl. lia.
Qed.

Lemma triage_known agents_by_id force fs ids tid :
  tid ∈ (triage agents_by_id force fs ids).2 → is_Some (agents_by_id !! tid).
Proof. by intros [? _]%triage_pending. Qed.

(** X11.  The report of a run.  The run always returns a report; every
    item to generate is counted once, as a success or as a failure; the
    failed ids are listed in the order of the run and are as many as the
    failures; the items found on disk and those to generate are together
    the requested ids that the collection has, the others being skipped. *)
Theorem run_accounting q agents_by_id start end_ redo w :
  let ids := ids_of start end_ redo in
  let to_generate := (triage agents_by_id (forced redo) (files w) ids).2 in
  ∃ r w',
    main q agents_by_id start end_ redo w = (Ok r, w')
    ∧ successes r + failures r = length to_generate
    ∧ failures r = length (failed_ids r)
    ∧ failed_ids r `sublist_of` to_generate
    ∧ to_generate `sublist_of` ids
    ∧ already_done r + length to_generate
      = length (known agents_by_id ids).
Proof.
  cbv zeta. rewrite main_unfold.
  pose proof (triage_counts agents_by_id (forced redo) (files w)
                (ids_of start end_ redo)) as Ht.
  destruct (triage agents_by_id (forced redo) (files w)
              (ids_of start end_ redo)) as [done to_generate] eqn:Htr.
  destruct Ht as (Ht1 & Ht2 & _). cbn [fst snd].
  destruct (generate_loop_accounts q agents_by_id (forced redo) to_generate
              {| successes := 0; failures := 0; failed_ids := [];
                 already_done := done |} w)
    as (r & w' & failed & Hl & H1 & H2 & H3 & H4 & H5 & _).
  { intros tid Hin. apply (triage_known _ (forced redo) (files w)
                             (ids_of start end_ redo)). by rewrite Htr. }
  exists r, w'. cbn [successes failures failed_ids already_done] in *.
  split_and!; [done|lia|by rewrite H3, H2|by rewrite H3| |lia].
  etrans; [done|apply known_sublist].
Qed.

(** X12.  The cost of a run is bounded by the number of items to generate:
    at most [MAX_RETRIES] submissions, [MAX_RETRIES * MAX_POLL_ATTEMPTS]
    polls and [MAX_RETRIES * (MAX_POLL_ATTEMPTS + 3)] requests for each of
    them, whatever the service answers. *)
Theorem run_effort_bounded q agents_by_id start end_ redo w :
  let n := length (triage agents_by_id (forced redo) (files w)
                     (ids_of start end_ redo)).2 in
  let w' := (main q agents_by_id start end_ redo w).2 in
  submits w' ≤ submits w + n * MAX_RETRIES
  ∧ polls w' ≤ polls w + n * (MAX_RETRIES * MAX_POLL_ATTEMPTS)
  ∧ network_ops w'
    ≤ network_ops w + n * (MAX_RETRIES * (MAX_POLL_ATTEMPTS + 3)).
Proof.
  cbv zeta. rewrite main_unfold. unfold submits, polls, network_ops.
  split_and!.
  - etrans; [apply (generate_loop_le is_submit 1)|].
    + intros. apply adds_weaken, attempt_submits.
    + done.
    + lia.
  - apply (generate_loop_le is_poll); [intros; apply attempt_polls|done].
  - apply (generate_loop_le is_network); [intros; apply attempt_network|done].
Qed.


(** X14.  In redo mode the files on disk are not consulted: nothing counts
    as already done, every listed id of the collection is generated again,
    in the order given and as often as it is listed, each with at least
    one submission. *)
Theorem redo_regenerates q agents_by_id start end_ ids w :
  triage agents_by_id true (files w) ids = (0, known agents_by_id ids)
  ∧ ∃ r w',
      main q agents_by_id start end_ (Some ids) w = (Ok r, w')
      ∧ already_done r = 0
      ∧ successes r + failures r = length (known agents_by_id ids)
      ∧ submits w + length (known agents_by_id ids) ≤ submits w'.
Proof.
  pose proof (triage_counts agents_by_id true (files w) ids) as Ht.
  destruct (triage agents_by_id true (files w) ids) as [done to_generate]
    eqn:Htr.
  destruct Ht as (_ & _ & Ht). destruct (Ht eq_refl) as [-> ->].
  split; [done|].
  rewrite main_unfold. cbn [forced ids_of]. rewrite Htr. cbn [fst snd].
  assert (∀ tid, tid ∈ known agents_by_id ids → is_Some (agents_by_id !! tid))
    as Hin.
  { intros tid. unfold known. by intros [? _]%list_elem_of_filter. }
  match goal with
  | |- context [generate_loop q agents_by_id true ?l ?r0 w] =>
      destruct (generate_loop_accounts q agents_by_id true l r0 w Hin)
        as (r & w' & failed & Hl & H1 & H2 & H3 & H4 & H5 & _);
      pose proof (generate_loop_starts q agents_by_id l r0 w Hin) as Hs
  end.
  rewrite Hl in Hs. exists r, w'.
  cbn [successes failures failed_ids already_done] in *.
  split_and!; [done|done|lia|done].
Qed.

(** X15.  A run writes nothing but the images of the items it generates:
    every other file, the collection file among them, is as it was. *)
Theorem run_touches_only_images q agents_by_id start end_ redo w p :
  (∀ tid, tid ∈ (triage agents_by_id (forced redo) (files w)
                   (ids_of start end_ redo)).2 →
          p ≠ dest_path_of tid) →
  files (main q agents_by_id start end_ redo w).2 !! p = files w !! p.
Proof. intros Hp. rewrite main_unfold. by apply generate_loop_only. Qed.
End RunFacts.


(** * File names *)

Definition is_digit (c : Ascii.ascii) : bool :=
  (48 <=? nat_of_ascii c) && (nat_of_ascii c <=? 57).

Fixpoint all_chars (f : Ascii.ascii → bool) (s : string) : bool :=
  match s with
  | EmptyString => true
  | String c s' => f c && all_chars f s'
  end.

Section FormatFacts.
Local Arguments String.append !_ _ /.

Lemma length_append s1 s2 :
  String.length (s1 +:+ s2) = String.length s1 + String.length s2.
Proof. induction s1 as [|a s1 IH]; simpl; congruence. Qed.

Lemma append_inj_l s t1 t2 : s +:+ t1 = s +:+ t2 → t1 = t2.
Proof. induction s as [|a s IH]; simpl; [done|]. intros [= ?]. auto. Qed.

Lemma append_inj_r s1 s2 t :
  s1 +:+ t = s2 +:+ t → s1 = s2.
Proof.
  revert s2. induction s1 as [|a s1 IH]; intros [|b s2] H; simpl in H.
  - done.
  - apply (f_equal String.length) in H. simpl in H.
    rewrite length_append in H. lia.
  - apply (f_equal String.length) in H. simpl in H.
    rewrite length_append in H. lia.
  - injection H as -> H. f_equal. by apply IH.
Qed.

Lemma all_chars_append f s1 s2 :
  all_chars f (s1 +:+ s2) = all_chars f s1 && all_chars f s2.
Proof.
  induction s1 as [|a s1 IH]; simpl; [done|]. by rewrite IH, andb_assoc.
Qed.

Lemma pretty_N_char_digit x : is_digit (pretty_N_char x) = true.
Proof. unfold pretty_N_char. by repeat case_match. Qed.

Lemma pretty_N_go_digits x s :
  all_chars is_digit s = true → all_chars is_digit (pretty_N_go x s) = true.
Proof.
  revert s. induction (N.lt_wf_0 x) as [x _ IH]; intros s Hs.
  assert (x = 0 ∨ 0 < x)%N as [->|Hx] by lia; [by rewrite pretty_N_go_0|].
  rewrite pretty_N_go_step by done. apply IH; [by apply N.div_lt|].
  simpl. by rewrite pretty_N_char_digit.
Qed.

(** A number is printed without a leading zero, the number 0 apart. *)
Lemma pretty_N_go_head x s :
  (0 < x)%N →
  ∃ c rest, pretty_N_go x s = String c rest ∧ c ≠ "0"%char.
Proof.
  revert s. induction (N.lt_wf_0 x) as [x _ IH]; intros s Hx.
  rewrite pretty_N_go_step by done.
  destruct (decide (x < 10)%N) as [Hd|Hd].
  - rewrite N.div_small, N.mod_small, pretty_N_go_0 by done.
    eexists _, _. split; [done|].
    assert (x = 1 ∨ x = 2 ∨ x = 3 ∨ x = 4 ∨ x = 5 ∨ x = 6
            ∨ x = 7 ∨ x = 8 ∨ x = 9)%N as Hx9 by lia.
    by destruct Hx9 as [->|[->|[->|[->|[->|[->|[->|[->| ->]]]]]]]].
  - apply IH; [by apply N.div_lt|]. apply N.div_str_pos. lia.
Qed.

Lemma pretty_nat_digits (n : nat) : all_chars is_digit (pretty n) = true.
Proof.
  unfold pretty, pretty_nat, pretty, pretty_N. case_decide; [done|].
  by apply pretty_N_go_digits.
Qed.

Lemma pretty_nat_head (n : nat) :
  pretty n = "0" ∨ ∃ c rest, pretty n = String c rest ∧ c ≠ "0"%char.
Proof.
  unfold pretty, pretty_nat, pretty, pretty_N. case_decide; [by left|].
  right. apply pretty_N_go_head. lia.
Qed.

Lemma zeros_length k : String.length (zeros k) = k.
Proof. induction k as [|k IH]; simpl; congruence. Qed.

Lemma zeros_digits k : all_chars is_digit (zeros k) = true.
Proof. induction k as [|k IH]; simpl; [done|]. by rewrite IH. Qed.

(** A padded number that starts with a zero beyond the padding is 0. *)
Lemma zeros_pretty k (n : nat) rest :
  pretty n = zeros (S k) +:+ rest → pretty n = "0".
Proof.
  intros H. destruct (pretty_nat_head n) as [|(c & r & Hp & Hc)]; [done|].
  rewrite Hp in H. simpl in H. by injection H as -> _.
Qed.

Lemma pretty_nat_nonempty (n : nat) : 0 < String.length (pretty n).
Proof.
  destruct (pretty_nat_head n) as [->|(c & r & -> & _)]; simpl; lia.
Qed.

Lemma zeros_pretty_inj k1 k2 (n1 n2 : nat) :
  zeros k1 +:+ pretty n1 = zeros k2 +:+ pretty n2 → n1 = n2.
Proof.
  assert (∀ k (a b : nat), pretty a = zeros (S k) +:+ pretty b → False)
    as Hno.
  { intros k a b H. pose proof (zeros_pretty k a _ H) as H0.
    rewrite H0 in H. apply (f_equal String.length) in H.
    simpl in H. rewrite length_append, zeros_length in H.
    pose proof (pretty_nat_nonempty b). lia. }
  revert k2. induction k1 as [|k1 IH]; intros [|k2] H.
  - by apply (inj pretty).
  - by destruct (Hno k2 n1 n2).
  - by destruct (Hno k1 n2 n1).
  - simpl in H. injection H as H. by apply (IH k2).
Qed.

Lemma fmt04d_length n :
  String.length (fmt04d n) = 4 `max` String.length (pretty n).
Proof. unfold fmt04d. rewrite length_append, zeros_length. lia. Qed.

Lemma fmt04d_inj n1 n2 : fmt04d n1 = fmt04d n2 → n1 = n2.
Proof. apply zeros_pretty_inj. Qed.

Lemma fmt04d_digits n : all_chars is_digit (fmt04d n) = true.
Proof.
  unfold fmt04d. cbv zeta.
  by rewrite all_chars_append, zeros_digits, pretty_nat_digits.
Qed.

Lemma dest_path_of_inj a b :
  Images.dest_path_of a = Images.dest_path_of b → a = b.
Proof.
  unfold Images.dest_path_of, Images.IMAGES_DIR. intros H.
  apply append_inj_l in H. apply append_inj_l in H.
  apply append_inj_r in H. by apply fmt04d_inj.
Qed.

Lemma metadata_path_inj a b :
  Prompts.metadata_path a = Prompts.metadata_path b →
  Prompts.token_id a = Prompts.token_id b.
Proof.
  unfold Prompts.metadata_path. intros H.
  apply append_inj_l in H. apply append_inj_r in H. by apply fmt04d_inj.
Qed.

(** X16.  The four-digit file names.  A token id is padded with zeros to
    four digits and printed in full beyond 9999; two ids never share a
    name, so no two items share an image file or a metadata file. *)
Theorem file_names_distinct a b :
  String.length (fmt04d a) = 4 `max` String.length (pretty a)
  ∧ all_chars is_digit (fmt04d a) = true
  ∧ (a ≠ b →
     fmt04d a ≠ fmt04d b
     ∧ Images.dest_path_of a ≠ Images.dest_path_of b
     ∧ ∀ x y, Prompts.token_id x = a → Prompts.token_id y = b →
              Prompts.metadata_path x ≠ Prompts.metadata_path y).
Proof.
  split_and!; [apply fmt04d_length|apply fmt04d_digits|].
  intros Hab. split_and!.
  - by intros ?%fmt04d_inj.
  - by intros ?%dest_path_of_inj.
  - intros x y <- <- ?%metadata_path_inj. done.
Qed.
End FormatFacts.


(** * Further properties of the generator *)

(** What every agent of a collection looks like: traits from the pools,
    the prompt of its traits, the rarity label of its extras-count, and
    that many optional traits. *)
Definition well_formed (a : Prompts.agent) : Prop :=
  in_pools (Prompts.agent_traits a)
  ∧ Prompts.prompt a = Prompts.render_prompt (Prompts.agent_traits a)
  ∧ Prompts.zlookup (Prompts.num_extras a) Prompts.RARITY_LABELS
    = Ok (Prompts.rarity a)
  ∧ (0 ≤ Prompts.num_extras a ≤ 4)%Z
  ∧ length (filter is_Some (optional_values (Prompts.agent_traits a)))
    = Z.to_nat (Prompts.num_extras a).

#[global] Instance cause_eq_dec : EqDecision cause.
Proof. solve_decision. Defined.

#[global] Instance exn_eq_dec : EqDecision exn.
Proof. solve_decision. Defined.

#[global] Instance result_eq_dec {A} `{EqDecision A} : EqDecision (result A).
Proof. solve_decision. Defined.

(** How many agents carry the rarity label [label], and how many the
    weight table gives to the extras-counts with that label. *)
Definition labelled (label : string) (l : list Prompts.agent) : nat :=
  length (filter (λ a, Prompts.rarity a = label) l).

Definition table_share (label : string) (weights : list (Z * nat)) : nat :=
  sum_list
    (filter (λ e, Prompts.zlookup e.1 Prompts.RARITY_LABELS = Ok label)
            weights).*2.

Section CollectionFacts.
Context `{G : PRNG}.
Import Prompts.

Lemma generate_agent_inv tid k s a s' :
  generate_agent tid k s = Ok (a, s') →
  token_id a = tid ∧ num_extras a = k ∧ well_formed a.
Proof.
  intros Hg.
  assert ((0 ≤ k ≤ 4)%Z ∧ zlookup k RARITY_LABELS = Ok (rarity a))
    as [Hk Hlab].
  { destruct (generate_agent_mandatory tid k s)
      as (x1 & x2 & x3 & x4 & x5 & x6 & x7 & s7
          & _ & _ & _ & _ & _ & _ & _ & Hfin).
    rewrite Hfin in Hg. unfold finish_agent in Hg.
    apply gbind_inv in Hg as (extras & s8 & Hp & Hg). cbv beta zeta in Hg.
    apply gbind_inv in Hg as (label & s9 & Hl & Hg).
    injection Hg as <- _. cbn [rarity].
    unfold glift in Hl. destruct (zlookup k RARITY_LABELS); [|done].
    injection Hl as -> _. split; [|done].
    destruct (decide (0 ≤ k ≤ 4)%Z) as [|Hout]; [done|].
    rewrite pick_extras_invalid in Hp by lia. done. }
  destruct (generate_agent_valid tid k s Hk)
    as (a0 & s0 & Hg0 & Htid & Hn & Hpr & Hin & Hc).
  rewrite Hg in Hg0. injection Hg0 as <- <-.
  unfold well_formed. rewrite Hn. split_and!; try done; lia.
Qed.

Lemma unique_agent_inv left tid k attempts seen s a n s' :
  unique_agent left tid k attempts seen s = Ok ((Some a, n), s') →
  well_formed a.
Proof.
  revert attempts s. induction left as [|left IH]; intros attempts s; [done|].
  cbn [unique_agent]. intros (a1 & s1 & Hg & Hrest)%gbind_inv.
  case_bool_decide as Hin; [by apply IH in Hrest|].
  injection Hrest as <- _ _. by apply generate_agent_inv in Hg as (_ & _ & ?).
Qed.

Lemma generate_all_inv schedule i c s c' s' :
  generate_all schedule i c s = Ok (Some c', s') →
  (Forall well_formed (agents c) → Forall well_formed (agents c'))
  ∧ attempts_made c + length schedule ≤ attempts_made c'
  ∧ (attempts_made c ≤ max_attempts → attempts_made c' ≤ max_attempts).
Proof.
  revert i c s. induction schedule as [|k rest IH]; intros i c s.
  { intros [= <- <-]. simpl. split_and!; [done|lia|done]. }
  cbn [generate_all]. intros ([found n] & s1 & Hu & Hrest)%gbind_inv.
  destruct found as [a|]; [|done].
  pose proof (unique_agent_inv _ _ _ _ _ _ _ _ _ Hu) as Hwf.
  apply unique_agent_fresh in Hu as (_ & _ & _ & Hlo & Hhi).
  apply IH in Hrest as (Hall & Hn & Hmax). cbn [agents attempts_made] in *.
  split_and!.
  - intros Hc. apply Hall, Forall_app. split; [done|by constructor].
  - cbn [length]. lia.
  - intros Hle. apply Hmax. lia.
Qed.

Lemma run_inv dumps sd total weights fs schedule c fs' :
  run dumps sd total weights fs = Ok (schedule, Some c, fs') →
  ∃ s s1 s2,
    build_schedule total weights s = Ok (schedule, s1)
    ∧ generate_all schedule 0 empty_collection s1 = Ok (Some c, s2)
    ∧ fs' = write_outputs dumps (agents c) fs.
Proof.
  unfold run. intros Hrun.
  destruct (generate_collection total weights (seed sd))
    as [[[sch [c0|]] s']|e] eqn:Hgen; simplify_eq.
  unfold generate_collection in Hgen.
  apply gbind_inv in Hgen as (sch & s1 & Hsch & Hgen).
  apply gbind_inv in Hgen as (oc & s2 & Hall & Hret).
  injection Hret as -> -> <-. by exists (seed sd), s1, s2.
Qed.

Lemma labelled_by_extras label l :
  Forall well_formed l →
  labelled label l
  = length (filter (λ k, zlookup k RARITY_LABELS = Ok label)
                   (map num_extras l)).
Proof.
  unfold labelled. induction 1 as [|a l (_ & _ & Hlab & _) _ IH]; [done|].
  cbn [map]. destruct (decide (rarity a = label)) as [Heq|Hne].
  - rewrite !filter_cons_True by (by rewrite ?Hlab, ?Heq). simpl. by rewrite IH.
  - rewrite !filter_cons_False; [done| |done]. rewrite Hlab. by intros [=].
Qed.

Lemma expand_share label weights :
  length (filter (λ k, zlookup k RARITY_LABELS = Ok label) (expand weights))
  = table_share label weights.
Proof.
  unfold table_share. induction weights as [|[n c] rest IH]; [done|].
  cbn [expand]. rewrite filter_app, length_app, IH.
  destruct (decide (zlookup n RARITY_LABELS = Ok label)) as [Hy|Hn].
  - rewrite filter_cons_True by done. cbn [fmap list_fmap sum_list snd].
    rewrite (filter_all _ (replicate c n)), length_replicate; [done|].
    apply Forall_forall. by intros x [-> _]%elem_of_replicate.
  - rewrite filter_cons_False by done.
    rewrite (filter_none _ (replicate c n)); [done|].
    apply Forall_forall. by intros x [-> _]%elem_of_replicate.
Qed.

(** X17.  Every agent of a completed run is well formed: its token id is
    its position counted from 1, its traits come from the pools, its
    prompt is the text of its traits, its rarity is the label of its
    extras-count, which lies between 0 and 4, and it has exactly that
    many optional traits. *)
Theorem agents_well_formed dumps sd total weights fs schedule c fs' :
  run dumps sd total weights fs = Ok (schedule, Some c, fs') →
  map token_id (agents c) = seq 1 total
  ∧ ∀ i a, agents c !! i = Some a →
           token_id a = i + 1 ∧ schedule !! i = Some (num_extras a)
           ∧ well_formed a.
Proof.
  intros (s & s1 & s2 & Hsch & Hall & _)%run_inv.
  apply build_schedule_length in Hsch as [Htotal _].
  pose proof (generate_all_inv _ _ _ _ _ _ Hall) as (Hwf & _).
  apply generate_all_distinct in Hall as (_ & _ & Hex & Hids);
    [|apply distinct_empty].
  cbn [agents empty_collection map app] in Hex, Hids.
  rewrite Htotal in Hids. split; [done|]. intros i a Hi. split_and!.
  - assert (map token_id (agents c) !! i = Some (token_id a)) as Hl.
    { change (map ?f ?l) with (f <$> l). by rewrite list_lookup_fmap, Hi. }
    rewrite Hids in Hl. apply lookup_seq in Hl as [-> _]. lia.
  - rewrite <- Hex. change (map ?f ?l) with (f <$> l).
    by rewrite list_lookup_fmap, Hi.
  - specialize (Hwf ltac:(constructor)).
    by apply (proj1 (Forall_lookup _ _) Hwf i a).
Qed.

(** X18.  The collection of a completed run follows the weight table: the
    agents with a given extras-count are as many as the table says (for
    a table with distinct keys), and the agents with a given rarity label
    are as many as the table gives to the extras-counts with that
    label. *)
Theorem collection_follows_table dumps sd total weights fs schedule c fs' :
  run dumps sd total weights fs = Ok (schedule, Some c, fs') →
  sum_list weights.*2 = total
  ∧ (∀ label, labelled label (agents c) = table_share label weights)
  ∧ (NoDup weights.*1 →
     ∀ n count, (n, count) ∈ weights →
                occurrences n (map num_extras (agents c)) = count).
Proof.
  intros (s & s1 & s2 & Hsch & Hall & _)%run_inv.
  assert (sum_list weights.*2 = total) as Hsum.
  { destruct (decide (sum_list weights.*2 = total)) as [|Hne]; [done|].
    by rewrite (build_schedule_refused _ _ _ Hne) in Hsch. }
  apply build_schedule_length in Hsch as [Htotal Hperm].
  pose proof (generate_all_inv _ _ _ _ _ _ Hall) as (Hwf & _).
  specialize (Hwf ltac:(constructor)).
  apply generate_all_distinct in Hall as (_ & _ & Hex & _);
    [|apply distinct_empty].
  cbn [agents empty_collection map app] in Hex.
  split_and!; [done| |].
  - intros label. rewrite labelled_by_extras, Hex by done.
    rewrite Hperm. apply expand_share.
  - intros Hnd n count Hin. rewrite Hex, (occurrences_perm _ _ _ Hperm).
    by apply expand_present.
Qed.

(** X19.  The attempts of a run are counted over the whole collection, not
    per item: a completed run has made at least one attempt per agent and
    at most [max_attempts] in all, so that a collection of more than
    [max_attempts] agents is never completed. *)
Theorem attempt_budget dumps sd total weights fs schedule c fs' :
  run dumps sd total weights fs = Ok (schedule, Some c, fs') →
  total ≤ attempts_made c ∧ attempts_made c ≤ max_attempts.
Proof.
  intros (s & s1 & s2 & Hsch & Hall & _)%run_inv.
  apply build_schedule_length in Hsch as [Htotal _].
  apply generate_all_inv in Hall as (_ & Hlo & Hhi).
  cbn [attempts_made empty_collection] in Hlo, Hhi.
  split; [lia|]. apply Hhi. lia.
Qed.
End CollectionFacts.


(** ** The files of a run and the metadata of an agent *)

(** The [attributes] list of a metadata document, and the value it gives
    for a trait type: that of the first entry of that type. *)
Definition attributes_of (meta : json) : list json :=
  match meta with
  | JObj kvs =>
      match assoc "attributes" kvs with
      | Some (JList l) => l
      | _ => []
      end
  | _ => []
  end.

Fixpoint attribute_value (trait_type : string) (attrs : list json)
    : option string :=
  match attrs with
  | [] => None
  | JObj [ (_, JStr name); (_, JStr v) ] :: rest =>
      if String.eqb name trait_type then Some v
      else attribute_value trait_type rest
  | _ :: rest => attribute_value trait_type rest
  end.

Section OutputFacts.
Context `{G : PRNG}.
Import Prompts.
Variable dumps : json → string.
Local Arguments String.append !_ _ /.

Lemma metadata_path_not_collection a :
  metadata_path a ≠ "output/full_collection.json"
  ∧ metadata_path a ≠ "output/prompts_only.txt".
Proof. unfold metadata_path. by split. Qed.

Lemma write_metadata_other (l : list agent) (fs : gmap string string) p :
  p ∉ map metadata_path l →
  foldl (λ fs a, <[metadata_path a := dumps (build_opensea_metadata a)]> fs)
        fs l !! p = fs !! p.
Proof.
  revert fs. induction l as [|a l IH]; intros fs Hp; [done|].
  cbn [map] in Hp. apply not_elem_of_cons in Hp as [Hne Hp].
  cbn [foldl]. rewrite IH by done. by rewrite lookup_insert_ne.
Qed.

Lemma write_metadata_own (l : list agent) (fs : gmap string string) a :
  NoDup (map metadata_path l) → a ∈ l →
  foldl (λ fs a, <[metadata_path a := dumps (build_opensea_metadata a)]> fs)
        fs l !! metadata_path a
  = Some (dumps (build_opensea_metadata a)).
Proof.
  revert fs. induction l as [|b l IH]; intros fs Hnd Ha.
  { by apply elem_of_nil in Ha. }
  cbn [map] in Hnd. apply NoDup_cons in Hnd as [Hb Hnd]. cbn [foldl].
  destruct (decide (metadata_path a ∈ map metadata_path l)) as [Hin|Hout].
  - apply elem_of_cons in Ha as [->|Ha]; [done|]. by apply IH.
  - apply elem_of_cons in Ha as [->|Ha].
    + rewrite write_metadata_other by done. apply lookup_insert_eq.
    + destruct Hout. change (map ?f ?l) with (f <$> l).
      by apply list_elem_of_fmap_2.
Qed.

Lemma metadata_paths_NoDup (l : list agent) :
  NoDup (map token_id l) → NoDup (map metadata_path l).
Proof.
  induction l as [|a l IH]; cbn [map]; [constructor|].
  intros [Ha Hnd]%NoDup_cons. apply NoDup_cons. split; [|by apply IH].
  change (map ?f ?l) with (f <$> l). intros (b & Hp & Hb)%list_elem_of_fmap.
  apply Ha. apply metadata_path_inj in Hp. rewrite Hp.
  change (map ?f ?l) with (f <$> l). by apply list_elem_of_fmap_2.
Qed.


Lemma pool_value_truthy pool v :
  opt_in pool v → (∀ x, x ∈ pool → x ∈ optional_vocabulary) →
  truthy v = bool_decide (is_Some v).
Proof.
  destruct v as [x|]; simpl; [|done]. intros Hx Hpool.
  destruct (vocabulary_no_comma x (Hpool x Hx)) as [_ Hne].
  by destruct x.
Qed.

(** X21.  The traits can be read back from the metadata of an agent.  The
    attribute list gives each of the seven mandatory traits and the
    rarity under its trait type, and an optional trait under its type
    exactly when the agent has it; for a well-formed agent there are
    eight attributes and one more for each of its extras. *)
Theorem metadata_round_trip a :
  let t := agent_traits a in
  let attrs := attributes_of (build_opensea_metadata a) in
  attribute_value "Suit Style" attrs = Some (suit_style t)
  ∧ attribute_value "Sunglasses" attrs = Some (sunglasses t)
  ∧ attribute_value "Hair Style" attrs = Some (hair_style t)
  ∧ attribute_value "Hair Color" attrs = Some (hair_color t)
  ∧ attribute_value "Skin Tone" attrs = Some (skin_tone t)
  ∧ attribute_value "Background" attrs = Some (background t)
  ∧ attribute_value "Expression" attrs = Some (expression t)
  ∧ attribute_value "Rarity" attrs = Some (rarity a)
  ∧ attribute_value "Accessory" attrs
    = (if truthy (accessory t) then accessory t else None)
  ∧ attribute_value "Tattoo" attrs
    = (if truthy (tattoo t) then tattoo t else None)
  ∧ attribute_value "Piercing" attrs
    = (if truthy (piercing t) then piercing t else None)
  ∧ attribute_value "Freckles" attrs
    = (if truthy (freckles t) then freckles t else None)
  ∧ (well_formed a →
     attribute_value "Accessory" attrs = accessory t
     ∧ attribute_value "Tattoo" attrs = tattoo t
     ∧ attribute_value "Piercing" attrs = piercing t
     ∧ attribute_value "Freckles" attrs = freckles t
     ∧ length attrs = 8 + Z.to_nat (num_extras a)).
Proof.
  cbv zeta.
  assert (∀ v, optional_attribute "Accessory" v
               = if truthy v then [attribute "Accessory" (default "" v)]
                 else []) as Hacc by (by intros [x|]).
  assert (∀ v, optional_attribute "Tattoo" v
               = if truthy v then [attribute "Tattoo" (default "" v)]
                 else []) as Htat by (by intros [x|]).
  assert (∀ v, optional_attribute "Piercing" v
               = if truthy v then [attribute "Piercing" (default "" v)]
                 else []) as Hpie by (by intros [x|]).
  assert (∀ v, optional_attribute "Freckles" v
               = if truthy v then [attribute "Freckles" (default "" v)]
                 else []) as Hfre by (by intros [x|]).
  assert (∀ v, truthy v = true → Some (default "" v) = v) as Hsome.
  { by intros [x|]. }
  unfold build_opensea_metadata, attributes_of. cbv zeta.
  cbn [assoc String.eqb Ascii.eqb Bool.eqb].
  rewrite Hacc, Htat, Hpie, Hfre.
  split_and!;
    try (destruct (truthy (accessory (agent_traits a))) eqn:Ea,
           (truthy (tattoo (agent_traits a))) eqn:Et,
           (truthy (piercing (agent_traits a))) eqn:Ep,
           (truthy (freckles (agent_traits a))) eqn:Ef;
         cbn; rewrite ?Hsome by done; reflexivity).
  intros ((_ & _ & _ & _ & _ & _ & _ & Ha & Ht & Hp & Hf)
          & _ & _ & _ & Hcount).
  rewrite <- Hcount. unfold optional_values.
  rewrite (pool_value_truthy _ _ Ha), (pool_value_truthy _ _ Ht),
    (pool_value_truthy _ _ Hp), (pool_value_truthy _ _ Hf)
    by (intros x; apply (pools_in_vocabulary x)).
  by destruct (accessory (agent_traits a)), (tattoo (agent_traits a)),
       (piercing (agent_traits a)), (freckles (agent_traits a)).
Qed.
End OutputFacts.


Section ExtractionEdges.
Import Images.

(** X22.  What the extraction hands to the download is never empty: a
    value is returned only for a result that is a JSON object, and it is
    never [None], an empty string or any other false value; every other
    result makes the step raise. *)
Theorem extracted_url_truthy res u :
  extract_image_url res = Ok u → is_dict res = true ∧ truth u = true.
Proof.
  intros H. split.
  - by destruct res.
  - unfold extract_image_url in H.
    repeat case_match; simplify_eq; by apply negb_false_iff.
Qed.
End ExtractionEdges.

(** * Concrete services *)

Definition result_body : json :=
  JObj [ ("images", JList [ JObj [ ("url", JStr "https://cdn.example/0007.png") ] ]) ].

Definition image_bytes : list Byte.byte := [Byte.x89; Byte.x50; Byte.x4e; Byte.x47].

(** A service that completes every request at the first poll. *)
Definition HappyService : Images.Service :=
  {| Images.remote := unit;
     Images.http_post := λ _ _ s, (Ok queued, s);
     Images.http_get_json := λ u s,
       (if String.eqb u "https://queue.example/r-1/status"
        then Ok (JObj [ ("status", JStr "COMPLETED") ])
        else Ok result_body, s);
     Images.http_get_bytes := λ _ s, (Ok image_bytes, s) |}.

(** A service that accepts the submission without naming any URL and
    answers the polls without a status. *)
Definition SilentService : Images.Service :=
  {| Images.remote := unit;
     Images.http_post := λ _ _ s, (Ok (JObj [ ("request_id", JStr "r-1") ]), s);
     Images.http_get_json := λ _ s, (Ok (JObj [ ("logs", JList []) ]), s);
     Images.http_get_bytes := λ _ s, (Raise RequestException, s) |}.

(** A service whose queue accepts requests but cannot be polled. *)
Definition DownService : Images.Service :=
  {| Images.remote := unit;
     Images.http_post := λ _ _ s, (Ok queued, s);
     Images.http_get_json := λ _ s, (Raise RequestException, s);
     Images.http_get_bytes := λ _ s, (Raise RequestException, s) |}.

Definition plain_agent : Prompts.agent :=
  {| Prompts.token_id := 7; Prompts.agent_traits := plain_traits;
     Prompts.rarity := "Common"; Prompts.num_extras := 0;
     Prompts.prompt := Prompts.render_prompt plain_traits |}.

Lemma plain_agent_well_formed : well_formed plain_agent.
Proof.
  unfold well_formed. split_and!;
    [exact plain_traits_in_pools|reflexivity|reflexivity|done|done
    |reflexivity].
Defined.

Lemma item_touches_own_file_witness :
  Images.files
    (@Images.generate_single FailingService "https://queue.example" 7
       "prompt" false (fresh_world FailingService tt)).2
    !! "output/full_collection.json"
  = Images.files (fresh_world FailingService tt)
    !! "output/full_collection.json".
Proof.
  apply (@item_touches_own_file FailingService).
  intros H. vm_compute in H. discriminate H.
Defined.

Lemma success_leaves_artifact_witness :
  ∃ w' content,
    @Images.generate_single HappyService "https://queue.example" 7 "prompt"
      false (fresh_world HappyService tt) = (Ok true, w')
    ∧ Images.files w' !! Images.dest_path_of 7 = Some content
    ∧ (content ≠ [] →
       @Images.generate_single HappyService "https://queue.example" 7
         "prompt" false w' = (Ok true, w')).
Proof.
  assert ((@Images.generate_single HappyService "https://queue.example" 7
             "prompt" false (fresh_world HappyService tt)).1 = Ok true)
    as Hok by (vm_compute; reflexivity).
  destruct (@Images.generate_single HappyService "https://queue.example" 7
              "prompt" false (fresh_world HappyService tt))
    as [r w'] eqn:Hrun.
  simpl in Hok. subst r.
  destruct (@success_leaves_artifact HappyService _ _ _ _ _ _ Hrun)
    as (content & Hc & Hagain).
  exists w', content. split_and!; [reflexivity|exact Hc|exact Hagain].
Defined.

Lemma failed_item_leaves_files_witness :
  (@Images.generate_single FailingService "https://queue.example" 7 "prompt"
     false (fresh_world FailingService tt)).1 = Ok false
  ∧ submits (@Images.generate_single FailingService "https://queue.example" 7
               "prompt" false (fresh_world FailingService tt)).2
    = Images.MAX_RETRIES
  ∧ Images.files
      (@Images.generate_single FailingService "https://queue.example" 7
         "prompt" false (fresh_world FailingService tt)).2
    = Images.files (fresh_world FailingService tt).
Proof.
  destruct (@failed_item_leaves_files FailingService "https://queue.example"
              7 "prompt" false (fresh_world FailingService tt)
              (@Images.generate_single FailingService "https://queue.example"
                 7 "prompt" false (fresh_world FailingService tt)).2)
    as (Hn & _ & Hf).
  { vm_compute. reflexivity. }
  split_and!; [reflexivity|exact Hn|].
  apply Hf. vm_compute. reflexivity.
Defined.



Lemma poll_trace_witness :
  @Images.poll_until_done HappyService
    (JStr "https://queue.example/r-1/status") (fresh_world HappyService tt)
  = (Ok "COMPLETED",
     @Images.Build_world HappyService tt ∅
       [Images.EvPoll "https://queue.example/r-1/status"]).
Proof.
  destruct (@poll_trace HappyService "https://queue.example/r-1/status"
              (fresh_world HappyService tt)) as [Hdone _].
  apply (Hdone 0).
  - unfold Images.MAX_POLL_ATTEMPTS. lia.
  - intros k Hk. lia.
  - by eexists.
Defined.

Lemma poll_error_propagates_witness :
  @Images.poll_until_done DownService
    (JStr "https://queue.example/r-1/status") (fresh_world DownService tt)
  = (Raise RequestException,
     @Images.Build_world DownService tt ∅
       [Images.EvPoll "https://queue.example/r-1/status"]).
Proof.
  destruct (@poll_error_propagates DownService
              "https://queue.example/r-1/status"
              (fresh_world DownService tt) 0) as [Hraise _].
  - unfold Images.MAX_POLL_ATTEMPTS. lia.
  - intros k Hk. lia.
  - by apply Hraise.
Defined.

Lemma silent_answers u k :
  ∃ kvs, @answer_at SilentService u k tt = Ok (JObj kvs)
         ∧ assoc "status" kvs = None.
Proof.
  induction k as [|k IH]; [|exact IH].
  by exists [ ("logs", JList []) ].
Defined.

Lemma missing_status_times_out_witness :
  ∃ w',
    @Images.poll_until_done SilentService
      (JStr "https://queue.example/r-1/status") (fresh_world SilentService tt)
    = (Raise TimeoutError, w')
    ∧ @count SilentService Images.is_poll w'
      = @count SilentService Images.is_poll (fresh_world SilentService tt)
        + Images.MAX_POLL_ATTEMPTS.
Proof.
  destruct (@missing_status_times_out SilentService
              "https://queue.example/r-1/status"
              (fresh_world SilentService tt)) as (w' & Hrun & Hpolls & _).
  - intros k _. apply silent_answers.
  - exists w'. split; [exact Hrun|exact Hpolls].
Defined.

Lemma attempt_succeeds_witness :
  @Images.attempt HappyService "https://queue.example" "prompt"
    (Images.dest_path_of 7) (fresh_world HappyService tt)
  = (Ok true,
     @Images.Build_world HappyService tt
       (<[Images.dest_path_of 7 := image_bytes]> ∅)
       [ Images.EvSubmit "prompt";
         Images.EvPoll "https://queue.example/r-1/status";
         Images.EvFetch "https://queue.example/r-1";
         Images.EvDownload "https://cdn.example/0007.png" ]).
Proof.
  apply (@attempt_succeeds HappyService "https://queue.example" "prompt"
           (Images.dest_path_of 7) (fresh_world HappyService tt) queued
           "https://queue.example/r-1/status" "https://queue.example/r-1"
           tt result_body tt "https://cdn.example/0007.png" image_bytes tt).
  - reflexivity.
  - eexists. split_and!; [reflexivity|reflexivity|reflexivity|done|done].
  - by eexists.
  - reflexivity.
  - reflexivity.
  - reflexivity.
Defined.

Lemma attempt_without_urls_witness :
  @Images.attempt SilentService "https://queue.example" "prompt"
    (Images.dest_path_of 7) (fresh_world SilentService tt)
  = (Raise (RuntimeError MissingUrls),
     @Images.Build_world SilentService tt ∅ [Images.EvSubmit "prompt"]).
Proof.
  destruct (@attempt_without_urls SilentService "https://queue.example"
              "prompt" (Images.dest_path_of 7) (fresh_world SilentService tt)
              (JObj [ ("request_id", JStr "r-1") ]) tt eq_refl)
    as [_ Hmiss].
  apply (Hmiss [ ("request_id", JStr "r-1") ] eq_refl).
  left. reflexivity.
Defined.

Lemma run_touches_only_images_witness :
  Images.files
    (@Images.main FailingService "https://queue.example" two_items 1 2 None
       (fresh_world FailingService tt)).2 !! "output/full_collection.json"
  = Images.files (fresh_world FailingService tt)
    !! "output/full_collection.json".
Proof.
  apply (@run_touches_only_images FailingService).
  intros tid _ H. unfold Images.dest_path_of, Images.IMAGES_DIR in H.
  discriminate H.
Defined.

Lemma file_names_distinct_witness :
  fmt04d 7 ≠ fmt04d 1007
  ∧ Images.dest_path_of 7 ≠ Images.dest_path_of 1007.
Proof.
  destruct (file_names_distinct 7 1007) as (_ & _ & Hne).
  destruct Hne as (H1 & H2 & _); [lia|]. split; [exact H1|exact H2].
Defined.

Lemma metadata_round_trip_witness :
  attribute_value "Accessory"
    (attributes_of (Prompts.build_opensea_metadata plain_agent)) = None
  ∧ length (attributes_of (Prompts.build_opensea_metadata plain_agent)) = 8.
Proof.
  destruct (metadata_round_trip plain_agent)
    as (_ & _ & _ & _ & _ & _ & _ & _ & _ & _ & _ & _ & Hwf).
  destruct (Hwf plain_agent_well_formed) as (Ha & _ & _ & _ & Hlen).
  split; [exact Ha|exact Hlen].
Defined.

Lemma extracted_url_truthy_witness :
  Images.is_dict data_wrapped = true
  ∧ Images.truth (JStr "https://cdn.example/0001.png") = true.
Proof.
  apply (extracted_url_truthy data_wrapped
           (JStr "https://cdn.example/0001.png")).
  reflexivity.
Defined.

Lemma agents_well_formed_witness :
  ∃ schedule c fs',
    @Prompts.run LCG (λ _, "") 42 3 [(0%Z, 1); (2%Z, 1); (4%Z, 1)] ∅
      = Ok (schedule, Some c, fs')
    ∧ map Prompts.token_id (Prompts.agents c) = [1; 2; 3].
Proof.
  assert (completed
            (@Prompts.run LCG (λ _, "") 42 3 [(0%Z, 1); (2%Z, 1); (4%Z, 1)] ∅)
          = true) as Hc by (vm_compute; reflexivity).
  destruct (@Prompts.run LCG (λ _, "") 42 3 [(0%Z, 1); (2%Z, 1); (4%Z, 1)] ∅)
    as [[[schedule [c|]] fs']|e] eqn:Hrun; try discriminate Hc.
  exists schedule, c, fs'. split; [reflexivity|].
  destruct (@agents_well_formed LCG _ _ _ _ _ _ _ _ Hrun) as [Hids _].
  exact Hids.
Defined.

Lemma collection_follows_table_witness :
  ∃ schedule c fs',
    @Prompts.run LCG (λ _, "") 42 3 [(0%Z, 1); (2%Z, 1); (4%Z, 1)] ∅
      = Ok (schedule, Some c, fs')
    ∧ labelled "Common" (Prompts.agents c) = 1
    ∧ labelled "Rare" (Prompts.agents c) = 1
    ∧ labelled "Legendary" (Prompts.agents c) = 1
    ∧ labelled "Uncommon" (Prompts.agents c) = 0.
Proof.
  assert (completed
            (@Prompts.run LCG (λ _, "") 42 3 [(0%Z, 1); (2%Z, 1); (4%Z, 1)] ∅)
          = true) as Hc by (vm_compute; reflexivity).
  destruct (@Prompts.run LCG (λ _, "") 42 3 [(0%Z, 1); (2%Z, 1); (4%Z, 1)] ∅)
    as [[[schedule [c|]] fs']|e] eqn:Hrun; try discriminate Hc.
  exists schedule, c, fs'. split; [reflexivity|].
  destruct (@collection_follows_table LCG _ _ _ _ _ _ _ _ Hrun)
    as (_ & Hlab & _).
  rewrite !Hlab. split_and!; reflexivity.
Defined.

Lemma attempt_budget_witness :
  ∃ schedule c fs',
    @Prompts.run LCG (λ _, "") 42 3 [(0%Z, 1); (2%Z, 1); (4%Z, 1)] ∅
      = Ok (schedule, Some c, fs')
    ∧ 3 ≤ Prompts.attempts_made c ∧ Prompts.attempts_made c ≤ Prompts.max_attempts.
Proof.
  assert (completed
            (@Prompts.run LCG (λ _, "") 42 3 [(0%Z, 1); (2%Z, 1); (4%Z, 1)] ∅)
          = true) as Hc by (vm_compute; reflexivity).
  destruct (@Prompts.run LCG (λ _, "") 42 3 [(0%Z, 1); (2%Z, 1); (4%Z, 1)] ∅)
    as [[[schedule [c|]] fs']|e] eqn:Hrun; try discriminate Hc.
  exists schedule, c, fs'. split; [reflexivity|].
  exact (@attempt_budget LCG _ _ _ _ _ _ _ _ Hrun).
Defined.



(** * The CID patch ([update_metadata_cid.py]) *)
Module Patch.

Definition PLACEHOLDER : string := "YOUR_CID_HERE".
Definition METADATA_DIR : string := "output/metadata".

(** [s.replace(old, new)]: the occurrences of [old] are replaced from the
    left and do not overlap; [skip] counts the characters of an occurrence
    still to pass over.  An empty [old] matches before every character
    and at the end. *)
Fixpoint replace_from (old new : string) (skip : nat) (s : string) : string :=
  match s with
  | EmptyString => EmptyString
  | String c s' =>
      match skip with
      | S k => replace_from old new k s'
      | 0 =>
          if is_prefix old s
          then new +:+ replace_from old new (String.length old - 1) s'
          else String c (replace_from old new 0 s')
      end
  end.

Fixpoint interleave (new s : string) : string :=
  match s with
  | EmptyString => EmptyString
  | String c s' => String c (new +:+ interleave new s')
  end.

Definition replace (old new s : string) : string :=
  match old with
  | EmptyString => new +:+ interleave new s
  | _ => replace_from old new 0 s
  end.

(** [s.endswith(suffix)]. *)
Fixpoint ends_with (suffix s : string) : bool :=
  String.eqb s suffix
  || match s with
     | EmptyString => false
     | String _ s' => ends_with suffix s'
     end.

(** [sorted(names)]. *)
Fixpoint insert_sorted (x : string) (l : list string) : list string :=
  match l with
  | [] => [x]
  | y :: l' => if String.leb x y then x :: l else y :: insert_sorted x l'
  end.

Definition sorted (l : list string) : list string :=
  foldr insert_sorted [] l.

(** [d[k] = v] on the bindings of a dict: the value of an existing key is
    replaced where it stands, a new key goes to the end. *)
Fixpoint set_item (k : string) (v : json) (kvs : list (string * json))
    : list (string * json) :=
  match kvs with
  | [] => [(k, v)]
  | (k', v') :: rest =>
      if String.eqb k k' then (k', v) :: rest
      else (k', v') :: set_item k v rest
  end.

(** Lines 35 to 39 for one document: [None] when the image reference is
    unchanged, the updated document otherwise.  Only a dict has [get],
    only a string has [replace]. *)
Definition patch_document (cid : string) (data : json) : result (option json) :=
  match data with
  | JObj kvs =>
      match default (JStr "") (assoc "image" kvs) with
      | JStr old_image =>
          let new_image := replace PLACEHOLDER cid old_image in
          if negb (String.eqb new_image old_image)
          then Ok (Some (JObj (set_item "image" (JStr new_image) kvs)))
          else Ok None
      | _ => Raise AttributeError
      end
  | _ => Raise AttributeError
  end.

(** How a run ends: [sys.exit(code)], an [open] that fails, an exception
    of [json.load] or of the patch of a document, or the end of [main]
    with the number of files updated. *)
Inductive outcome : Type :=
  | Exit (code : nat)
  | OpenFailed (path : string)
  | Raised (e : exn)
  | Finished (updated : nat).

(** The disk as the script sees it: whether the metadata directory is
    there, what [os.listdir] returns for it, and the text of the files
    that can be opened, by path. *)
Record disk : Type := {
  is_dir : bool;
  listing : list string;
  contents : gmap string string
}.

Section Main.
(** [str.strip], [json.load] on the text of a file (the document, or the
    exception raised) and [json.dump(..., indent=2)]. *)
Variable strip : string → string.
Variable loads : string → result json.
Variable dumps : json → string.

Definition path_of (filename : string) : string :=
  METADATA_DIR +:+ "/" +:+ filename.

(** The loop over the sorted names. *)
Fixpoint patch_files (cid : string) (names : list string)
    (fs : gmap string string) (updated : nat)
    : outcome * gmap string string :=
  match names with
  | [] => (Finished updated, fs)
  | filename :: rest =>
      if negb (ends_with ".json" filename)
      then patch_files cid rest fs updated
      else
        let path := path_of filename in
        match fs !! path with
        | None => (OpenFailed path, fs)
        | Some text =>
            match loads text with
            | Raise e => (Raised e, fs)
            | Ok data =>
                match patch_document cid data with
                | Raise e => (Raised e, fs)
                | Ok None => patch_files cid rest fs updated
                | Ok (Some data') =>
                    patch_files cid rest (<[path := dumps data']> fs)
                                (S updated)
                end
            end
        end
  end.

Definition main (argv : list string) (d : disk)
    : outcome * gmap string string :=
  match argv with
  | [_; arg] =>
      let cid := strip arg in
      if negb (is_dir d) then (Exit 1, contents d)
      else patch_files cid (sorted (listing d)) (contents d) 0
  | _ => (Exit 1, contents d)
  end.
End Main.

End Patch.

(** ** Properties of the patch *)

(** The text the patch leaves in a file: the dump of the updated
    document, or nothing when the file is not rewritten. *)
Definition patched (loads : string → result json) (dumps : json → string)
    (cid text : string) : option string :=
  match loads text with
  | Ok data =>
      match Patch.patch_document cid data with
      | Ok (Some data') => Some (dumps data')
      | _ => None
      end
  | Raise _ => None
  end.

(** A file of the directory that the patch can process. *)
Definition patchable (loads : string → result json) (cid : string)
    (fs : gmap string string) (name : string) : Prop :=
  ∃ text data, fs !! Patch.path_of name = Some text
               ∧ loads text = Ok data
               ∧ is_ok (Patch.patch_document cid data) = true.

Section PatchFacts.
Import Patch.
Local Arguments String.append !_ _ /.

Lemma mem_char_append c s1 s2 :
  mem_char c (s1 +:+ s2) = mem_char c s1 || mem_char c s2.
Proof.
  induction s1 as [|a s1 IH]; simpl; [done|]. by rewrite IH, orb_assoc.
Qed.

Lemma infix_mem_char c v s :
  infix v s → mem_char c v = true → mem_char c s = true.
Proof.
  intros (pre & post & ->) Hc.
  by rewrite !mem_char_append, Hc, orb_true_r.
Qed.

Lemma digits_no_char c s :
  is_digit c = false → all_chars is_digit s = true → mem_char c s = false.
Proof.
  intros Hc. induction s as [|a s IH]; simpl; [done|].
  intros [Ha Hs]%andb_true_iff. rewrite IH by done.
  destruct (Ascii.eqb_spec c a) as [->|]; [congruence|done].
Qed.

(** A text without the old piece is left as it is. *)
Lemma replace_from_absent old new s :
  old ≠ "" → ¬ infix old s → replace_from old new 0 s = s.
Proof.
  intros Hold. induction s as [|c s IH]; intros Hno; [done|].
  cbn [replace_from].
  destruct (is_prefix old (String c s)) eqn:Hp.
  - apply is_prefix_spec in Hp as [post Hp]. destruct Hno.
    exists "", post. by rewrite Hp.
  - rewrite IH; [done|]. intros Hi. by apply Hno, infix_cons.
Qed.

Lemma replace_absent old new s : old ≠ "" → ¬ infix old s → replace old new s = s.
Proof.
  intros Hold Hno. unfold replace. destruct old; [done|].
  by apply replace_from_absent.
Qed.

Lemma replace_from_skip old new a s :
  replace_from old new (String.length a) (a +:+ s) = replace_from old new 0 s.
Proof. induction a as [|c a IH]; simpl; [done|]. exact IH. Qed.

(** An image reference built around a CID holds the placeholder only
    inside the CID. *)
Lemma reference_infix cid tid :
  infix PLACEHOLDER ("ipfs://" +:+ cid +:+ "/" +:+ fmt04d tid +:+ ".png") →
  infix PLACEHOLDER cid.
Proof.
  intros Hi.
  change ("ipfs://" +:+ cid +:+ "/" +:+ fmt04d tid +:+ ".png")
    with ("ipfs:" +:+ String "/" ("" +:+ String "/"
            (cid +:+ String "/" (fmt04d tid +:+ ".png")))) in Hi.
  apply infix_split in Hi as [Hi|Hi]; [| |done].
  { apply has_infix_spec in Hi. vm_compute in Hi. discriminate Hi. }
  apply infix_split in Hi as [Hi|Hi]; [| |done].
  { apply has_infix_spec in Hi. vm_compute in Hi. discriminate Hi. }
  apply infix_split in Hi as [Hi|Hi]; [done| |done].
  apply (infix_mem_char "Y"%char) in Hi; [|done].
  rewrite mem_char_append, (digits_no_char _ (fmt04d tid)) in Hi;
    [done|done|apply fmt04d_digits].
Qed.

Lemma number_no_placeholder tid :
  ¬ infix PLACEHOLDER (fmt04d tid +:+ ".png").
Proof.
  intros Hi. apply (infix_mem_char "Y"%char) in Hi; [|done].
  rewrite mem_char_append, (digits_no_char _ (fmt04d tid)) in Hi;
    [done|done|apply fmt04d_digits].
Qed.

Lemma replace_reference cid tid :
  replace PLACEHOLDER cid ("ipfs://YOUR_CID_HERE/" +:+ fmt04d tid +:+ ".png")
  = "ipfs://" +:+ cid +:+ "/" +:+ fmt04d tid +:+ ".png".
Proof.
  unfold replace, PLACEHOLDER. cbn -[fmt04d].
  rewrite replace_from_absent; [done|done|apply number_no_placeholder].
Qed.

Lemma reference_inj cid1 cid2 tid :
  "ipfs://" +:+ cid1 +:+ "/" +:+ fmt04d tid +:+ ".png"
  = "ipfs://" +:+ cid2 +:+ "/" +:+ fmt04d tid +:+ ".png" →
  cid1 = cid2.
Proof.
  intros H. apply append_inj_l in H. by apply append_inj_r in H.
Qed.

(** The value of a key of a document. *)
Definition field (k : string) (doc : json) : option json :=
  match doc with JObj kvs => assoc k kvs | _ => None end.

Lemma assoc_set_item k v kvs k' :
  assoc k' (set_item k v kvs)
  = if String.eqb k' k then Some v else assoc k' kvs.
Proof.
  induction kvs as [|[k0 v0] kvs IH]; simpl.
  { done. }
  destruct (String.eqb_spec k k0) as [->|Hne]; simpl.
  - by destruct (String.eqb k' k0).
  - rewrite IH. destruct (String.eqb_spec k' k0) as [->|]; [|done].
    destruct (String.eqb_spec k0 k) as [->|]; done.
Qed.

(** X23.  The patch of a generated document.  With a CID other than the
    placeholder itself, the metadata of an agent is updated: its image
    becomes [ipfs://<cid>/NNNN.png] and every other key keeps its value;
    with the placeholder as CID the document counts as unchanged. *)
Theorem placeholder_replaced cid a :
  (cid = PLACEHOLDER →
   patch_document cid (Prompts.build_opensea_metadata a) = Ok None)
  ∧ (cid ≠ PLACEHOLDER →
     ∃ doc,
       patch_document cid (Prompts.build_opensea_metadata a) = Ok (Some doc)
       ∧ field "image" doc
         = Some (JStr ("ipfs://" +:+ cid +:+ "/"
                       +:+ fmt04d (Prompts.token_id a) +:+ ".png"))
       ∧ ∀ k, k ≠ "image" →
              field k doc = field k (Prompts.build_opensea_metadata a)).
Proof.
  unfold patch_document, Prompts.build_opensea_metadata. cbv zeta.
  cbn [assoc String.eqb Ascii.eqb Bool.eqb default from_option id].
  rewrite replace_reference. split.
  - intros ->. by rewrite String.eqb_refl.
  - intros Hne.
    destruct (String.eqb_spec
                ("ipfs://" +:+ cid +:+ "/"
                 +:+ fmt04d (Prompts.token_id a) +:+ ".png")
                ("ipfs://YOUR_CID_HERE/"
                 +:+ fmt04d (Prompts.token_id a) +:+ ".png")) as [Heq|_].
    { destruct Hne. by apply (reference_inj _ _ (Prompts.token_id a)). }
    cbn [negb]. eexists. split; [reflexivity|]. split.
    + unfold field. by rewrite assoc_set_item.
    + intros k Hk. unfold field. rewrite assoc_set_item.
      by destruct (String.eqb_spec k "image").
Qed.

(** X24.  Patching twice.  When the CID does not itself contain the
    placeholder, the document that the patch of a generated document
    returns is left unchanged by a second patch with any CID. *)
Theorem repatch_changes_nothing cid cid' a doc :
  ¬ infix PLACEHOLDER cid →
  patch_document cid (Prompts.build_opensea_metadata a) = Ok (Some doc) →
  patch_document cid' doc = Ok None.
Proof.
  intros Hno. unfold patch_document, Prompts.build_opensea_metadata.
  cbv zeta.
  cbn [assoc String.eqb Ascii.eqb Bool.eqb default from_option id].
  rewrite replace_reference. destruct (negb _); [|done].
  intros [= <-].
  cbn [set_item String.eqb Ascii.eqb Bool.eqb assoc default from_option id].
  rewrite replace_absent, String.eqb_refl; [done|done|].
  intros Hi. by apply Hno, (reference_infix cid (Prompts.token_id a)).
Qed.

(** X25.  Documents the patch does not touch or cannot read.  A document
    whose image reference does not contain the placeholder, or that has no
    image key, is reported unchanged; a document that is not a JSON object
    or whose image is not a string makes the patch raise
    [AttributeError]. *)
Theorem patch_document_edges cid data :
  (∀ kvs, data = JObj kvs → assoc "image" kvs = None →
          patch_document cid data = Ok None)
  ∧ (∀ kvs s, data = JObj kvs → assoc "image" kvs = Some (JStr s) →
              ¬ infix PLACEHOLDER s → patch_document cid data = Ok None)
  ∧ (Images.is_dict data = false →
     patch_document cid data = Raise AttributeError)
  ∧ (∀ kvs v, data = JObj kvs → assoc "image" kvs = Some v →
              (∀ s, v ≠ JStr s) →
              patch_document cid data = Raise AttributeError).
Proof.
  split_and!.
  - intros kvs -> Hk. unfold patch_document. by rewrite Hk.
  - intros kvs s -> Hk Hno. unfold patch_document. rewrite Hk.
    cbn [default from_option id].
    by rewrite replace_absent, String.eqb_refl.
  - by destruct data.
  - intros kvs v -> Hk Hv. unfold patch_document. rewrite Hk. simpl.
    destruct v; try done. by destruct (Hv s).
Qed.

Section PatchRunFacts.
Variable strip : string → string.
Variable loads : string → result json.
Variable dumps : json → string.

(** The text of the file [name] after the patch, when it is rewritten. *)
Definition new_text (cid : string) (fs : gmap string string) (name : string)
    : option string :=
  fs !! path_of name ≫= patched loads dumps cid.

Definition rewritten (cid : string) (fs : gmap string string) (name : string)
    : bool :=
  ends_with ".json" name
  && match new_text cid fs name with Some _ => true | None => false end.

Lemma path_of_inj a b : path_of a = path_of b → a = b.
Proof.
  unfold path_of. intros H. apply append_inj_l in H.
  by apply append_inj_l in H.
Qed.

Lemma filter_rewritten_ext cid fs1 fs2 (names : list string) :
  (∀ name, name ∈ names → fs1 !! path_of name = fs2 !! path_of name) →
  filter (λ name, rewritten cid fs1 name) names
  = filter (λ name, rewritten cid fs2 name) names.
Proof.
  induction names as [|x names IH]; intros Hagree; [done|].
  assert (rewritten cid fs1 x = rewritten cid fs2 x) as Hx.
  { unfold rewritten, new_text. by rewrite (Hagree x) by by left. }
  rewrite !filter_cons, Hx, IH; [done|]. intros; apply Hagree; by right.
Qed.

Lemma patch_files_scope cid names fs n p :
  (∀ name, name ∈ names → ends_with ".json" name = true →
           p ≠ path_of name) →
  (patch_files loads dumps cid names fs n).2 !! p = fs !! p.
Proof.
  revert fs n. induction names as [|x names IH]; intros fs n Hp; [done|].
  assert (∀ name, name ∈ names → ends_with ".json" name = true →
                  p ≠ path_of name) as Hp'.
  { intros; apply Hp; [by right|done]. }
  cbn [patch_files]. destruct (ends_with ".json" x) eqn:Hx; cbn [negb].
  2:{ by apply IH. }
  destruct (fs !! path_of x) as [text|]; [|done].
  destruct (loads text) as [data|e]; [|done].
  destruct (patch_document cid data) as [[data'|]|e]; [| |done].
  - rewrite IH by done. apply lookup_insert_ne.
    intros Heq. by apply (Hp x); [left| |].
  - by apply IH.
Qed.

Lemma patch_files_complete cid names fs n :
  NoDup names →
  (∀ name, name ∈ names → ends_with ".json" name = true →
           patchable loads cid fs name) →
  ∃ fs',
    patch_files loads dumps cid names fs n
    = (Finished (n + length (filter (λ name, rewritten cid fs name) names)),
       fs')
    ∧ ∀ name, name ∈ names → ends_with ".json" name = true →
              fs' !! path_of name
              = match new_text cid fs name with
                | Some text => Some text
                | None => fs !! path_of name
                end.
Proof.
  revert fs n. induction names as [|x names IH]; intros fs n Hnd Hok.
  { exists fs. split; [simpl; by rewrite Nat.add_0_r|].
    by intros name ?%elem_of_nil. }
  apply NoDup_cons in Hnd as [Hx Hnd].
  assert (∀ name, name ∈ names → ends_with ".json" name = true →
                  patchable loads cid fs name) as Hok'.
  { intros; apply Hok; [by right|done]. }
  cbn [patch_files].
  destruct (ends_with ".json" x) eqn:Hj; cbn [negb].
  2:{ assert (rewritten cid fs x = false) as Hr.
      { unfold rewritten. by rewrite Hj. }
      rewrite filter_cons_False by (cbv beta; rewrite Hr; exact id).
      destruct (IH fs n Hnd Hok') as (fs' & Hrun & Hfiles).
      exists fs'. split; [done|].
      intros name [->|Hin]%elem_of_cons Hname; [congruence|by apply Hfiles]. }
  destruct (Hok x) as (text & data & Ht & Hl & Hp); [by left|done|].
  assert (∀ fs0 m, (patch_files loads dumps cid names fs0 m).2 !! path_of x
                   = fs0 !! path_of x) as Hkeep.
  { intros fs0 m. apply patch_files_scope.
    intros name Hin _ Heq. apply path_of_inj in Heq. by subst. }
  rewrite Ht, Hl.
  destruct (patch_document cid data) as [[data'|]|e] eqn:Hpd; [| |done].
  - assert (new_text cid fs x = Some (dumps data')) as Hnew.
    { unfold new_text, patched. rewrite Ht. cbn [mbind option_bind].
      by rewrite Hl, Hpd. }
    assert (rewritten cid fs x = true) as Hr.
    { unfold rewritten. by rewrite Hj, Hnew. }
    rewrite filter_cons_True by (cbv beta; rewrite Hr; exact I).
    assert (∀ name, name ∈ names →
                    <[path_of x := dumps data']> fs !! path_of name
                    = fs !! path_of name) as Hagree.
    { intros name Hin. apply lookup_insert_ne.
      intros Heq. apply path_of_inj in Heq. by subst. }
    destruct (IH (<[path_of x := dumps data']> fs) (S n) Hnd)
      as (fs' & Hrun & Hfiles).
    { intros name Hin Hname.
      destruct (Hok' name Hin Hname) as (t & d & Ht' & Hl' & Hp').
      exists t, d. split_and!; [|done..]. by rewrite Hagree. }
    exists fs'. split.
    + rewrite Hrun, (filter_rewritten_ext _ _ fs) by done.
      cbn [length]. do 2 f_equal. lia.
    + intros name [->|Hin]%elem_of_cons Hname.
      * rewrite Hnew.
        pose proof (Hkeep (<[path_of x := dumps data']> fs) (S n)) as Hk.
        rewrite Hrun in Hk. cbn [snd] in Hk. rewrite Hk.
        apply lookup_insert_eq.
      * rewrite (Hfiles name Hin Hname). unfold new_text.
        by rewrite (Hagree name Hin).
  - assert (new_text cid fs x = None) as Hnew.
    { unfold new_text, patched. rewrite Ht. cbn [mbind option_bind].
      by rewrite Hl, Hpd. }
    assert (rewritten cid fs x = false) as Hr.
    { unfold rewritten. by rewrite Hj, Hnew. }
    rewrite filter_cons_False by (cbv beta; rewrite Hr; exact id).
    destruct (IH fs n Hnd Hok') as (fs' & Hrun & Hfiles).
    exists fs'. split; [done|].
    intros name [->|Hin]%elem_of_cons Hname.
    + rewrite Hnew. pose proof (Hkeep fs n) as Hk.
      rewrite Hrun in Hk. exact Hk.
    + by apply Hfiles.
Qed.

Lemma patch_files_app cid pre rest fs n m fs1 :
  patch_files loads dumps cid pre fs n = (Finished m, fs1) →
  patch_files loads dumps cid (pre ++ rest) fs n
  = patch_files loads dumps cid rest fs1 m.
Proof.
  revert fs n. induction pre as [|x pre IH]; intros fs n.
  { by intros [= -> ->]. }
  cbn [patch_files app]. destruct (negb (ends_with ".json" x)); [apply IH|].
  destruct (fs !! path_of x) as [text|]; [|done].
  destruct (loads text) as [data|e]; [|done].
  destruct (patch_document cid data) as [[data'|]|e]; [apply IH..|done].
Qed.

Lemma insert_sorted_perm x l : insert_sorted x l ≡ₚ x :: l.
Proof.
  induction l as [|y l IH]; [done|]. simpl.
  destruct (String.leb x y); [done|]. rewrite IH. apply Permutation_swap.
Qed.

Lemma sorted_perm l : sorted l ≡ₚ l.
Proof.
  induction l as [|x l IH]; [done|]. simpl.
  by rewrite insert_sorted_perm, IH.
Qed.

(** What makes the run stop at a file: it cannot be opened, its text is
    not JSON, or its document cannot be patched. *)
Definition refusal (cid : string) (fs : gmap string string) (name : string)
    : option outcome :=
  match fs !! path_of name with
  | None => Some (OpenFailed (path_of name))
  | Some text =>
      match loads text with
      | Raise e => Some (Raised e)
      | Ok data =>
          match patch_document cid data with
          | Raise e => Some (Raised e)
          | Ok _ => None
          end
      end
  end.

(** X26.  What a run of the patch can touch.  Without exactly one argument,
    or without the metadata directory, the run exits with status 1 and
    changes nothing; and however it ends, no file is changed but those of
    the metadata directory whose name ends in [.json]. *)
Theorem patch_run_scope argv d :
  (length argv ≠ 2 → main strip loads dumps argv d = (Exit 1, contents d))
  ∧ (is_dir d = false → main strip loads dumps argv d = (Exit 1, contents d))
  ∧ (∀ p, (∀ name, name ∈ listing d → ends_with ".json" name = true →
                   p ≠ path_of name) →
          (main strip loads dumps argv d).2 !! p = contents d !! p).
Proof.
  split_and!.
  - intros Hlen. by destruct argv as [|? [|? [|? ?]]].
  - intros Hd. unfold main. rewrite Hd.
    by destruct argv as [|? [|? [|? ?]]].
  - intros p Hp. unfold main.
    destruct argv as [|? [|? [|? ?]]]; try done.
    destruct (is_dir d); [|done]. cbn [negb].
    apply patch_files_scope. intros name Hin. apply Hp.
    by rewrite <- (sorted_perm (listing d)).
Qed.

(** X27.  A run of the patch over a directory it can process.  When every
    [.json] file of the directory can be opened, parsed and patched, the
    run goes through all of them: it reports as many updates as there are
    files whose document changes, each of these files holds the dump of
    its updated document, and the others are as they were. *)
Theorem patch_run_complete prog arg d :
  is_dir d = true → NoDup (listing d) →
  (∀ name, name ∈ listing d → ends_with ".json" name = true →
           patchable loads (strip arg) (contents d) name) →
  ∃ fs',
    main strip loads dumps [prog; arg] d
    = (Finished (length (filter (λ name, rewritten (strip arg) (contents d)
                                           name) (listing d))), fs')
    ∧ ∀ name, name ∈ listing d → ends_with ".json" name = true →
              fs' !! path_of name
              = match new_text (strip arg) (contents d) name with
                | Some text => Some text
                | None => contents d !! path_of name
                end.
Proof.
  intros Hd Hnd Hok. unfold main. rewrite Hd. cbn [negb].
  destruct (patch_files_complete (strip arg) (sorted (listing d))
              (contents d) 0) as (fs' & Hrun & Hfiles).
  { by rewrite sorted_perm. }
  { intros name Hin. apply Hok. by rewrite <- (sorted_perm (listing d)). }
  exists fs'. split.
  - rewrite Hrun. do 2 f_equal. cbn [Nat.add]. by rewrite sorted_perm.
  - intros name Hin. apply Hfiles. by rewrite sorted_perm.
Qed.

(** X28.  A file the patch cannot process stops the run where it stands in
    the sorted listing: the run ends with the failure of that file, the
    files sorted before it are already patched, and that file and the
    files after it are as they were. *)
Theorem patch_run_aborts prog arg d pre bad post o :
  is_dir d = true → NoDup (listing d) →
  sorted (listing d) = pre ++ bad :: post →
  (∀ name, name ∈ pre → ends_with ".json" name = true →
           patchable loads (strip arg) (contents d) name) →
  ends_with ".json" bad = true →
  refusal (strip arg) (contents d) bad = Some o →
  ∃ fs',
    main strip loads dumps [prog; arg] d = (o, fs')
    ∧ (∀ name, name ∈ pre → ends_with ".json" name = true →
               fs' !! path_of name
               = match new_text (strip arg) (contents d) name with
                 | Some text => Some text
                 | None => contents d !! path_of name
                 end)
    ∧ (∀ name, name ∈ bad :: post →
               fs' !! path_of name = contents d !! path_of name).
Proof.
  intros Hd Hnd Hs Hok Hj Hbad. unfold main. rewrite Hd, Hs. cbn [negb].
  assert (NoDup (pre ++ bad :: post)) as Hnd'.
  { by rewrite <- Hs, sorted_perm. }
  apply NoDup_app in Hnd' as (Hpre & Hdisj & _).
  destruct (patch_files_complete (strip arg) pre (contents d) 0 Hpre Hok)
    as (fs1 & Hrun & Hfiles).
  rewrite (patch_files_app _ _ _ _ _ _ _ Hrun).
  assert (∀ name, name ∈ bad :: post →
                  fs1 !! path_of name = contents d !! path_of name) as Hkeep.
  { intros name Hin.
    pose proof (patch_files_scope (strip arg) pre (contents d) 0
                  (path_of name)) as Hk.
    rewrite Hrun in Hk. apply Hk. intros x Hx _ Heq.
    apply path_of_inj in Heq. subst x. by apply (Hdisj name). }
  exists fs1. split_and!; [|done..].
  cbn [patch_files]. rewrite Hj. cbn [negb].
  unfold refusal in Hbad. rewrite (Hkeep bad) by by left.
  destruct (contents d !! path_of bad) as [text|]; [|by injection Hbad as <-].
  destruct (loads text) as [data|e]; [|by injection Hbad as <-].
  destruct (patch_document (strip arg) data) as [r|e]; [done|].
  by injection Hbad as <-.
Qed.
End PatchRunFacts.
End PatchFacts.


(** ** A small metadata directory *)

(** A reader that knows one text, the metadata of [plain_agent], and a
    writer that names the document it is given. *)
Definition known_loads (text : string) : result json :=
  if String.eqb text "seven"
  then Ok (Prompts.build_opensea_metadata plain_agent)
  else Raise ValueError.

Definition known_dumps (doc : json) : string :=
  match field "image" doc with
  | Some (JStr s) => s
  | _ => ""
  end.

Definition small_disk : Patch.disk :=
  {| Patch.is_dir := true;
     Patch.listing := ["notes.txt"; "0007.json"];
     Patch.contents := {[ Patch.path_of "0007.json" := "seven" ]} |}.

(** The same directory with a second entry that cannot be opened. *)
Definition broken_disk : Patch.disk :=
  {| Patch.is_dir := true;
     Patch.listing := ["0008.json"; "0007.json"];
     Patch.contents := {[ Patch.path_of "0007.json" := "seven" ]} |}.

Lemma example_cid_plain : ¬ infix Patch.PLACEHOLDER "QmExample".
Proof. intros H%has_infix_spec. vm_compute in H. discriminate H. Defined.

Lemma placeholder_replaced_witness :
  ∃ doc,
    Patch.patch_document "QmExample"
      (Prompts.build_opensea_metadata plain_agent) = Ok (Some doc)
    ∧ field "image" doc = Some (JStr "ipfs://QmExample/0007.png").
Proof.
  destruct (placeholder_replaced "QmExample" plain_agent) as [_ Hnew].
  destruct Hnew as (doc & Hrun & Himage & _); [discriminate|].
  exists doc. split; [exact Hrun|exact Himage].
Defined.

Lemma repatch_changes_nothing_witness :
  ∃ doc,
    Patch.patch_document "QmExample"
      (Prompts.build_opensea_metadata plain_agent) = Ok (Some doc)
    ∧ Patch.patch_document "QmOther" doc = Ok None.
Proof.
  destruct (Patch.patch_document "QmExample"
              (Prompts.build_opensea_metadata plain_agent))
    as [[doc|]|e] eqn:Hrun;
    try (vm_compute in Hrun; discriminate Hrun).
  exists doc. split; [reflexivity|].
  exact (repatch_changes_nothing "QmExample" "QmOther" plain_agent doc
           example_cid_plain Hrun).
Defined.

Lemma patch_document_edges_witness :
  Patch.patch_document "QmExample" (JObj [ ("name", JStr "Chibi Agent") ])
  = Ok None
  ∧ Patch.patch_document "QmExample" (JList []) = Raise AttributeError.
Proof.
  split.
  - destruct (patch_document_edges "QmExample"
                (JObj [ ("name", JStr "Chibi Agent") ])) as (Hnone & _).
    by apply (Hnone [ ("name", JStr "Chibi Agent") ]).
  - destruct (patch_document_edges "QmExample" (JList []))
      as (_ & _ & Hbad & _).
    by apply Hbad.
Defined.

Lemma patch_run_scope_witness :
  Patch.main id known_loads known_dumps ["update_metadata_cid.py"] small_disk
  = (Patch.Exit 1, Patch.contents small_disk).
Proof.
  destruct (patch_run_scope id known_loads known_dumps
              ["update_metadata_cid.py"] small_disk) as (Husage & _).
  apply Husage. simpl. lia.
Defined.

Lemma small_disk_patchable name :
  name ∈ ["0007.json"] → Patch.ends_with ".json" name = true →
  patchable known_loads "QmExample"
    {[ Patch.path_of "0007.json" := "seven" ]} name.
Proof.
  intros ->%list_elem_of_singleton _.
  exists "seven", (Prompts.build_opensea_metadata plain_agent).
  split_and!; [apply lookup_singleton_eq|reflexivity|].
  vm_compute. reflexivity.
Defined.

Lemma patch_run_complete_witness :
  ∃ fs',
    Patch.main id known_loads known_dumps
      ["update_metadata_cid.py"; "QmExample"] small_disk
    = (Patch.Finished 1, fs')
    ∧ fs' !! Patch.path_of "0007.json" = Some "ipfs://QmExample/0007.png".
Proof.
  destruct (patch_run_complete id known_loads known_dumps
              "update_metadata_cid.py" "QmExample" small_disk)
    as (fs' & Hrun & Hfiles).
  - reflexivity.
  - refine (bool_decide_unpack _ _). vm_compute. exact I.
  - intros name [->|Hin]%elem_of_cons Hj; [discriminate Hj|].
    by apply small_disk_patchable.
  - exists fs'. split; [exact Hrun|].
    rewrite (Hfiles "0007.json"); [|by right; left|reflexivity].
    vm_compute. reflexivity.
Defined.

Lemma patch_run_aborts_witness :
  ∃ fs',
    Patch.main id known_loads known_dumps
      ["update_metadata_cid.py"; "QmExample"] broken_disk
    = (Patch.OpenFailed (Patch.path_of "0008.json"), fs')
    ∧ fs' !! Patch.path_of "0007.json" = Some "ipfs://QmExample/0007.png".
Proof.
  destruct (patch_run_aborts id known_loads known_dumps
              "update_metadata_cid.py" "QmExample" broken_disk
              ["0007.json"] "0008.json" []
              (Patch.OpenFailed (Patch.path_of "0008.json")))
    as (fs' & Hrun & Hfiles & _).
  - reflexivity.
  - refine (bool_decide_unpack _ _). vm_compute. exact I.
  - vm_compute. reflexivity.
  - apply small_disk_patchable.
  - reflexivity.
  - vm_compute. reflexivity.
  - exists fs'. split; [exact Hrun|].
    rewrite (Hfiles "0007.json"); [|by left|reflexivity].
    vm_compute. reflexivity.
Defined.
